(** * Sortify: token lifecycle, authorized request pipeline, pagination,
      multi-criterion sort and batched playlist writes.

A shallow embedding of [src/lib/spotifyAuth.ts], [src/lib/spotifyClient.ts]
and the pure and effectful cores of [src/App.tsx].

- JavaScript numbers are integers ([Z]) extended with [NaN].
- Browser builtins (collation, date and number parsing, JSON, URL) are the
  fields of the class [Host]; nothing is assumed about them beyond what a
  statement lists as a hypothesis.
- The network peers and the wall clock are oracles of an [Env]: the k-th
  call gets the k-th answer.
- [async] code is sequential state passing: every [await] is a bind. *)

From Stdlib Require Import ZArith Lia Ascii DecimalString.
From stdpp Require Import gmap strings list sorting.

Set Warnings "-register-all".

Local Open Scope Z_scope.

(** ** JavaScript values *)

Module JS.

(** A number: an integer or NaN. *)
Inductive num : Type :=
| NaN : num
| Num (z : Z) : num.

(** [a - b] *)
Definition sub (a b : num) : num :=
  match a, b with
  | Num x, Num y => Num (x - y)
  | _, _ => NaN
  end.

(** [a + b] *)
Definition add (a b : num) : num :=
  match a, b with
  | Num x, Num y => Num (x + y)
  | _, _ => NaN
  end.

(** [a * b] *)
Definition mul (a b : num) : num :=
  match a, b with
  | Num x, Num y => Num (x * y)
  | _, _ => NaN
  end.

(** [a !== 0]; NaN is different from every number. *)
Definition strict_ne_zero (a : num) : bool :=
  match a with
  | NaN => true
  | Num z => negb (z =? 0)
  end.

(** [a < b]; every comparison with NaN is false. *)
Definition lt (a b : num) : bool :=
  match a, b with
  | Num x, Num y => x <? y
  | _, _ => false
  end.

(** Truthiness of a string: [!s] holds exactly for the empty string. *)
Definition truthy (s : string) : bool :=
  match s with
  | EmptyString => false
  | String _ _ => true
  end.

(** Truthiness of a nullable string ([null], [undefined] and [""] are falsy). *)
Definition truthy_opt (s : option string) : bool :=
  match s with
  | None => false
  | Some v => truthy v
  end.

(** The result of [JSON.parse]. An object is its list of own properties. *)
Inductive json : Type :=
| JNull : json
| JBool (b : bool) : json
| JNumber (n : num) : json
| JString (s : string) : json
| JArray (items : list json) : json
| JObject (props : list (string * json)) : json.

(** [String(n)] for a non-negative integer. *)
Definition string_of_nat (n : nat) : string :=
  NilZero.string_of_uint (Nat.to_uint n).

End JS.

Export JS (num, NaN, Num, json, JNull, JBool, JNumber, JString, JArray, JObject).

(** Builtins of the browser that the program calls. *)
Class Host : Type := {
  (** [a.localeCompare(b, 'vi', { sensitivity: 'base' })] *)
  localeCompare : string → string → Z;
  (** [new Date(s).getTime()]; NaN for an invalid date *)
  Date_getTime : string → num;
  (** [Number(s)] *)
  Number_of : string → num;
  (** [JSON.parse(s)]; [None] when it throws a SyntaxError *)
  JSON_parse : string → option json;
  (** [new URL(s)] followed by [`${u.pathname}${u.search}`]; [None] when
      the constructor throws *)
  URL_path_search : string → option string;
  (** [JSON.stringify(v)] *)
  JSON_stringify : json → string;
  (** [s.trim()] *)
  String_trim : string → string;
  (** [`${v}`] for a value that is not a string; [None] is [undefined] *)
  String_of : option json → string;
}.

(** A row of the track table ([TrackRow] of [src/App.tsx]). *)
Module TrackRow.
Record t : Type := mk {
  id : string;
  uri : string;
  name : string;
  artists : string;
  mainArtist : string;
  album : string;
  popularity : option Z;
  durationMs : Z;
  addedAt : string;
  originalIndex : Z;
}.
End TrackRow.

(** ** Effects: outcomes, observable events and the state monad *)

Module TokenSet.
Record t : Type := mk {
  accessToken : string;
  refreshToken : string;
  expiresAt : Z;
  scope : string;
}.
End TokenSet.

(** What a [throw] carries: one constructor per [new Error(...)] of the
    sources, and one per rejection of a builtin promise. *)
Inductive Error : Type :=
| MissingEnv (name : string)
| InvalidAuthState
| MissingCodeVerifier
| LoginFailed (detail : string + Z)
| SessionExpired
| MissingRefreshToken
| FetchRejected
| BodyRejected
| InvalidURL
| SyntaxError
| TypeError
| ApiError (status : Z) (message : string).

(** [RequestInit] with the headers the pipeline reads or writes; header
    names are the lower-case ones a [Headers] object keeps. *)
Inductive Body : Type :=
| BodyString (s : string)
| BodyForm (fields : list (string * string)).

Module RequestInit.
Record t : Type := mk {
  method : option string;
  headers : gmap string string;
  body : option Body;
}.
End RequestInit.

Module Response.
Record t : Type := mk {
  status : Z;
  statusText : string;
  headers : gmap string string;
  (** the body as [response.json()] resolves it; [None] when it rejects *)
  json_body : option json;
}.

(** [response.ok] *)
Definition ok (r : t) : bool := (200 <=? status r) && (status r <=? 299).
End Response.

(** What the outside world can observe of a run. *)
Inductive Event : Type :=
| TokenRequest (form : list (string * string))
| ApiRequest (url : string) (init : RequestInit.t)
| Sleep (ms : num)
| TokenObserved (tokens : option TokenSet.t)
| ConsoleWarn
| SetTracks (rows : list TrackRow.t)
| SetBanner (kind message : string)
| UserFacingError (e : Error)
| SetIsLoadingTracks (b : bool)
| SetIsCreatingPlaylist (b : bool)
| CreatePanelReset.

(** The result of running a piece of code: it returns, it throws, or it is
    still running when the fuel of the model is spent. *)
Inductive outcome (A : Type) : Type :=
| Ret (a : A)
| Throw (e : Error)
| Diverge.
Arguments Ret {A} a.
Arguments Throw {A} e.
Arguments Diverge {A}.

Definition M (S A : Type) : Type := S → outcome A * list Event * S.

#[global] Instance M_ret {S} : MRet (M S) := λ A a s, (Ret a, [], s).

#[global] Instance M_bind {S} : MBind (M S) := λ A B k m s,
  match m s with
  | (Ret a, ev, s') => let '(o, ev', s'') := k a s' in (o, ev ++ ev', s'')
  | (Throw e, ev, s') => (Throw e, ev, s')
  | (Diverge, ev, s') => (Diverge, ev, s')
  end.

Definition throw {S A} (e : Error) : M S A := λ s, (Throw e, [], s).
Definition diverge {S A} : M S A := λ s, (Diverge, [], s).
Definition emit {S} (e : Event) : M S unit := λ s, (Ret tt, [e], s).
Definition modify {S} (f : S → S) : M S unit := λ s, (Ret tt, [], f s).
Definition gets {S A} (f : S → A) : M S A := λ s, (Ret (f s), [], s).

(** [try { m } catch (error) { handler error }] *)
Definition try_catch {S A} (m : M S A) (handler : Error → M S A) : M S A := λ s,
  match m s with
  | (Throw e, ev, s') => let '(o, ev', s'') := handler e s' in (o, ev ++ ev', s'')
  | r => r
  end.

(** [try { m } finally { cleanup }]; a block that never finishes never
    reaches its [finally]. *)
Definition try_finally {S A} (m : M S A) (cleanup : M S unit) : M S A := λ s,
  match m s with
  | (Diverge, ev, s') => (Diverge, ev, s')
  | (o, ev, s') =>
      match cleanup s' with
      | (Ret _, ev', s'') => (o, ev ++ ev', s'')
      | (Throw e, ev', s'') => (Throw e, ev ++ ev', s'')
      | (Diverge, ev', s'') => (Diverge, ev ++ ev', s'')
      end
  end.

(** ** The environment: configuration, clock and network peers *)

Module TokenEndpointResponse.
Record t : Type := mk {
  access_token : string;
  refresh_token : option string;
  expires_in : Z;
  scope : string;
}.
End TokenEndpointResponse.

(** An answer of [https://accounts.spotify.com/api/token]. *)
Inductive TokenReply : Type :=
| (** [response.ok]; [None] when [response.json()] rejects *)
  TokenOk (data : option TokenEndpointResponse.t)
| (** not ok; [body] is [None] when [response.json()] rejects, else the
      [error] member of the parsed body *)
  TokenNotOk (status : Z) (body : option (option string)).

Module Env.
Record t : Type := mk {
  CLIENT_ID : option string;
  REDIRECT_URI : option string;
  (** the value of the k-th [Date.now()] *)
  clock : nat → Z;
  (** the answer to the k-th token request; [None]: [fetch] rejects *)
  tokenEndpoint : nat → option TokenReply;
  (** the answer to the k-th resource request; [None]: [fetch] rejects *)
  api : nat → option Response.t;
}.
End Env.

Module Browser.
Record t : Type := mk {
  localStorage : gmap string string;
  sessionStorage : gmap string string;
  ticks : nat;
  tokenCalls : nat;
  apiCalls : nat;
}.

Definition with_localStorage (f : gmap string string → gmap string string) (b : t) : t :=
  mk (f (localStorage b)) (sessionStorage b) (ticks b) (tokenCalls b) (apiCalls b).
Definition with_sessionStorage (f : gmap string string → gmap string string) (b : t) : t :=
  mk (localStorage b) (f (sessionStorage b)) (ticks b) (tokenCalls b) (apiCalls b).
Definition tick (b : t) : t :=
  mk (localStorage b) (sessionStorage b) (S (ticks b)) (tokenCalls b) (apiCalls b).
Definition countTokenCall (b : t) : t :=
  mk (localStorage b) (sessionStorage b) (ticks b) (S (tokenCalls b)) (apiCalls b).
Definition countApiCall (b : t) : t :=
  mk (localStorage b) (sessionStorage b) (ticks b) (tokenCalls b) (S (apiCalls b)).
End Browser.

(** ** [src/lib/spotifyAuth.ts] *)

Module Auth.

Definition CODE_VERIFIER_KEY : string := "spotify:pkce_code_verifier".
Definition STATE_KEY : string := "spotify:auth_state".
Definition TOKEN_STORAGE_KEY : string := "spotify:token_set".

(** The plain object [{ accessToken, refreshToken, expiresAt, scope }]. *)
Definition tokenSet_json (t : TokenSet.t) : json :=
  JObject [("accessToken", JString (TokenSet.accessToken t));
           ("refreshToken", JString (TokenSet.refreshToken t));
           ("expiresAt", JNumber (Num (TokenSet.expiresAt t)));
           ("scope", JString (TokenSet.scope t))].

(** [v[key]]: [None] is the TypeError of reading a member of [null];
    [Some None] is [undefined]. Primitives and arrays have no such member. *)
Fixpoint lookup_prop (props : list (string * json)) (key : string) : option json :=
  match props with
  | [] => None
  | (k, v) :: rest => if String.eqb k key then Some v else lookup_prop rest key
  end.

Definition member (v : json) (key : string) : option (option json) :=
  match v with
  | JNull => None
  | JObject props => Some (lookup_prop props key)
  | _ => Some None
  end.

(** [typeof x === 'string'] *)
Definition typeof_string (x : option json) : bool :=
  match x with
  | Some (JString _) => true
  | _ => false
  end.

Section WithEnv.
Context `{Host} (env : Env.t).

Definition assertEnv (name : string) (value : option string) : M Browser.t string :=
  match value with
  | Some v => if JS.truthy v then mret v else throw (MissingEnv name)
  | None => throw (MissingEnv name)
  end.

(** [Date.now()] *)
Definition Date_now : M Browser.t Z := λ b,
  (Ret (Env.clock env (Browser.ticks b)), [], Browser.tick b).

(** [fetch('https://accounts.spotify.com/api/token', { method: 'POST', body })] *)
Definition fetchToken (form : list (string * string)) : M Browser.t TokenReply := λ b,
  match Env.tokenEndpoint env (Browser.tokenCalls b) with
  | Some reply => (Ret reply, [TokenRequest form], Browser.countTokenCall b)
  | None => (Throw FetchRejected, [TokenRequest form], Browser.countTokenCall b)
  end.

Definition member_or_throw (v : json) (key : string) : M Browser.t (option json) :=
  match member v key with
  | Some x => mret x
  | None => throw TypeError
  end.

Definition loadStoredTokens : M Browser.t (option json) :=
  raw ← gets (λ b, Browser.localStorage b !! TOKEN_STORAGE_KEY);
  match raw with
  | None => mret None
  | Some text =>
      if negb (JS.truthy text) then mret None
      else
        try_catch
          (parsed ← match JSON_parse text with
                    | Some v => mret v
                    | None => throw SyntaxError
                    end;
           accessToken ← member_or_throw parsed "accessToken";
           if typeof_string accessToken then
             refreshToken ← member_or_throw parsed "refreshToken";
             if typeof_string refreshToken then mret (Some parsed)
             else mret None
           else mret None)
          (λ error, emit ConsoleWarn;; mret None)
  end.

Definition storeTokens (tokenSet : TokenSet.t) : M Browser.t unit :=
  modify (Browser.with_localStorage
            (<[TOKEN_STORAGE_KEY := JSON_stringify (tokenSet_json tokenSet)]>)).

Definition clearStoredAuth : M Browser.t unit :=
  modify (Browser.with_localStorage (delete TOKEN_STORAGE_KEY));;
  modify (Browser.with_sessionStorage (delete CODE_VERIFIER_KEY));;
  modify (Browser.with_sessionStorage (delete STATE_KEY)).

Definition buildTokenSet (data : TokenEndpointResponse.t)
    (previousRefreshToken : option string) : M Browser.t TokenSet.t :=
  let refreshToken :=
    match TokenEndpointResponse.refresh_token data with
    | Some r => Some r
    | None => previousRefreshToken
    end in
  match refreshToken with
  | Some r =>
      if JS.truthy r then
        now ← Date_now;
        mret (TokenSet.mk (TokenEndpointResponse.access_token data) r
                (now + TokenEndpointResponse.expires_in data * 1000)
                (TokenEndpointResponse.scope data))
      else throw MissingRefreshToken
  | None => throw MissingRefreshToken
  end.

Definition completeAuthorization (code returnedState : string)
  : M Browser.t TokenSet.t :=
  clientId ← assertEnv "VITE_SPOTIFY_CLIENT_ID" (Env.CLIENT_ID env);
  redirectUri ← assertEnv "VITE_SPOTIFY_REDIRECT_URI" (Env.REDIRECT_URI env);
  expectedState ← gets (λ b, Browser.sessionStorage b !! STATE_KEY);
  codeVerifier ← gets (λ b, Browser.sessionStorage b !! CODE_VERIFIER_KEY);
  if negb (JS.truthy_opt expectedState)
     || negb (bool_decide (Some returnedState = expectedState))
  then throw InvalidAuthState
  else
    match codeVerifier with
    | None => throw MissingCodeVerifier
    | Some verifier =>
        if negb (JS.truthy verifier) then throw MissingCodeVerifier
        else
          response ← fetchToken [("grant_type", "authorization_code");
                                 ("code", code);
                                 ("redirect_uri", redirectUri);
                                 ("client_id", clientId);
                                 ("code_verifier", verifier)];
          match response with
          | TokenNotOk status None => throw (LoginFailed (inl "unknown_error"))
          | TokenNotOk status (Some (Some e)) => throw (LoginFailed (inl e))
          | TokenNotOk status (Some None) => throw (LoginFailed (inr status))
          | TokenOk None => throw BodyRejected
          | TokenOk (Some data) =>
              tokenSet ← buildTokenSet data None;
              storeTokens tokenSet;;
              modify (Browser.with_sessionStorage (delete STATE_KEY));;
              modify (Browser.with_sessionStorage (delete CODE_VERIFIER_KEY));;
              mret tokenSet
          end
    end.

Definition refreshAccessToken (previous : TokenSet.t) : M Browser.t TokenSet.t :=
  clientId ← assertEnv "VITE_SPOTIFY_CLIENT_ID" (Env.CLIENT_ID env);
  response ← fetchToken [("grant_type", "refresh_token");
                         ("refresh_token", TokenSet.refreshToken previous);
                         ("client_id", clientId)];
  match response with
  | TokenNotOk _ _ => clearStoredAuth;; throw SessionExpired
  | TokenOk None => throw BodyRejected
  | TokenOk (Some data) =>
      tokenSet ← buildTokenSet data (Some (TokenSet.refreshToken previous));
      storeTokens tokenSet;;
      mret tokenSet
  end.

End WithEnv.
End Auth.

(** ** [src/lib/spotifyClient.ts] *)

Module Client.

Definition API_BASE : string := "https://api.spotify.com/v1".

(** A [SpotifyClient] object together with the browser it runs in:
    [this.tokens], whether an [onTokenRefresh] callback was given, and
    the storage and call counters. *)
Record t : Type := mk {
  tokens : TokenSet.t;
  onTokenRefresh : bool;
  browser : Browser.t;
}.

Definition set_tokens (tokenSet : TokenSet.t) (c : t) : t :=
  mk tokenSet (onTokenRefresh c) (browser c).

(** Run code of [spotifyAuth.ts] from a method of the client. *)
Definition inBrowser {A} (m : M Browser.t A) : M t A := λ c,
  let '(o, ev, b) := m (browser c) in
  (o, ev, mk (tokens c) (onTokenRefresh c) b).

(** [this.onTokenRefresh?.(tokens)] *)
Definition notify (tokenSet : option TokenSet.t) : M t unit :=
  registered ← gets onTokenRefresh;
  if registered : bool then emit (TokenObserved tokenSet) else mret tt.

Definition with_method (m : string) (init : RequestInit.t) : RequestInit.t :=
  RequestInit.mk (Some m) (RequestInit.headers init) (RequestInit.body init).

Definition with_headers (h : gmap string string) (init : RequestInit.t)
  : RequestInit.t :=
  RequestInit.mk (RequestInit.method init) h (RequestInit.body init).

Definition with_body (b : Body) (init : RequestInit.t) : RequestInit.t :=
  RequestInit.mk (RequestInit.method init) (RequestInit.headers init) (Some b).

(** [init.body && typeof init.body === 'string'] *)
Definition isNonEmptyStringBody (b : option Body) : bool :=
  match b with
  | Some (BodyString text) => JS.truthy text
  | _ => false
  end.

(** The headers [authorizedFetch] sends. *)
Definition requestHeaders (accessToken : string) (init : RequestInit.t)
  : gmap string string :=
  let headers := <["authorization" := "Bearer " +:+ accessToken]>
                   (RequestInit.headers init) in
  if negb (bool_decide (is_Some (headers !! "content-type")))
     && isNonEmptyStringBody (RequestInit.body init)
  then <["content-type" := "application/json"]> headers
  else headers.

Section WithEnv.
Context `{Host} (env : Env.t).

Definition updateTokenSet (tokenSet : TokenSet.t) : M t unit :=
  modify (set_tokens tokenSet);;
  notify (Some tokenSet).

Definition logout : M t unit :=
  inBrowser Auth.clearStoredAuth;;
  notify None.

Definition ensureFreshAccessToken : M t string :=
  let safetyWindow := 60000 in
  now ← inBrowser (Auth.Date_now env);
  current ← gets tokens;
  if now + safetyWindow <? TokenSet.expiresAt current
  then mret (TokenSet.accessToken current)
  else
    refreshed ← inBrowser (Auth.refreshAccessToken env current);
    modify (set_tokens refreshed);;
    notify (Some refreshed);;
    mret (TokenSet.accessToken refreshed).

(** [fetch(url, init)] against the resource API *)
Definition fetch (url : string) (init : RequestInit.t) : M t Response.t := λ c,
  let b := Browser.countApiCall (browser c) in
  let c' := mk (tokens c) (onTokenRefresh c) b in
  match Env.api env (Browser.apiCalls (browser c)) with
  | Some response => (Ret response, [ApiRequest url init], c')
  | None => (Throw FetchRejected, [ApiRequest url init], c')
  end.

(** [Number(response.headers.get('retry-after') ?? '2') * 1000] *)
Definition retryAfterMs (response : Response.t) : num :=
  JS.mul (Number_of (default "2" (Response.headers response !! "retry-after")))
         (Num 1000).

(** [authorizedFetch(input, init, attempt)]; one unit of [fuel] per call
    of the method, the self calls included. *)
Fixpoint authorizedFetch (fuel : nat) (input : string) (init : RequestInit.t)
    (attempt : nat) : M t Response.t :=
  match fuel with
  | O => diverge
  | S fuel' =>
      accessToken ← ensureFreshAccessToken;
      let url := if String.prefix "http" input then input
                 else API_BASE +:+ input in
      let headers := requestHeaders accessToken init in
      response ← fetch url (with_headers headers init);
      if (Response.status response =? 401) && (attempt =? 0)%nat then
        current ← gets tokens;
        refreshed ← inBrowser (Auth.refreshAccessToken env current);
        modify (set_tokens refreshed);;
        notify (Some refreshed);;
        authorizedFetch fuel' input init (attempt + 1)
      else if Response.status response =? 429 then
        emit (Sleep (retryAfterMs response));;
        authorizedFetch fuel' input init (attempt + 1)
      else mret response
  end.

(** ['error' in details] for a parsed body that is an object *)
Definition hasErrorMember (details : json) : bool :=
  match details with
  | JObject props => bool_decide (is_Some (Auth.lookup_prop props "error"))
  | _ => false
  end.

Definition toError (response : Response.t) : Error :=
  let details :=
    match Response.json_body response with
    | Some v => v
    | None => JObject [("message", JString "Không thể đọc chi tiết lỗi.")]
    end in
  ApiError (Response.status response)
           (if hasErrorMember details then JSON_stringify details
            else Response.statusText response).

Definition bodyOrThrow (response : Response.t) : M t json :=
  match Response.json_body response with
  | Some v => mret v
  | None => throw BodyRejected
  end.

Definition get (fuel : nat) (path : string) (init : RequestInit.t) : M t json :=
  response ← authorizedFetch fuel path (with_method "GET" init) 0;
  if negb (Response.ok response) then throw (toError response)
  else bodyOrThrow response.

(** The [body] argument of [post] and [put]: a form (FormData or
    URLSearchParams) goes out as it is and drops the content type; any
    other value is serialised with [JSON.stringify]. *)
Definition finalInit (method : string) (body : json + list (string * string))
    (init : RequestInit.t) : RequestInit.t :=
  match body with
  | inl value =>
      with_body (BodyString (JSON_stringify value)) (with_method method init)
  | inr form =>
      with_headers (delete "content-type" (RequestInit.headers init))
                   (with_body (BodyForm form) (with_method method init))
  end.

Definition send (fuel : nat) (method path : string)
    (body : json + list (string * string)) (init : RequestInit.t)
  : M t (option json) :=
  response ← authorizedFetch fuel path (finalInit method body init) 0;
  if negb (Response.ok response) then throw (toError response)
  else if Response.status response =? 204 then mret None
  else value ← bodyOrThrow response; mret (Some value).

Definition post (fuel : nat) := send fuel "POST".
Definition put (fuel : nat) := send fuel "PUT".

End WithEnv.
End Client.

(** ** [src/App.tsx]: rows, rules and the comparator *)

Module SortRule.
Inductive SortField : Type :=
| name | mainArtist | album | addedAt | popularity | durationMs.

Inductive Direction : Type := asc | desc.

Record t : Type := mk {
  id : string;
  field : SortField;
  direction : Direction;
}.
End SortRule.

Module PlaylistSummary.
Record t : Type := mk {
  id : string;
  name : string;
  description : option string;
  totalTracks : Z;
  imageUrl : option string;
  ownerName : option string;
}.
End PlaylistSummary.

(** The [track] member of an item of [SpotifyPlaylistTracksResponse];
  [artists] holds the artists' names, [album] the album's name. *)
Module SpotifyTrack.
Record t : Type := mk {
  id : option string;
  uri : option string;
  name : string;
  popularity : option Z;
  duration_ms : option Z;
  artists : option (list string);
  album : option string;
}.
End SpotifyTrack.

Module TrackItem.
Record t : Type := mk {
  added_at : string;
  track : option SpotifyTrack.t;
}.
End TrackItem.

Module TracksPage.
Record t : Type := mk {
  items : list TrackItem.t;
  next : option string;
}.
End TracksPage.

Module App.
Section Sorting.
Context `{Host}.

Definition compareStrings (a b : string) : num := Num (localeCompare a b).

Definition compareNumbers (a b : num) : num := JS.sub a b.

Definition compareDates (a b : string) : num :=
  JS.sub (Date_getTime a) (Date_getTime b).

(** [x ?? 0] *)
Definition orZero (x : option Z) : num := Num (default 0 x).

(** The [switch (rule.field)] of the comparator. *)
Definition fieldComparison (f : SortRule.SortField) (a b : TrackRow.t) : num :=
  match f with
  | SortRule.name => compareStrings (TrackRow.name a) (TrackRow.name b)
  | SortRule.mainArtist =>
      compareStrings (TrackRow.mainArtist a) (TrackRow.mainArtist b)
  | SortRule.album => compareStrings (TrackRow.album a) (TrackRow.album b)
  | SortRule.addedAt => compareDates (TrackRow.addedAt a) (TrackRow.addedAt b)
  | SortRule.popularity =>
      compareNumbers (orZero (TrackRow.popularity a))
                     (orZero (TrackRow.popularity b))
  | SortRule.durationMs =>
      compareNumbers (Num (TrackRow.durationMs a)) (Num (TrackRow.durationMs b))
  end.

(** [rule.direction === 'asc' ? 1 : -1] *)
Definition directionSign (d : SortRule.Direction) : Z :=
  match d with
  | SortRule.asc => 1
  | SortRule.desc => -1
  end.

(** The arrow function given to [cloned.sort]: the [for] loop over the
    rules, then the fall-through on [originalIndex]. *)
Fixpoint comparator (sortRules : list SortRule.t) (a b : TrackRow.t) : num :=
  match sortRules with
  | [] =>
      compareNumbers (Num (TrackRow.originalIndex a))
                     (Num (TrackRow.originalIndex b))
  | rule :: rest =>
      let direction := directionSign (SortRule.direction rule) in
      let comparison := fieldComparison (SortRule.field rule) a b in
      if JS.strict_ne_zero comparison
      then JS.mul comparison (Num direction)
      else comparator rest a b
  end.

End Sorting.

(** [Array.prototype.sort]: the comparator's result is read through
  SortCompare, which turns NaN into +0; the sort is stable. The order of
  the result is fixed by the language only for a consistent comparator;
  the statements about sorted tables use it there, where the result is the
  one sorted arrangement, and on tables of two rows. *)
Section ArraySort.
Context {A : Type} (comparefn : A → A → num).

Definition SortCompare (x y : A) : Z :=
  match comparefn x y with
  | NaN => 0
  | Num v => v
  end.

Fixpoint sort_insert (x : A) (sorted : list A) : list A :=
  match sorted with
  | [] => [x]
  | y :: rest =>
      if SortCompare x y <=? 0 then x :: y :: rest
      else y :: sort_insert x rest
  end.

Definition Array_sort (l : list A) : list A := foldr sort_insert [] l.
End ArraySort.

Section SortedTracks.
Context `{Host}.

(** The [useMemo] body computing [sortedTracks]. *)
Definition sortedTracks (tracks : list TrackRow.t) (sortRules : list SortRule.t)
  : list TrackRow.t :=
  if (length tracks =? 0)%nat || (length sortRules =? 0)%nat then tracks
  else Array_sort (comparator sortRules) tracks.
End SortedTracks.

(** [chunkArray]: the [for] loop, with [fuel] bounding its iterations;
  [None] when the fuel runs out before the loop condition fails. *)
Section Chunk.
Context {T : Type}.

(** [source.slice(i, j)] for [0 <= i <= j] *)
Definition slice (source : list T) (i j : nat) : list T :=
  take (j - i) (drop i source).

Fixpoint chunkLoop (fuel : nat) (source : list T) (chunkSize i : nat)
    (output : list (list T)) : option (list (list T)) :=
  if (i <? length source)%nat then
    match fuel with
    | O => None
    | S fuel' =>
        chunkLoop fuel' source chunkSize (i + chunkSize)
                  (output ++ [slice source i (i + chunkSize)])
    end
  else Some output.

Definition chunkArray (source : list T) (chunkSize : nat)
  : option (list (list T)) :=
  chunkLoop (length source) source chunkSize 0 [].
End Chunk.

(** *** Paginated track fetch and playlist write *)

Definition UNKNOWN : string := "Không rõ".

(** One turn of [for (const item of response.items)]: [None] is the
    [continue], [Some row] the row pushed at position [index]. *)
Definition toRow (playlistId : string) (index : nat) (item : TrackItem.t)
  : option TrackRow.t :=
  match TrackItem.track item with
  | None => None
  | Some track =>
      match SpotifyTrack.uri track with
      | None => None
      | Some uri =>
          if negb (JS.truthy uri) then None
          else Some
            (TrackRow.mk
               (default (playlistId +:+ "-" +:+ JS.string_of_nat index)
                        (SpotifyTrack.id track))
               uri
               (SpotifyTrack.name track)
               (default UNKNOWN (String.concat ", " <$> SpotifyTrack.artists track))
               (default UNKNOWN (SpotifyTrack.artists track ≫= head))
               (default UNKNOWN (SpotifyTrack.album track))
               (SpotifyTrack.popularity track)
               (default 0 (SpotifyTrack.duration_ms track))
               (TrackItem.added_at item)
               (Z.of_nat index))
      end
  end.

(** The inner [for] loop over one page. *)
Fixpoint collectItems (playlistId : string) (items : list TrackItem.t)
    (index : nat) (collected : list TrackRow.t) : nat * list TrackRow.t :=
  match items with
  | [] => (index, collected)
  | item :: rest =>
      match toRow playlistId index item with
      | None => collectItems playlistId rest index collected
      | Some row => collectItems playlistId rest (index + 1) (collected ++ [row])
      end
  end.

Section Remote.
Context `{Host} {St : Type}.
(** [client.get(url)] read as a page of tracks, [client.post(path, body)]
    and the [fetchPlaylists] callback, over any state [St]. *)
Context (client_get : string → M St TracksPage.t).
Context (client_post : string → json → M St (option json)).
Context (fetchPlaylists : M St unit).

(** The [while (url)] loop of [fetchPlaylistTracks]; one unit of [fuel]
    per page requested. *)
Fixpoint collectLoop (fuel : nat) (playlistId : string) (url : option string)
    (index : nat) (collected : list TrackRow.t) : M St (list TrackRow.t) :=
  if JS.truthy_opt url then
    match fuel with
    | O => diverge
    | S fuel' =>
        response ← client_get (default "" url);
        let '(index', collected') :=
          collectItems playlistId (TracksPage.items response) index collected in
        if negb (JS.truthy_opt (TracksPage.next response)) then
          collectLoop fuel' playlistId None index' collected'
        else
          match URL_path_search (default "" (TracksPage.next response)) with
          | Some path => collectLoop fuel' playlistId (Some path) index' collected'
          | None => throw InvalidURL
          end
    end
  else mret collected.

Definition tracksPath (playlistId : string) : string :=
  "/playlists/" +:+ playlistId +:+ "/tracks?limit=100".

Definition fetchPlaylistTracks (fuel : nat) (playlist : PlaylistSummary.t)
  : M St unit :=
  emit (SetIsLoadingTracks true);;
  try_finally
    (try_catch
       (collected ← collectLoop fuel (PlaylistSummary.id playlist)
                      (Some (tracksPath (PlaylistSummary.id playlist))) 0 [];
        emit (SetTracks collected);;
        emit (SetBanner "info"
                ("Đã tải " +:+ JS.string_of_nat (length collected)
                 +:+ " bài hát từ “" +:+ PlaylistSummary.name playlist +:+ "”.")))
       (λ error, emit (UserFacingError error)))
    (emit (SetIsLoadingTracks false)).

Definition urisBody (chunk : list string) : json :=
  JObject [("uris", JArray (JString <$> chunk))].

(** [for (const chunk of chunks) { await client.post(..., { uris: chunk }) }] *)
Fixpoint postChunks (createdId : string) (chunks : list (list string)) : M St unit :=
  match chunks with
  | [] => mret tt
  | chunk :: rest =>
      client_post ("/playlists/" +:+ createdId +:+ "/tracks") (urisBody chunk);;
      postChunks createdId rest
  end.

(** [created.id] inside a template literal *)
Definition createdId (created : option json) : M St string :=
  match created with
  | None => throw TypeError
  | Some v =>
      match Auth.member v "id" with
      | None => throw TypeError
      | Some (Some (JString id)) => mret id
      | Some other => mret (String_of other)
      end
  end.

(** The body of the playlist creation request; a member whose value is
    [undefined] is left out, as [JSON.stringify] does. *)
Definition createBody (name description : string) (isPublic : bool) : json :=
  JObject ([("name", JString (String_trim name))]
           ++ (if JS.truthy (String_trim description)
               then [("description", JString (String_trim description))]
               else [])
           ++ [("public", JBool isPublic)]).

Definition handleCreatePlaylist
    (selectedPlaylist : option PlaylistSummary.t) (user : option string)
    (sorted : list TrackRow.t)
    (newPlaylistName newPlaylistDescription : string) (isPublic : bool)
  : M St unit :=
  match selectedPlaylist, user with
  | Some _, Some userId =>
      let uris := filter (λ u, JS.truthy u = true) (TrackRow.uri <$> sorted) in
      if (length uris =? 0)%nat then
        emit (SetBanner "error" "Không có bài hát hợp lệ để tạo playlist mới.")
      else if negb (JS.truthy (String_trim newPlaylistName)) then
        emit (SetBanner "error" "Vui lòng đặt tên cho playlist mới.")
      else
        emit (SetIsCreatingPlaylist true);;
        try_finally
          (try_catch
             (created ← client_post ("/users/" +:+ userId +:+ "/playlists")
                          (createBody newPlaylistName newPlaylistDescription isPublic);
              id ← createdId created;
              match chunkArray uris 100 with
              | Some chunks => postChunks id chunks
              | None => diverge
              end;;
              emit (SetBanner "success" "Playlist mới đã được tạo thành công!");;
              emit CreatePanelReset;;
              fetchPlaylists)
             (λ error, emit (UserFacingError error)))
          (emit (SetIsCreatingPlaylist false))
  | _, _ => mret tt
  end.
End Remote.

End App.

(** ** A small host, to run the definitions on concrete inputs *)

Module Reference.

Definition lowerAscii (c : ascii) : ascii :=
  let n := nat_of_ascii c in
  if ((65 <=? n) && (n <=? 90))%nat then ascii_of_nat (n + 32) else c.

Fixpoint compareBase (a b : string) : Z :=
  match a, b with
  | EmptyString, EmptyString => 0
  | EmptyString, String _ _ => -1
  | String _ _, EmptyString => 1
  | String x a', String y b' =>
      let i := Z.of_nat (nat_of_ascii (lowerAscii x)) in
      let j := Z.of_nat (nat_of_ascii (lowerAscii y)) in
      if i <? j then -1 else if j <? i then 1 else compareBase a' b'
  end.

Definition digitValue (c : ascii) : option Z :=
  let n := nat_of_ascii c in
  if ((48 <=? n) && (n <=? 57))%nat then Some (Z.of_nat (n - 48)) else None.

Fixpoint digitsFrom (acc : Z) (s : string) : num :=
  match s with
  | EmptyString => Num acc
  | String c rest =>
      match digitValue c with
      | Some d => digitsFrom (10 * acc + d) rest
      | None => NaN
      end
  end.

(** Decimal digit strings are numbers; every other string is NaN here. *)
Definition decimal (s : string) : num :=
  match s with
  | EmptyString => NaN
  | _ => digitsFrom 0 s
  end.

(** The timestamps the examples use, with their instants; every other
    string is an invalid date here. *)
Definition instants : list (string * Z) :=
  [("1970-01-01T00:00:00Z", 0);
   ("2023-11-14T22:13:20Z", 1700000000000);
   ("2024-01-01T00:00:00Z", 1704067200000)].

Fixpoint instantOf (table : list (string * Z)) (s : string) : num :=
  match table with
  | [] => NaN
  | (text, t) :: rest => if String.eqb text s then Num t else instantOf rest s
  end.

(** A parser that knows the texts of [table] and rejects the others. *)
Definition parseFrom (table : list (string * json)) (text : string) : option json :=
  Auth.lookup_prop table text.

(** Path and query of a link into the resource API. *)
Definition stripOrigin (s : string) : option string :=
  let origin := "https://api.spotify.com" in
  if String.prefix origin s
  then
    let rest := String.substring (String.length origin)
                  (String.length s - String.length origin) s in
    Some (if String.prefix "/" rest then rest else "/" +:+ rest)
  else None.

Definition quoted (s : string) : string :=
  String (ascii_of_nat 34) (s +:+ String (ascii_of_nat 34) EmptyString).

(** A serialiser for values whose strings need no escaping. *)
Fixpoint showValue (v : json) : string :=
  match v with
  | JNull => "null"
  | JBool true => "true"
  | JBool false => "false"
  | JString s => quoted s
  | JNumber NaN => "null"
  | JNumber (Num z) => NilZero.string_of_int (Z.to_int z)
  | JArray items =>
      "[" +:+ (fix elements (l : list json) : string :=
                 match l with
                 | [] => ""
                 | [x] => showValue x
                 | x :: rest => showValue x +:+ "," +:+ elements rest
                 end) items +:+ "]"
  | JObject props =>
      "{" +:+ (fix members (l : list (string * json)) : string :=
                 match l with
                 | [] => ""
                 | [(k, x)] => quoted k +:+ ":" +:+ showValue x
                 | (k, x) :: rest =>
                     quoted k +:+ ":" +:+ showValue x +:+ "," +:+ members rest
                 end) props +:+ "}"
  end.

Definition isSpace (c : ascii) : bool := (nat_of_ascii c =? 32)%nat.

Fixpoint trimStart (s : string) : string :=
  match s with
  | String c rest => if isSpace c then trimStart rest else s
  | EmptyString => EmptyString
  end.

(** Removes the spaces at both ends. *)
Definition trimSpaces (s : string) : string :=
  String.rev (trimStart (String.rev (trimStart s))).

Definition host (table : list (string * json)) : Host := {|
  localeCompare := compareBase;
  Date_getTime := instantOf instants;
  Number_of := decimal;
  JSON_parse := parseFrom table;
  URL_path_search := stripOrigin;
  JSON_stringify := showValue;
  String_trim := trimSpaces;
  String_of := λ v, from_option showValue "undefined" v;
|}.

End Reference.

(** ** Vocabulary of the statements *)

(** ** Order-theoretic vocabulary for the comparator *)

(** A comparison function that behaves as one on the elements of [P]. *)
Record Consistent {A : Type} (P : A → Prop) (c : A → A → Z) : Prop := {
  consistent_flip : ∀ a b, P a → P b → (c a b < 0 ↔ 0 < c b a);
  consistent_trans :
    ∀ a b d, P a → P b → P d → c a b <= 0 → c b d <= 0 → c a d <= 0;
}.

(** What the sort needs from the collation of the host. *)
Definition ConsistentCollation `{Host} : Prop :=
  Consistent (λ _ : string, True) localeCompare.

(** The row's [addedAt] is a timestamp the host can parse. *)
Definition validTimestamp `{Host} (r : TrackRow.t) : Prop :=
  Date_getTime (TrackRow.addedAt r) ≠ NaN.

(** The order the comparator induces once read by the sort. *)
Definition rowLe `{Host} (rules : list SortRule.t) (a b : TrackRow.t) : Prop :=
  App.SortCompare (App.comparator rules) a b <= 0.

Definition rowLt `{Host} (rules : list SortRule.t) (a b : TrackRow.t) : Prop :=
  App.SortCompare (App.comparator rules) a b < 0.

(** The rows are in the order of their [originalIndex]. *)
Definition inOriginalOrder (tracks : list TrackRow.t) : Prop :=
  StronglySorted Z.lt (TrackRow.originalIndex <$> tracks).

(** The order a comparison function induces once read by the sort. *)
Definition sortLe {A : Type} (comparefn : A → A → num) (x y : A) : Prop :=
  App.SortCompare comparefn x y <= 0.

(** A field comparison as the sort reads it. *)
Definition fieldZ `{Host} (f : SortRule.SortField) (a b : TrackRow.t) : Z :=
  App.SortCompare (App.fieldComparison f) a b.

(** *** Observations on a run of the pipeline *)

(** Token requests made before the first resource request goes out. *)
Fixpoint refreshesBeforeRequest (evs : list Event) : nat :=
  match evs with
  | [] => 0
  | ApiRequest _ _ :: _ => 0
  | TokenRequest _ :: rest => S (refreshesBeforeRequest rest)
  | _ :: rest => refreshesBeforeRequest rest
  end.

(** The first resource request of a run. *)
Fixpoint firstRequest (evs : list Event) : option (string * RequestInit.t) :=
  match evs with
  | [] => None
  | ApiRequest url init :: _ => Some (url, init)
  | _ :: rest => firstRequest rest
  end.

(** The [Authorization] header of the first resource request. *)
Definition authorizationSent (evs : list Event) : option string :=
  match firstRequest evs with
  | Some (_, init) => RequestInit.headers init !! "authorization"
  | None => None
  end.

(** The resource requests of a run, in order. *)
Fixpoint requestsSent (evs : list Event) : list (string * RequestInit.t) :=
  match evs with
  | [] => []
  | ApiRequest url init :: rest => (url, init) :: requestsSent rest
  | _ :: rest => requestsSent rest
  end.

(** The token requests of a run, in order. *)
Fixpoint tokenRequests (evs : list Event) : list (list (string * string)) :=
  match evs with
  | [] => []
  | TokenRequest form :: rest => form :: tokenRequests rest
  | _ :: rest => tokenRequests rest
  end.

(** The delays the run slept for, in order. *)
Fixpoint sleeps (evs : list Event) : list num :=
  match evs with
  | [] => []
  | Sleep ms :: rest => ms :: sleeps rest
  | _ :: rest => sleeps rest
  end.

(** [Date.now() + safetyWindow < this.tokens.expiresAt] as the client is
    about to evaluate it. *)
Definition tokenFresh (env : Env.t) (c : Client.t) : Prop :=
  Env.clock env (Browser.ticks (Client.browser c)) + 60000
  < TokenSet.expiresAt (Client.tokens c).

#[global] Instance tokenFresh_dec env c : Decision (tokenFresh env c).
Proof. unfold tokenFresh. apply _. Defined.

(** The URL [authorizedFetch] requests for [input]. *)
Definition resolveUrl (input : string) : string :=
  if String.prefix "http" input then input else Client.API_BASE +:+ input.

(** What the [onTokenRefresh] callback, when there is one, is told. *)
Definition observed (c : Client.t) (t : option TokenSet.t) : list Event :=
  if Client.onTokenRefresh c then [TokenObserved t] else [].

(** The [RequestInit] that goes out with [accessToken]. *)
Definition sentInit (accessToken : string) (init : RequestInit.t)
  : RequestInit.t :=
  Client.with_headers (Client.requestHeaders accessToken init) init.

(** The client once [fetch] has been called. *)
Definition afterSend (c : Client.t) : Client.t :=
  Client.mk (Client.tokens c) (Client.onTokenRefresh c)
    (Browser.countApiCall (Client.browser c)).


(** [v[key]] is a string. *)
Definition stringMember (v : json) (key : string) : Prop :=
  ∃ s, Auth.member v key = Some (Some (JString s)).

(** The path the track batches of playlist [createdId] are posted to. *)
Definition tracksEndpoint (createdId : string) : string :=
  "/playlists/" +:+ createdId +:+ "/tracks".

(** *** Pages delivered to the track fetch *)

(** The item is kept by the loop: it has a track whose URI is not empty. *)
Definition emitted (item : TrackItem.t) : bool :=
  match TrackItem.track item with
  | Some track => JS.truthy_opt (SpotifyTrack.uri track)
  | None => false
  end.

(** The items of the pages, page after page. *)
Definition allItems (pages : list TracksPage.t) : list TrackItem.t :=
  concat (TracksPage.items <$> pages).

(** Where a page sends the loop: [None] when [new URL] throws, [Some None]
    when the page has no next link, [Some (Some path)] otherwise. *)
Definition followNext `{Host} (page : TracksPage.t) : option (option string) :=
  if negb (JS.truthy_opt (TracksPage.next page)) then Some None
  else match URL_path_search (default "" (TracksPage.next page)) with
       | Some path => Some (Some path)
       | None => None
       end.

(** Starting at [url] in state [s], the server delivers [pages], one per
    request, each request being made at the link of the page before. *)
Inductive delivers `{Host} {St : Type} (client_get : string → M St TracksPage.t)
  : option string → St → list TracksPage.t → list Event → St → Prop :=
| delivers_end url s :
    JS.truthy_opt url = false →
    delivers client_get url s [] [] s
| delivers_page url s page ev s' url' pages ev' s'' :
    JS.truthy_opt url = true →
    client_get (default "" url) s = (Ret page, ev, s') →
    followNext page = Some url' →
    delivers client_get url' s' pages ev' s'' →
    delivers client_get url s (page :: pages) (ev ++ ev') s''.

(** ** Concrete inputs *)

Module Examples.
Definition row (name : string) (popularity index : Z) : TrackRow.t :=
  TrackRow.mk ("id-" +:+ name) ("spotify:track:" +:+ name) name "Artist"
    "Artist" "Album" (Some popularity) 180000 "2023-11-14T22:13:20Z" index.

Definition rowB : TrackRow.t := row "B" 50 0.
Definition rowA : TrackRow.t := row "A" 50 1.
Definition rowC : TrackRow.t := row "C" 90 2.

Definition byPopularityDesc : SortRule.t :=
  SortRule.mk "r1" SortRule.popularity SortRule.desc.
Definition byNameAsc : SortRule.t :=
  SortRule.mk "r2" SortRule.name SortRule.asc.
End Examples.

Module PipelineExamples.
Definition tokens (accessToken : string) (expiresAt : Z) : TokenSet.t :=
  TokenSet.mk accessToken "refresh-0" expiresAt "playlist-read-private".

Definition browser : Browser.t := Browser.mk ∅ ∅ 0 0 0.

Definition client (accessToken : string) (expiresAt : Z) : Client.t :=
  Client.mk (tokens accessToken expiresAt) true browser.

Definition reply (accessToken : string) (refreshToken : option string)
  : TokenReply :=
  TokenOk (Some (TokenEndpointResponse.mk accessToken refreshToken 3600
                   "playlist-read-private")).

Definition response (status : Z) (headers : gmap string string) : Response.t :=
  Response.mk status "" headers (Some (JObject [])).

(** A provider whose clock stands at 1000 ms, whose token endpoint hands
    out ["access-1"] without a new refresh token, and whose resource API
    answers with the statuses of [script] and then with 200. *)
Definition env (script : list Response.t) : Env.t :=
  Env.mk (Some "client-id") (Some "https://app.test/callback")
    (λ _, 1000)
    (λ _, Some (reply "access-1" None))
    (λ k, Some (default (response 200 ∅) (script !! k))).

Definition init : RequestInit.t := RequestInit.mk None ∅ None.
End PipelineExamples.

Module RateLimitExamples.
(** A server that answers every request with 429 and [Retry-After: 1]. *)
Definition busy : Env.t :=
  Env.mk (Some "client-id") (Some "https://app.test/callback")
    (λ _, 1000)
    (λ _, Some (PipelineExamples.reply "access-1" None))
    (λ _, Some (PipelineExamples.response 429 {["retry-after" := "1"]})).
End RateLimitExamples.

Module RetryAfterExamples.
Definition httpDate : string := "Wed, 21 Oct 2015 07:28:00 GMT".

Definition limited (retryAfter : option string) : Response.t :=
  PipelineExamples.response 429
    (match retryAfter with
     | Some h => {["retry-after" := h]}
     | None => ∅
     end).

Definition run (retryAfter : option string)
  : outcome Response.t * list Event * Client.t :=
  Client.authorizedFetch (H := Reference.host [])
    (PipelineExamples.env [limited retryAfter]) 2 "/me"
    PipelineExamples.init 0 (PipelineExamples.client "access-0" 3600000).
End RetryAfterExamples.

Module LoginExamples.
(** A browser in the middle of a login: state and verifier are stored. *)
Definition pending : Browser.t :=
  Browser.mk ∅
    (<[Auth.STATE_KEY := "state-1"]>
       (<[Auth.CODE_VERIFIER_KEY := "verifier-1"]> ∅))
    0 0 0.

Definition provider (answer : TokenReply) : Env.t :=
  Env.mk (Some "client-id") (Some "https://app.test/callback")
    (λ _, 1000) (λ _, Some answer)
    (λ _, Some (PipelineExamples.response 200 ∅)).

Definition granting : Env.t :=
  provider (PipelineExamples.reply "access-1" (Some "refresh-1")).

Definition refusing : Env.t :=
  provider (TokenNotOk 400 (Some (Some "invalid_grant"))).
End LoginExamples.

Module StorageExamples.
Definition goodText : string := "{accessToken:a,refreshToken:r}".
Definition good : json :=
  JObject [("accessToken", JString "a"); ("refreshToken", JString "r");
           ("expiresAt", JNumber (Num 5)); ("scope", JString "s")].
(** A record whose refresh token is a number. *)
Definition oddText : string := "{accessToken:a,refreshToken:7}".
Definition odd : json :=
  JObject [("accessToken", JString "a"); ("refreshToken", JNumber (Num 7))].

Definition table : list (string * json) :=
  [(goodText, good); (oddText, odd); ("null", JNull)].

Definition holding (text : string) : Browser.t :=
  Browser.mk {[Auth.TOKEN_STORAGE_KEY := text]} ∅ 0 0 0.
End StorageExamples.

Module WriterExamples.


Definition rows (n : nat) : list TrackRow.t :=
  (λ k, Examples.row (JS.string_of_nat k) 50 (Z.of_nat k)) <$> seq 0 n.

Definition uris (n : nat) : list string := TrackRow.uri <$> rows n.


Definition playlist : PlaylistSummary.t :=
  PlaylistSummary.mk "source" "Source" None 250 None None.

End WriterExamples.



Module FetchExamples.
Definition track (uri : option string) (name : string) : SpotifyTrack.t :=
  SpotifyTrack.mk (Some ("id-" +:+ name)) uri name (Some 10) (Some 200000)
    (Some ["Artist"]) (Some "Album").

Definition item (uri : option string) (name : string) : TrackItem.t :=
  TrackItem.mk "2023-11-14T22:13:20Z" (Some (track uri name)).

(** A removed track: the provider sends [null]. *)
Definition removed : TrackItem.t := TrackItem.mk "2023-11-14T22:13:20Z" None.

Definition secondLink : string :=
  "https://api.spotify.com/playlists/p1/tracks?offset=4".

Definition page1 : TracksPage.t :=
  TracksPage.mk [item (Some "u1") "A"; removed; item (Some "") "X";
                 item None "Y"; item (Some "u2") "B"]
    (Some secondLink).

Definition page2 : TracksPage.t :=
  TracksPage.mk [removed; item (Some "u3") "C"] None.

(** A server with these two pages; the state counts the requests. *)
Definition server (url : string) : M nat TracksPage.t := λ n,
  if String.eqb url (App.tracksPath "p1") then (Ret page1, [], S n)
  else if String.eqb url "/playlists/p1/tracks?offset=4"
       then (Ret page2, [], S n)
       else (Throw (ApiError 404 "Not Found"), [], S n).

Definition playlist : PlaylistSummary.t :=
  PlaylistSummary.mk "p1" "Mix" None 7 None None.

Definition rows : list TrackRow.t :=
  (App.collectItems "p1" (allItems [page1; page2]) 0 []).2.
End FetchExamples.

(** ** More of the sources: login initiation, input parsing, rule editing *)

(** Builtins of the browser used at login initiation. *)
Class Crypto : Type := {
  (** the bytes of [crypto.subtle.digest('SHA-256', ...)] of the UTF-8
      encoding of a string *)
  sha256 : string → list nat;
  (** [btoa] applied to the binary string made of the bytes *)
  btoa : list nat → string;
}.

(** [src/lib/spotifyAuth.ts]: [generateRandomString], [base64UrlEncode],
    [createCodeChallenge] and [startSpotifyLogin]. The random bytes that
    [crypto.getRandomValues] writes are given by an entropy function: byte
    [i] of the array is [entropy i]. *)
Module Login.

Definition base62 : string :=
  "ABCDEFGHIJKLMNOPQRSTUVWXYZabcdefghijklmnopqrstuvwxyz0123456789".

(** [base62[x % base62.length]] *)
Definition base62At (x : nat) : ascii :=
  default "A"%char (String.get (x mod String.length base62) base62).

Definition generateRandomString (entropy : nat → nat) (length : nat) : string :=
  String.string_of_list_ascii ((λ i, base62At (entropy i)) <$> seq 0 length).

(** [s.replace(/c/g, d)] for a single character [c] *)
Fixpoint replaceChar (c d : ascii) (s : string) : string :=
  match s with
  | EmptyString => EmptyString
  | String x rest =>
      String (if Ascii.eqb x c then d else x) (replaceChar c d rest)
  end.

(** [s.replace(/c+$/, '')] for a single character [c] *)
Fixpoint stripTrailing (c : ascii) (s : string) : string :=
  match s with
  | EmptyString => EmptyString
  | String x rest =>
      match stripTrailing c rest with
      | EmptyString => if Ascii.eqb x c then EmptyString else String x EmptyString
      | kept => String x kept
      end
  end.

Definition base64UrlEncode `{Crypto} (buffer : list nat) : string :=
  stripTrailing "="%char
    (replaceChar "/"%char "_"%char (replaceChar "+"%char "-"%char (btoa buffer))).

Definition createCodeChallenge `{Crypto} (codeVerifier : string) : string :=
  base64UrlEncode (sha256 codeVerifier).

Definition DEFAULT_SCOPES : string :=
  "playlist-read-private playlist-read-collaborative playlist-modify-private playlist-modify-public user-read-email".

(** [startSpotifyLogin]; the value returned is the list of search
    parameters of the URL given to [window.location.assign]. [scopes] is
    [VITE_SPOTIFY_SCOPES]. *)
Definition startSpotifyLogin `{Crypto} (env : Env.t) (scopes : option string)
    (stateEntropy verifierEntropy : nat → nat)
  : M Browser.t (list (string * string)) :=
  clientId ← Auth.assertEnv "VITE_SPOTIFY_CLIENT_ID" (Env.CLIENT_ID env);
  redirectUri ← Auth.assertEnv "VITE_SPOTIFY_REDIRECT_URI" (Env.REDIRECT_URI env);
  let state := generateRandomString stateEntropy 64 in
  let codeVerifier := generateRandomString verifierEntropy 128 in
  let codeChallenge := createCodeChallenge codeVerifier in
  modify (Browser.with_sessionStorage (<[Auth.CODE_VERIFIER_KEY := codeVerifier]>));;
  modify (Browser.with_sessionStorage (<[Auth.STATE_KEY := state]>));;
  mret [("response_type", "code");
        ("client_id", clientId);
        ("redirect_uri", redirectUri);
        ("scope", default DEFAULT_SCOPES scopes);
        ("state", state);
        ("code_challenge_method", "S256");
        ("code_challenge", codeChallenge)].

End Login.

(** [src/App.tsx]: [extractPlaylistId]. The three regular expressions are
    written out: a literal followed by the longest run of word characters
    (at least one), searched from the left; and a whole-string test. *)
Module PlaylistInput.

Definition inRange (lo hi : nat) (c : ascii) : bool :=
  ((lo <=? nat_of_ascii c) && (nat_of_ascii c <=? hi))%nat.

(** [[A-Za-z0-9]] *)
Definition isAlnum (c : ascii) : bool :=
  inRange 48 57 c || inRange 65 90 c || inRange 97 122 c.

(** [\w] *)
Definition isWordChar (c : ascii) : bool :=
  isAlnum c || (nat_of_ascii c =? 95)%nat.

(** The longest prefix made of word characters: what [(\w+)] captures. *)
Fixpoint wordPrefix (s : string) : string :=
  match s with
  | String c rest => if isWordChar c then String c (wordPrefix rest) else EmptyString
  | EmptyString => EmptyString
  end.

Fixpoint dropChars (n : nat) (s : string) : string :=
  match n, s with
  | S n', String _ rest => dropChars n' rest
  | _, _ => s
  end.

(** [literal(\w+)] matched at the start of [s] *)
Definition matchHere (literal s : string) : option string :=
  if String.prefix literal s then
    let word := wordPrefix (dropChars (String.length literal) s) in
    if JS.truthy word then Some word else None
  else None.

(** [s.match(/literal(\w+)/)]: the capture of the leftmost match *)
Fixpoint matchCapture (literal s : string) : option string :=
  match matchHere literal s with
  | Some word => Some word
  | None =>
      match s with
      | EmptyString => None
      | String _ rest => matchCapture literal rest
      end
  end.

Fixpoint allChars (p : ascii → bool) (s : string) : bool :=
  match s with
  | EmptyString => true
  | String c rest => p c && allChars p rest
  end.

(** [/^[A-Za-z0-9]{16,}$/.test(s)] *)
Definition isBareId (s : string) : bool :=
  (16 <=? String.length s)%nat && allChars isAlnum s.

Definition extractPlaylistId `{Host} (raw : string) : option string :=
  let trimmed := String_trim raw in
  if negb (JS.truthy trimmed) then None
  else
    match matchCapture "playlist/" trimmed with
    | Some id => Some id
    | None =>
        match matchCapture "spotify:playlist:" trimmed with
        | Some id => Some id
        | None => if isBareId trimmed then Some trimmed else None
        end
    end.

(** The updater given to [setPlaylists] in [handlePlaylistSubmit]. *)
Definition addPlaylist (summary : PlaylistSummary.t)
    (current : list PlaylistSummary.t) : list PlaylistSummary.t :=
  if existsb (λ item, String.eqb (PlaylistSummary.id item)
                        (PlaylistSummary.id summary)) current
  then current
  else summary :: current.

End PlaylistInput.

(** [src/App.tsx]: the sort rules and their editing
    ([availableFields], [toggleSortField], [updateSortRule],
    [removeSortRule]). The identifier [createStableId] draws is an argument;
    the rules an updater receives are those of the render that installed
    the handler. *)
Module Rules.

#[global] Instance SortField_eq_dec : EqDecision SortRule.SortField.
Proof. solve_decision. Defined.

(** [Object.keys(sortFieldOptions)] *)
Definition fieldKeys : list SortRule.SortField :=
  [SortRule.name; SortRule.mainArtist; SortRule.album; SortRule.addedAt;
   SortRule.popularity; SortRule.durationMs].

Definition activeSortFields (sortRules : list SortRule.t)
  : list SortRule.SortField :=
  SortRule.field <$> sortRules.

Definition availableFields (sortRules : list SortRule.t)
  : list SortRule.SortField :=
  filter (λ field, field ∉ activeSortFields sortRules) fieldKeys.

Definition toggleSortField (newId : string) (sortRules : list SortRule.t)
  : list SortRule.t :=
  match availableFields sortRules with
  | [] => sortRules
  | field :: _ => sortRules ++ [SortRule.mk newId field SortRule.asc]
  end.

(** [Partial<SortRule>] *)
Record Patch : Type := mkPatch {
  patchId : option string;
  patchField : option SortRule.SortField;
  patchDirection : option SortRule.Direction;
}.

(** [{ ...rule, ...patch, id: rule.id }] *)
Definition applyPatch (patch : Patch) (rule : SortRule.t) : SortRule.t :=
  SortRule.mk (SortRule.id rule)
    (default (SortRule.field rule) (patchField patch))
    (default (SortRule.direction rule) (patchDirection patch)).

Definition updateSortRule (id : string) (patch : Patch)
    (current : list SortRule.t) : list SortRule.t :=
  (λ rule, if String.eqb (SortRule.id rule) id then applyPatch patch rule
           else rule) <$> current.

Definition removeSortRule (id : string) (current : list SortRule.t)
  : list SortRule.t :=
  filter (λ rule, SortRule.id rule ≠ id) current.

(** The option of field [field] in the select of [rule] is enabled. *)
Definition optionEnabled (sortRules : list SortRule.t) (rule : SortRule.t)
    (field : SortRule.SortField) : Prop :=
  field = SortRule.field rule ∨ field ∉ activeSortFields sortRules.

End Rules.

(** [src/lib/formatters.ts]: [formatDuration]. [format] is
    [durationFormatter.format] (an [Intl.NumberFormat] with at least two
    integer digits). *)
Module Formatters.

(** [totalSeconds], [minutes] and [seconds] of [formatDuration]. *)
Definition durationParts (durationMs : Z) : Z * Z :=
  let totalSeconds := durationMs / 1000 in
  let minutes := totalSeconds / 60 in
  let seconds := Z.rem totalSeconds 60 in
  (minutes, seconds).

Definition formatDuration (format : Z → string) (durationMs : Z) : string :=
  let '(minutes, seconds) := durationParts durationMs in
  NilZero.string_of_int (Z.to_int minutes) +:+ ":" +:+ format seconds.

End Formatters.

(** *** Vocabulary for the added statements *)

(** The last character of a string. *)
Fixpoint lastChar (s : string) : option ascii :=
  match s with
  | EmptyString => None
  | String c EmptyString => Some c
  | String _ rest => lastChar rest
  end.

(** The characters of the base64 alphabet, the padding character apart. *)
Definition isBase64Char (c : ascii) : bool :=
  PlaylistInput.isAlnum c
  || (nat_of_ascii c =? 43)%nat || (nat_of_ascii c =? 47)%nat.

(** [c] is none of [+], [/] and [=]. *)
Definition notBase64Special (c : ascii) : bool :=
  negb (Ascii.eqb c "+"%char) && negb (Ascii.eqb c "/"%char).

(** The characters of the URL-safe base64 alphabet, without padding. *)
Definition isUrlSafeChar (c : ascii) : bool :=
  PlaylistInput.isAlnum c
  || (nat_of_ascii c =? 45)%nat || (nat_of_ascii c =? 95)%nat.

(** [client.post(path, body)] as [handleCreatePlaylist] calls it. *)
Definition clientPost `{Host} (env : Env.t) (fuel : nat) (path : string)
    (body : json) : M Client.t (option json) :=
  Client.post env fuel path (inl body) (RequestInit.mk None ∅ None).

(** The client after a call that made one [Date.now()] and one request. *)
Definition afterCall (c : Client.t) : Client.t :=
  Client.mk (Client.tokens c) (Client.onTokenRefresh c)
    (Browser.countApiCall (Browser.tick (Client.browser c))).

(** The body of a response as [response.json()] delivers it. *)
Definition bodyOf (r : Response.t) : outcome json :=
  match Response.json_body r with
  | Some v => Ret v
  | None => Throw BodyRejected
  end.

(** The request [authorizedFetch] sends for [input] and [init] when the
    access token is [accessToken]. *)
Definition requestOf (accessToken input : string) (init : RequestInit.t)
  : Event :=
  ApiRequest (resolveUrl input) (sentInit accessToken init).

(** The form [completeAuthorization] posts to the token endpoint. *)
Definition exchangeForm (code redirectUri clientId verifier : string)
  : list (string * string) :=
  [("grant_type", "authorization_code"); ("code", code);
   ("redirect_uri", redirectUri); ("client_id", clientId);
   ("code_verifier", verifier)].

(** *** Concrete inputs for the added statements *)

Module LoginInputs.
(** A host of the login builtins: the digest is the list of character
    codes, [btoa] returns a fixed base64 text. *)
Definition crypto : Crypto := {|
  sha256 := λ s, nat_of_ascii <$> String.list_ascii_of_string s;
  btoa := λ _, "ab+/cd==";
|}.

Definition stateEntropy (i : nat) : nat := (7 * i + 3)%nat.
Definition verifierEntropy (i : nat) : nat := (11 * i + 200)%nat.

Definition fresh : Browser.t := Browser.mk ∅ ∅ 0 0 0.
End LoginInputs.

Module RuleInputs.
(** The initial rules of the application. *)
Definition rules : list SortRule.t :=
  [SortRule.mk "r1" SortRule.addedAt SortRule.desc;
   SortRule.mk "r2" SortRule.popularity SortRule.desc].
End RuleInputs.

(** The patch of the field select: [{ field }]. *)
Definition fieldPatch (field : SortRule.SortField) : Rules.Patch :=
  Rules.mkPatch None (Some field) None.

(** The patch of the direction select: [{ direction }]. *)
Definition directionPatch (direction : SortRule.Direction) : Rules.Patch :=
  Rules.mkPatch None None (Some direction).

Module ClientInputs.
(** A provider that answers every resource request with [r]. *)
Definition steady (r : Response.t) : Env.t :=
  Env.mk (Some "client-id") (Some "https://app.test/callback")
    (λ _, 1000)
    (λ _, Some (PipelineExamples.reply "access-1" None))
    (λ _, Some r).

Definition created : Response.t :=
  Response.mk 201 "Created" ∅ (Some (JObject [("id", JString "new")])).

Definition client : Client.t := PipelineExamples.client "access-0" 3600000.
End ClientInputs.

Module RoundTripInputs.
Definition tokens : TokenSet.t := PipelineExamples.tokens "access-0" 3600000.
Definition text : string := Reference.showValue (Auth.tokenSet_json tokens).
Definition table : list (string * json) := [(text, Auth.tokenSet_json tokens)].
End RoundTripInputs.

Module ConfigInputs.
(** A build without [VITE_SPOTIFY_CLIENT_ID]. *)
Definition unconfigured : Env.t :=
  Env.mk None (Some "https://app.test/callback") (λ _, 1000)
    (λ _, Some (PipelineExamples.reply "access-1" None))
    (λ _, Some (PipelineExamples.response 200 ∅)).

(** A provider that cannot be reached. *)
Definition offline : Env.t :=
  Env.mk (Some "client-id") (Some "https://app.test/callback") (λ _, 1000)
    (λ _, None) (λ _, None).
End ConfigInputs.

Module RetryInputs.
(** A provider that answers 429, then 401, then 200. *)
Definition limitedThenDenied : Env.t :=
  PipelineExamples.env [PipelineExamples.response 429 ∅;
                        PipelineExamples.response 401 ∅].

End RetryInputs.

(** A run of word characters ends where [rest] begins. *)
Definition wordEnds (rest : string) : bool :=
  match rest with
  | EmptyString => true
  | String c _ => negb (PlaylistInput.isWordChar c)
  end.

Module PlaylistInputs.
Definition id : string := "37i9dQZF1DXcBWIGoYBM5M".
Definition rest : string := "?si=0a1b2c".
End PlaylistInputs.

(** The URIs [handleCreatePlaylist] writes: those of the rows, the empty
    ones left out. *)
Definition validUris (sorted : list TrackRow.t) : list string :=
  filter (λ u, JS.truthy u = true) (TrackRow.uri <$> sorted).

(** The path the new playlist of user [userId] is posted to. *)
Definition playlistsEndpoint (userId : string) : string :=
  "/users/" +:+ userId +:+ "/playlists".

(** The request that goes out for [post(path, body)] with the access token
    [accessToken]. *)
Definition postEvent `{Host} (accessToken path : string) (body : json) : Event :=
  requestOf accessToken path
    (Client.finalInit "POST" (inl body) (RequestInit.mk None ∅ None)).

(** An answer [post] accepts: a status in 200..299, and a body that can be
    read unless the status is 204. *)
Definition answersWell (r : Response.t) : Prop :=
  Response.ok r = true
  ∧ (Response.status r = 204 ∨ Response.json_body r ≠ None).

Module CreateInputs.
(** Three rows and the playlist they come from. *)
Definition rows : list TrackRow.t := WriterExamples.rows 3.
Definition env : Env.t := ClientInputs.steady ClientInputs.created.
End CreateInputs.

Module PlaylistInputsList.
Definition mix : PlaylistSummary.t :=
  PlaylistSummary.mk "p1" "Mix" None 7 None None.
(** The same playlist, renamed since it was listed. *)
Definition renamed : PlaylistSummary.t :=
  PlaylistSummary.mk "p1" "Mix (2024)" None 9 None None.
Definition other : PlaylistSummary.t :=
  PlaylistSummary.mk "p2" "Other" None 3 None None.
End PlaylistInputsList.

Module SortInputs.
(** A row whose [added_at] is not a date. *)
Definition undated : TrackRow.t :=
  TrackRow.mk "id-U" "spotify:track:U" "U" "Artist" "Artist" "Album"
    (Some 10) 180000 "" 3.
End SortInputs.

(** [client.get<SpotifyPlaylistTracksResponse>(url)]: the type argument is
    a cast of the parsed body; [decode] is the page the loop reads in it. *)
Definition getPage `{Host} (env : Env.t) (fuel : nat)
    (decode : json → TracksPage.t) (url : string) : M Client.t TracksPage.t :=
  value ← Client.get env fuel url (RequestInit.mk None ∅ None);
  mret (decode value).

(** The URLs of the resource requests of a run, in order. *)
Definition requestedUrls (evs : list Event) : list string :=
  fst <$> requestsSent evs.

Module PagingInputs.
(** A next link as the provider sends it, under the base of the API. *)
Definition link : string :=
  "https://api.spotify.com/v1/playlists/p1/tracks?offset=100&limit=100".

Definition firstPage : json := JObject [("next", JString link)].

(** Reads the [next] member; the items are left out. *)
Definition decode (v : json) : TracksPage.t :=
  TracksPage.mk []
    (match Auth.member v "next" with
     | Some (Some (JString next)) => Some next
     | _ => None
     end).

Definition env : Env.t :=
  ClientInputs.steady (Response.mk 200 "OK" ∅ (Some firstPage)).

(** A token endpoint that grants tokens living 30 seconds. *)
Definition shortLived : Env.t :=
  Env.mk (Some "client-id") (Some "https://app.test/callback") (λ _, 1000)
    (λ _, Some (TokenOk (Some (TokenEndpointResponse.mk "access-1" None 30
                                 "playlist-read-private"))))
    (λ _, Some (PipelineExamples.response 200 ∅)).
End PagingInputs.

(** [src/App.tsx]: [handleTokenChange], the effect of [AuthCallback] and
    the handler of its retry button. The React state ([setTokenSet],
    [setStatus], [setMessage], [navigate]) is what the effect returns. *)
Module Callback.

(** What the callback page ends up showing. *)
Inductive Shown : Type :=
| AccessDenied
| MissingCode
| LoginError (e : Error)
| SignedIn (tokenSet : TokenSet.t).

Definition handleTokenChange (tokens : option TokenSet.t) : M Browser.t unit :=
  match tokens with
  | None => Auth.clearStoredAuth
  | Some _ => mret tt
  end.

(** The effect; [error], [code] and [state] are [params.get(...)]. *)
Definition authCallback `{Host} (env : Env.t) (error code state : option string)
  : M Browser.t Shown :=
  if JS.truthy_opt error then mret AccessDenied
  else if negb (JS.truthy_opt code) || negb (JS.truthy_opt state)
  then mret MissingCode
  else
    try_catch
      (tokenSet ← Auth.completeAuthorization env (default "" code)
                    (default "" state);
       handleTokenChange (Some tokenSet);;
       mret (SignedIn tokenSet))
      (λ e, mret (LoginError e)).

(** [onClick] of the retry button: [onSuccess(null); startSpotifyLogin()]. *)
Definition retry `{Crypto} (env : Env.t) (scopes : option string)
    (stateEntropy verifierEntropy : nat → nat)
  : M Browser.t (list (string * string)) :=
  handleTokenChange None;;
  Login.startSpotifyLogin env scopes stateEntropy verifierEntropy.

End Callback.

Module CallbackInputs.
(** A browser that holds a token record of an earlier session and the
    pending values of a login. *)
Definition stale : Browser.t :=
  Browser.mk {[Auth.TOKEN_STORAGE_KEY := "old-record"]}
    (<[Auth.STATE_KEY := "state-1"]>
       (<[Auth.CODE_VERIFIER_KEY := "verifier-1"]> ∅))
    0 0 0.
End CallbackInputs.

(** What is observed of a request: its address, method, body and
    [Authorization] header. *)
Definition requestView (request : string * RequestInit.t)
  : string * option string * option Body * option string :=
  (request.1, RequestInit.method request.2, RequestInit.body request.2,
   RequestInit.headers request.2 !! "authorization").

(** Starting at [url] in state [s], the loop over the pages has received
    [pages], one per request, and now stands at [url'] in state [s']. *)
Inductive reaches `{Host} {St : Type} (client_get : string → M St TracksPage.t)
  : option string → St → list TracksPage.t → list Event
    → option string → St → Prop :=
| reaches_start url s : reaches client_get url s [] [] url s
| reaches_page url s page ev s' url' pages ev' url'' s'' :
    JS.truthy_opt url = true →
    client_get (default "" url) s = (Ret page, ev, s') →
    followNext page = Some url' →
    reaches client_get url' s' pages ev' url'' s'' →
    reaches client_get url s (page :: pages) (ev ++ ev') url'' s''.

Module FailingFetch.
(** A server that delivers the first page and fails afterwards. *)
Definition server (url : string) : M nat TracksPage.t := λ n,
  if String.eqb url "/playlists/p1/tracks?limit=100"
  then (Ret FetchExamples.page1, [], S n)
  else (Throw (ApiError 500 "Internal Server Error"), [], S n).
End FailingFetch.

(** * Properties *)

(** ** The multi-criterion sort *)

Section ConsistentFacts.
Context {A : Type} (P : A → Prop).

Lemma Consistent_zero (c : A → A → Z) a b :
  Consistent P c → P a → P b → c a b = 0 → c b a = 0.
Proof.
  intros [Hf _] Ha Hb E.
  pose proof (Hf a b Ha Hb). pose proof (Hf b a Hb Ha). lia.
Qed.

Lemma Consistent_scale (c : A → A → Z) (d : Z) :
  d = 1 ∨ d = -1 → Consistent P c → Consistent P (λ a b, c a b * d).
Proof.
  intros Hd [Hf Ht]. split.
  - intros a b Ha Hb.
    pose proof (Hf a b Ha Hb). pose proof (Hf b a Hb Ha).
    destruct Hd; subst d; lia.
  - intros a b e Ha Hb He.
    destruct Hd; subst d.
    + pose proof (Ht a b e Ha Hb He). lia.
    + pose proof (Ht e b a He Hb Ha).
      pose proof (Hf a b Ha Hb). pose proof (Hf b a Hb Ha).
      pose proof (Hf b e Hb He). pose proof (Hf e b He Hb).
      pose proof (Hf a e Ha He). pose proof (Hf e a He Ha).
      lia.
Qed.

(** First the primary key, then the secondary one. *)
Lemma Consistent_lex (c1 c2 : A → A → Z) :
  Consistent P c1 → Consistent P c2 →
  Consistent P (λ a b, if c1 a b =? 0 then c2 a b else c1 a b).
Proof.
  intros [Hf1 Ht1] [Hf2 Ht2]. split.
  - intros a b Ha Hb.
    pose proof (Hf1 a b Ha Hb). pose proof (Hf1 b a Hb Ha).
    pose proof (Hf2 a b Ha Hb).
    destruct (Z.eqb_spec (c1 a b) 0), (Z.eqb_spec (c1 b a) 0); lia.
  - intros a b e Ha Hb He.
    pose proof (Hf1 a b Ha Hb). pose proof (Hf1 b a Hb Ha).
    pose proof (Hf1 b e Hb He). pose proof (Hf1 e b He Hb).
    pose proof (Hf1 a e Ha He). pose proof (Hf1 e a He Ha).
    pose proof (Ht1 a b e Ha Hb He). pose proof (Ht1 e a b He Ha Hb).
    pose proof (Ht1 b e a Hb He Ha). pose proof (Ht1 e b a He Hb Ha).
    pose proof (Ht1 b a e Hb Ha He). pose proof (Ht1 a e b Ha He Hb).
    pose proof (Ht2 a b e Ha Hb He).
    destruct (Z.eqb_spec (c1 a b) 0), (Z.eqb_spec (c1 b e) 0),
      (Z.eqb_spec (c1 a e) 0); lia.
Qed.

(** Comparing a numeric key by difference. *)
Lemma Consistent_key (key : A → Z) : Consistent P (λ a b, key a - key b).
Proof. split; intros; lia. Qed.

Lemma Consistent_ext (c c' : A → A → Z) :
  (∀ a b, P a → P b → c a b = c' a b) → Consistent P c → Consistent P c'.
Proof.
  intros E [Hf Ht]. split.
  - intros a b Ha Hb. rewrite <- !E by done. by apply Hf.
  - intros a b d Ha Hb Hd. rewrite <- !E by done. by apply Ht.
Qed.
End ConsistentFacts.

Section ComparatorFacts.
Context `{Host}.
Import App.

Lemma Consistent_pullback {A B : Type} (P : A → Prop) (Q : B → Prop)
    (key : A → B) (c : B → B → Z) :
  (∀ a, P a → Q (key a)) → Consistent Q c →
  Consistent P (λ a b, c (key a) (key b)).
Proof.
  intros HPQ [Hf Ht]. split.
  - intros a b Ha Hb. apply Hf; auto.
  - intros a b d Ha Hb Hd. apply Ht; auto.
Qed.

Lemma validTimestamp_Num r :
  validTimestamp r → ∃ t, Date_getTime (TrackRow.addedAt r) = Num t.
Proof.
  unfold validTimestamp. destruct (Date_getTime _) as [|t]; [done|eauto].
Qed.

Lemma fieldComparison_Num f a b :
  validTimestamp a → validTimestamp b →
  fieldComparison f a b = Num (fieldZ f a b).
Proof.
  intros [ta Ha]%validTimestamp_Num [tb Hb]%validTimestamp_Num.
  unfold fieldZ, SortCompare.
  destruct f; simpl; unfold compareDates; rewrite ?Ha, ?Hb; done.
Qed.

Lemma fieldZ_Consistent f :
  ConsistentCollation → Consistent validTimestamp (fieldZ f).
Proof.
  intros Hc. unfold fieldZ, SortCompare.
  destruct f; simpl.
  - by apply (Consistent_pullback _ (λ _, True) TrackRow.name localeCompare).
  - by apply (Consistent_pullback _ (λ _, True) TrackRow.mainArtist localeCompare).
  - by apply (Consistent_pullback _ (λ _, True) TrackRow.album localeCompare).
  - eapply Consistent_ext;
      [|apply (Consistent_key _
                 (λ r, SortCompare (λ x _, Date_getTime (TrackRow.addedAt x)) r r))].
    intros a b [ta Ha]%validTimestamp_Num [tb Hb]%validTimestamp_Num.
    unfold SortCompare, compareDates. rewrite Ha, Hb. done.
  - apply (Consistent_key _ (λ r, default 0 (TrackRow.popularity r))).
  - apply (Consistent_key _ TrackRow.durationMs).
Qed.

(** On rows with valid timestamps the comparator is the lexicographic
    combination of the scaled keys, closed by the original index. *)
Lemma SortCompare_comparator_cons rule rest a b :
  validTimestamp a → validTimestamp b →
  SortCompare (comparator (rule :: rest)) a b =
    if fieldZ (SortRule.field rule) a b
         * directionSign (SortRule.direction rule) =? 0
    then SortCompare (comparator rest) a b
    else fieldZ (SortRule.field rule) a b
         * directionSign (SortRule.direction rule).
Proof.
  intros Ha Hb. unfold SortCompare at 1. simpl.
  rewrite (fieldComparison_Num _ a b Ha Hb). simpl.
  pose proof (Z.eqb_spec (fieldZ (SortRule.field rule) a b) 0) as E1.
  destruct (SortRule.direction rule); simpl;
    destruct E1 as [E1|E1]; simpl.
  - rewrite E1. done.
  - destruct (Z.eqb_spec (fieldZ (SortRule.field rule) a b * 1) 0); [lia|done].
  - rewrite E1. done.
  - destruct (Z.eqb_spec (fieldZ (SortRule.field rule) a b * -1) 0); [lia|done].
Qed.

Lemma directionSign_unit d : directionSign d = 1 ∨ directionSign d = -1.
Proof. destruct d; auto. Qed.

Lemma comparator_Consistent rules :
  ConsistentCollation →
  Consistent validTimestamp (SortCompare (comparator rules)).
Proof.
  intros Hc. induction rules as [|rule rest IH].
  - apply (Consistent_key _ TrackRow.originalIndex).
  - eapply Consistent_ext;
      [|apply (Consistent_lex _ _ _
                 (Consistent_scale _ _ _
                    (directionSign_unit (SortRule.direction rule))
                    (fieldZ_Consistent (SortRule.field rule) Hc)) IH)].
    intros a b Ha Hb. cbv beta. by rewrite SortCompare_comparator_cons.
Qed.

(** Only rows with the same original index compare as equal. *)
Lemma comparator_zero_index rules a b :
  validTimestamp a → validTimestamp b →
  SortCompare (comparator rules) a b = 0 →
  TrackRow.originalIndex a = TrackRow.originalIndex b.
Proof.
  intros Ha Hb. induction rules as [|rule rest IH].
  - unfold SortCompare. simpl. lia.
  - rewrite SortCompare_comparator_cons by done.
    destruct (Z.eqb_spec
                (fieldZ (SortRule.field rule) a b
                 * directionSign (SortRule.direction rule)) 0); [done|lia].
Qed.

(** The first rule whose field comparison is not zero decides. *)
Lemma comparator_first_nonzero pre rule post a b :
  Forall (λ r, fieldComparison (SortRule.field r) a b = Num 0) pre →
  JS.strict_ne_zero (fieldComparison (SortRule.field rule) a b) = true →
  comparator (pre ++ rule :: post) a b =
    JS.mul (fieldComparison (SortRule.field rule) a b)
           (Num (directionSign (SortRule.direction rule))).
Proof.
  intros Hpre Hne. induction Hpre as [|r pre Hr _ IH]; simpl.
  - by rewrite Hne.
  - rewrite Hr. simpl. exact IH.
Qed.

(** When every rule ties, the original index decides. *)
Lemma comparator_all_tie rules a b :
  Forall (λ r, fieldComparison (SortRule.field r) a b = Num 0) rules →
  comparator rules a b =
    Num (TrackRow.originalIndex a - TrackRow.originalIndex b).
Proof.
  induction 1 as [|r rules Hr _ IH]; simpl; [done|].
  rewrite Hr. simpl. exact IH.
Qed.
End ComparatorFacts.

Section ArraySortFacts.
Context {A : Type} (comparefn : A → A → num) (P : A → Prop).
Import App.

Lemma sort_insert_Permutation x l : sort_insert comparefn x l ≡ₚ x :: l.
Proof.
  induction l as [|y l IH]; simpl; [done|].
  destruct (SortCompare comparefn x y <=? 0); [done|].
  rewrite IH. apply Permutation_swap.
Qed.

Lemma Array_sort_Permutation l : Array_sort comparefn l ≡ₚ l.
Proof.
  induction l as [|x l IH]; simpl; [done|].
  rewrite sort_insert_Permutation. by rewrite IH.
Qed.

Lemma sort_insert_sorted x l :
  Consistent P (SortCompare comparefn) →
  P x → Forall P l →
  StronglySorted (sortLe comparefn) l → StronglySorted (sortLe comparefn) (sort_insert comparefn x l).
Proof.
  intros [Hflip Htrans] Hx HP Hl.
  induction Hl as [|y l Hl IH Hy]; simpl.
  - repeat constructor.
  - apply Forall_cons in HP as [Py Pl].
    destruct (Z.leb_spec (SortCompare comparefn x y) 0) as [Hxy|Hxy].
    + apply SSorted_cons; [by apply SSorted_cons|].
      apply Forall_cons. split; [done|].
      rewrite Forall_forall in Hy, Pl. apply Forall_forall. intros z Hz.
      apply (Htrans x y z); [done|done|by apply Pl|done|by apply Hy].
    + apply SSorted_cons; [by apply IH|].
      rewrite sort_insert_Permutation. apply Forall_cons. split; [|done].
      unfold sortLe. pose proof (Hflip y x Py Hx). lia.
Qed.

Lemma Array_sort_sorted l :
  Consistent P (SortCompare comparefn) →
  Forall P l → StronglySorted (sortLe comparefn) (Array_sort comparefn l).
Proof.
  intros HC. induction 1 as [|x l Hx Hl IH]; simpl; [constructor|].
  apply sort_insert_sorted; auto.
  by rewrite Array_sort_Permutation.
Qed.
End ArraySortFacts.

Lemma NoDup_fmap_eq {A B : Type} (f : A → B) (l : list A) x y :
  NoDup (f <$> l) → x ∈ l → y ∈ l → f x = f y → x = y.
Proof.
  induction l as [|z l IH]; simpl; intros Hnd Hx Hy E.
  - by apply elem_of_nil in Hx.
  - apply NoDup_cons in Hnd as [Hz Hnd].
    apply elem_of_cons in Hx as [->|Hx]; apply elem_of_cons in Hy as [->|Hy].
    + done.
    + exfalso. apply Hz. rewrite E. by apply list_elem_of_fmap_2.
    + exfalso. apply Hz. rewrite <- E. by apply list_elem_of_fmap_2.
    + by apply IH.
Qed.

Section SortedTracksFacts.
Context `{Host}.
Import App.

Lemma sortedTracks_rules tracks rules :
  rules ≠ [] → sortedTracks tracks rules = Array_sort (comparator rules) tracks.
Proof.
  intros Hr. unfold sortedTracks.
  destruct tracks as [|t tracks]; [done|].
  destruct rules; done.
Qed.

Lemma sortedTracks_no_rules tracks : sortedTracks tracks [] = tracks.
Proof. unfold sortedTracks. by rewrite orb_true_r. Qed.

Lemma sortedTracks_Permutation tracks rules :
  sortedTracks tracks rules ≡ₚ tracks.
Proof.
  unfold sortedTracks. destruct (_ || _); [done|].
  apply Array_sort_Permutation.
Qed.

Lemma inOriginalOrder_rowLe tracks :
  inOriginalOrder tracks → StronglySorted (rowLe []) tracks.
Proof.
  unfold inOriginalOrder.
  induction tracks as [|a tracks IH]; simpl; intros Hs; [constructor|].
  apply StronglySorted_inv in Hs as [Hs Ha].
  constructor; [auto|].
  rewrite Forall_fmap in Ha. eapply Forall_impl; [exact Ha|].
  intros b Hb. unfold rowLe, SortCompare. simpl in *. lia.
Qed.

Lemma sortedTracks_rowLe tracks rules :
  ConsistentCollation → Forall validTimestamp tracks →
  rules ≠ [] ∨ inOriginalOrder tracks →
  StronglySorted (rowLe rules) (sortedTracks tracks rules).
Proof.
  intros Hc Hv Hin.
  destruct rules as [|rule rules].
  - destruct Hin as [|Hin]; [done|].
    rewrite sortedTracks_no_rules. by apply inOriginalOrder_rowLe.
  - rewrite sortedTracks_rules by done.
    apply (Array_sort_sorted _ validTimestamp); [|done].
    by apply comparator_Consistent.
Qed.

Lemma rowLe_antisym tracks rules x y :
  ConsistentCollation → Forall validTimestamp tracks →
  NoDup (TrackRow.originalIndex <$> tracks) →
  x ∈ tracks → y ∈ tracks → rowLe rules x y → rowLe rules y x → x = y.
Proof.
  intros Hc Hv Hnd Hx Hy Hxy Hyx.
  rewrite Forall_forall in Hv.
  apply (NoDup_fmap_eq TrackRow.originalIndex tracks); auto.
  apply (comparator_zero_index rules); auto.
  unfold rowLe in *.
  pose proof (consistent_flip _ _ (comparator_Consistent rules Hc)
                x y (Hv x Hx) (Hv y Hy)).
  lia.
Qed.

Lemma rowLe_rowLt rules l :
  Forall validTimestamp l → NoDup (TrackRow.originalIndex <$> l) →
  StronglySorted (rowLe rules) l → StronglySorted (rowLt rules) l.
Proof.
  intros Hv Hnd Hs.
  induction Hs as [|a l Hs IH Ha]; [constructor|].
  apply Forall_cons in Hv as [Va Vl].
  rewrite fmap_cons in Hnd. apply NoDup_cons in Hnd as [Hin Hnd].
  apply SSorted_cons; [by apply IH|].
  rewrite Forall_forall in Ha, Vl. apply Forall_forall. intros b Hb.
  specialize (Ha b Hb). unfold rowLe, rowLt in *.
  destruct (decide (SortCompare (comparator rules) a b = 0)) as [E|]; [|lia].
  exfalso. apply Hin.
  rewrite (comparator_zero_index rules a b Va (Vl b Hb) E).
  by apply list_elem_of_fmap_2.
Qed.

(** The sorted output is the only arrangement of the rows that respects
    the comparator: no sorting algorithm can produce another one. *)
Lemma sortedTracks_unique tracks rules l :
  ConsistentCollation → Forall validTimestamp tracks →
  NoDup (TrackRow.originalIndex <$> tracks) →
  rules ≠ [] ∨ inOriginalOrder tracks →
  l ≡ₚ tracks → Sorted (rowLe rules) l → l = sortedTracks tracks rules.
Proof.
  intros Hc Hv Hnd Hin Hp Hs.
  assert (Forall validTimestamp l) as Hvl by (by rewrite Hp).
  assert (StronglySorted (rowLe rules) l) as Hss.
  { clear Hp. induction Hs as [|a l Hs IH Ha]; [constructor|].
    apply Forall_cons in Hvl as [Va Vl].
    specialize (IH Vl).
    apply SSorted_cons; [done|].
    destruct Ha as [|b l Hab]; [constructor|].
    apply Forall_cons. split; [done|].
    apply StronglySorted_inv in IH as [_ Hb].
    apply Forall_cons in Vl as [Vb Vl].
    rewrite Forall_forall in Hb, Vl. apply Forall_forall. intros d Hd.
    exact (consistent_trans _ _ (comparator_Consistent rules Hc)
             a b d Va Vb (Vl d Hd) Hab (Hb d Hd)). }
  apply (StronglySorted_unique_strong (rowLe rules)).
  - intros x y Hx Hy. apply (rowLe_antisym tracks rules); auto.
    + by rewrite <- Hp.
    + by rewrite sortedTracks_Permutation in Hy.
  - done.
  - by apply sortedTracks_rowLe.
  - by rewrite sortedTracks_Permutation.
Qed.

(** The scenario of the specification. *)
Lemma sortedTracks_scenario rB rA rC i1 i2 :
  0 < localeCompare "B" "A" →
  TrackRow.name rB = "B" → TrackRow.popularity rB = Some 50 →
  TrackRow.originalIndex rB = 0 →
  TrackRow.name rA = "A" → TrackRow.popularity rA = Some 50 →
  TrackRow.originalIndex rA = 1 →
  TrackRow.name rC = "C" → TrackRow.popularity rC = Some 90 →
  TrackRow.originalIndex rC = 2 →
  sortedTracks [rB; rA; rC]
    [SortRule.mk i1 SortRule.popularity SortRule.desc;
     SortRule.mk i2 SortRule.name SortRule.asc]
  = [rC; rA; rB].
Proof.
  intros Hba nB pB iB nA pA iA nC pC iC.
  destruct rB, rA, rC. simpl in *. subst.
  unfold sortedTracks, Array_sort. simpl. unfold SortCompare. simpl.
  destruct (Z.eqb_spec (localeCompare "B" "A") 0) as [|_]; [lia|]. simpl.
  destruct (Z.leb_spec (localeCompare "B" "A" * 1) 0); [lia|done].
Qed.
End SortedTracksFacts.

Section ReferenceCollation.
Import Reference.

Lemma compareBase_flip a b : compareBase a b < 0 ↔ 0 < compareBase b a.
Proof.
  revert b. induction a as [|x a IH]; intros [|y b]; simpl; try lia.
  destruct (Z.ltb_spec (Z.of_nat (nat_of_ascii (lowerAscii x)))
              (Z.of_nat (nat_of_ascii (lowerAscii y))));
    destruct (Z.ltb_spec (Z.of_nat (nat_of_ascii (lowerAscii y)))
                (Z.of_nat (nat_of_ascii (lowerAscii x))));
    try lia.
  apply IH.
Qed.

Lemma compareBase_trans a b d :
  compareBase a b <= 0 → compareBase b d <= 0 → compareBase a d <= 0.
Proof.
  revert b d. induction a as [|x a IH]; intros [|y b] [|z d]; simpl; try lia.
  repeat match goal with
         | |- context [?i <? ?j] => destruct (Z.ltb_spec i j)
         end; try lia.
  apply IH.
Qed.

Lemma reference_collation table : @ConsistentCollation (host table).
Proof.
  split; simpl; intros.
  - apply compareBase_flip.
  - eapply compareBase_trans; eauto.
Qed.
End ReferenceCollation.

(** C1. The comparator applies the rules in priority order: the first rule
    whose field comparison is not zero decides, scaled by +1 (ascending) or
    -1 (descending); when every rule ties, the difference of the original
    indices decides. With a consistent collation and parseable timestamps
    this is a total order on rows with distinct original indices
    (antisymmetric, transitive, zero only for equal indices), so that
    [sortedTracks] is a strictly sorted permutation of its input and the
    only arrangement of the input that respects the comparator, whatever
    the sorting algorithm. For the rules [(popularity, descending);
    (name, ascending)] and the rows B (50, index 0), A (50, index 1),
    C (90, index 2) the output is [C; A; B]. *)
Theorem sort_rules_priority_total_order `{Host} :
  (∀ pre rule post a b,
     Forall (λ r, App.fieldComparison (SortRule.field r) a b = Num 0) pre →
     JS.strict_ne_zero (App.fieldComparison (SortRule.field rule) a b) = true →
     App.comparator (pre ++ rule :: post) a b =
       JS.mul (App.fieldComparison (SortRule.field rule) a b)
              (Num (App.directionSign (SortRule.direction rule))))
  ∧ (∀ rules a b,
       Forall (λ r, App.fieldComparison (SortRule.field r) a b = Num 0) rules →
       App.comparator rules a b =
         Num (TrackRow.originalIndex a - TrackRow.originalIndex b))
  ∧ (ConsistentCollation →
     ∀ rules,
       Consistent validTimestamp (App.SortCompare (App.comparator rules))
       ∧ (∀ a b, validTimestamp a → validTimestamp b →
                 App.SortCompare (App.comparator rules) a b = 0 →
                 TrackRow.originalIndex a = TrackRow.originalIndex b)
       ∧ ∀ tracks,
           Forall validTimestamp tracks →
           NoDup (TrackRow.originalIndex <$> tracks) →
           rules ≠ [] ∨ inOriginalOrder tracks →
           App.sortedTracks tracks rules ≡ₚ tracks
           ∧ StronglySorted (rowLt rules) (App.sortedTracks tracks rules)
           ∧ ∀ l, l ≡ₚ tracks → Sorted (rowLe rules) l →
                  l = App.sortedTracks tracks rules)
  ∧ (∀ rB rA rC i1 i2,
       0 < localeCompare "B" "A" →
       TrackRow.name rB = "B" → TrackRow.popularity rB = Some 50 →
       TrackRow.originalIndex rB = 0 →
       TrackRow.name rA = "A" → TrackRow.popularity rA = Some 50 →
       TrackRow.originalIndex rA = 1 →
       TrackRow.name rC = "C" → TrackRow.popularity rC = Some 90 →
       TrackRow.originalIndex rC = 2 →
       App.sortedTracks [rB; rA; rC]
         [SortRule.mk i1 SortRule.popularity SortRule.desc;
          SortRule.mk i2 SortRule.name SortRule.asc]
       = [rC; rA; rB]).
Proof.
  split; [exact comparator_first_nonzero|].
  split; [exact comparator_all_tie|].
  split; [|exact sortedTracks_scenario].
  intros Hc rules.
  split; [by apply comparator_Consistent|].
  split; [exact (comparator_zero_index rules)|].
  intros tracks Hv Hnd Hin.
  split; [apply sortedTracks_Permutation|].
  split.
  - apply rowLe_rowLt.
    + by rewrite sortedTracks_Permutation.
    + by rewrite sortedTracks_Permutation.
    + by apply sortedTracks_rowLe.
  - intros l Hp Hs. by apply sortedTracks_unique.
Qed.

Lemma sort_rules_priority_total_order_witness :
  let H := Reference.host [] in
  let rules := [Examples.byPopularityDesc; Examples.byNameAsc] in
  let tracks := [Examples.rowB; Examples.rowA; Examples.rowC] in
  App.comparator rules Examples.rowB Examples.rowA = Num 1
  ∧ App.comparator [Examples.byPopularityDesc] Examples.rowB Examples.rowA
    = Num (-1)
  ∧ StronglySorted (rowLt rules) (App.sortedTracks tracks rules)
  ∧ App.sortedTracks tracks rules
    = [Examples.rowC; Examples.rowA; Examples.rowB].
Proof.
  intros H rules tracks.
  destruct (@sort_rules_priority_total_order H) as (P1 & P2 & P3 & P4).
  split.
  { apply (P1 [Examples.byPopularityDesc] Examples.byNameAsc []
              Examples.rowB Examples.rowA).
    - repeat constructor.
    - reflexivity. }
  split.
  { apply (P2 [Examples.byPopularityDesc] Examples.rowB Examples.rowA).
    repeat constructor. }
  split.
  { destruct (P3 (reference_collation []) rules) as (_ & _ & Q).
    destruct (Q tracks) as (_ & Hs & _).
    - repeat constructor; discriminate.
    - cbn. repeat (apply NoDup_cons_2;
                     [rewrite ?elem_of_cons, elem_of_nil; lia|]).
      apply NoDup_nil_2.
    - left. discriminate.
    - exact Hs. }
  apply (P4 Examples.rowB Examples.rowA Examples.rowC "r1" "r2");
    first [reflexivity | vm_compute; reflexivity].
Defined.

Ltac run_M :=
  repeat (cbn -[Z.add Z.mul Z.ltb Z.eqb String.append String.prefix Nat.eqb]
            in * ||
          unfold mbind, M_bind, mret, M_ret, throw, diverge, emit, modify, gets,
            try_catch, try_finally, Client.inBrowser, Client.notify,
            Auth.Date_now, Auth.fetchToken, Auth.assertEnv, Auth.storeTokens,
            Auth.clearStoredAuth, Client.fetch in *).

Lemma bind_Ret {St A B} (m : M St A) (k : A → M St B) s a ev s' :
  m s = (Ret a, ev, s') →
  ∃ o tail s'', (m ≫= k) s = (o, ev ++ tail, s'') ∧ k a s' = (o, tail, s'').
Proof.
  intros E. unfold mbind, M_bind. rewrite E.
  destruct (k a s') as [[o tail] s'']. eauto.
Qed.

Lemma bind_Throw {St A B} (m : M St A) (k : A → M St B) s e ev s' :
  m s = (Throw e, ev, s') → (m ≫= k) s = (Throw e, ev, s').
Proof. intros E. unfold mbind, M_bind. by rewrite E. Qed.

Lemma bind_Diverge {St A B} (m : M St A) (k : A → M St B) s ev s' :
  m s = (Diverge, ev, s') → (m ≫= k) s = (Diverge, ev, s').
Proof. intros E. unfold mbind, M_bind. by rewrite E. Qed.

Section PipelineFacts.
Context `{Host} (env : Env.t).

Lemma requestHeaders_authorization accessToken init :
  Client.requestHeaders accessToken init !! "authorization"
  = Some ("Bearer " +:+ accessToken).
Proof.
  unfold Client.requestHeaders.
  destruct (_ && _).
  - rewrite lookup_insert_ne by done. apply lookup_insert_eq.
  - apply lookup_insert_eq.
Qed.

(** A refresh issues at most one token request, and a successful one
    exactly one. *)
Lemma refreshAccessToken_events previous b o evs b' :
  Auth.refreshAccessToken env previous b = (o, evs, b') →
  (evs = [] ∧ ∃ e, o = Throw e)
  ∨ evs = [TokenRequest [("grant_type", "refresh_token");
                         ("refresh_token", TokenSet.refreshToken previous);
                         ("client_id", default "" (Env.CLIENT_ID env))]].
Proof.
  unfold Auth.refreshAccessToken. run_M.
  destruct (Env.CLIENT_ID env) as [cid|]; run_M;
    [destruct (JS.truthy cid); run_M|];
    try (intros [= <- <- <-]; left; eauto; fail).
  destruct (Env.tokenEndpoint env _) as [[[data|]|status body]|]; run_M;
    try (intros [= <- <- <-]; right; done).
  unfold Auth.buildTokenSet.
  destruct (TokenEndpointResponse.refresh_token data) as [r|]; run_M;
    destruct (JS.truthy _); run_M; intros [= <- <- <-]; right; done.
Qed.

Lemma ensureFresh_fresh c :
  tokenFresh env c →
  Client.ensureFreshAccessToken env c =
    (Ret (TokenSet.accessToken (Client.tokens c)), [],
     Client.mk (Client.tokens c) (Client.onTokenRefresh c)
       (Browser.tick (Client.browser c))).
Proof.
  unfold tokenFresh, Client.ensureFreshAccessToken. intros Hf. run_M.
  destruct (Z.ltb_spec
              (Env.clock env (Browser.ticks (Client.browser c)) + 60000)
              (TokenSet.expiresAt (Client.tokens c))); [done|lia].
Qed.

Lemma ensureFresh_stale c :
  ¬ tokenFresh env c →
  Client.ensureFreshAccessToken env c =
    match Auth.refreshAccessToken env (Client.tokens c)
            (Browser.tick (Client.browser c)) with
    | (Ret refreshed, evs, b) =>
        (Ret (TokenSet.accessToken refreshed),
         evs ++ observed c (Some refreshed),
         Client.mk refreshed (Client.onTokenRefresh c) b)
    | (Throw e, evs, b) =>
        (Throw e, evs, Client.mk (Client.tokens c) (Client.onTokenRefresh c) b)
    | (Diverge, evs, b) =>
        (Diverge, evs, Client.mk (Client.tokens c) (Client.onTokenRefresh c) b)
    end.
Proof.
  unfold tokenFresh, Client.ensureFreshAccessToken, observed. intros Hf. run_M.
  destruct (Z.ltb_spec
              (Env.clock env (Browser.ticks (Client.browser c)) + 60000)
              (TokenSet.expiresAt (Client.tokens c))); [lia|].
  run_M.
  destruct (Auth.refreshAccessToken env _ _) as [[[refreshed|e|] evs] b];
    run_M; try done.
  destruct (Client.onTokenRefresh c); run_M; by rewrite ?app_nil_r.
Qed.

Lemma fetch_bind {B} url init (k : Response.t → M Client.t B) c :
  ∃ o tail c',
    (Client.fetch env url init ≫= k) c = (o, ApiRequest url init :: tail, c').
Proof.
  unfold mbind, M_bind, Client.fetch.
  destruct (Env.api env _); [destruct (k _ _) as [[??]?]|]; eauto.
Qed.

(** One call of [authorizedFetch]: what precedes its request. *)
Lemma authorizedFetch_request fuel input init attempt c accessToken evs c1 :
  Client.ensureFreshAccessToken env c = (Ret accessToken, evs, c1) →
  ∃ o tail c',
    Client.authorizedFetch env (S fuel) input init attempt c =
      (o,
       evs ++ ApiRequest (resolveUrl input)
                (Client.with_headers
                   (Client.requestHeaders accessToken init) init) :: tail,
       c').
Proof.
  intros He. cbn [Client.authorizedFetch].
  unfold mbind at 1. unfold M_bind at 1. rewrite He.
  fold (resolveUrl input).
  match goal with
  | |- context [mbind ?k (Client.fetch env ?u ?i) ?s] =>
      destruct (fetch_bind u i k s) as (o & tail & c' & ->)
  end.
  eexists _, _, _. reflexivity.
Qed.

Lemma authorizedFetch_no_request fuel input init attempt c e evs c1 :
  Client.ensureFreshAccessToken env c = (Throw e, evs, c1) →
  Client.authorizedFetch env (S fuel) input init attempt c = (Throw e, evs, c1).
Proof.
  intros He. cbn [Client.authorizedFetch].
  unfold mbind at 1. unfold M_bind at 1. by rewrite He.
Qed.

(** One call of [authorizedFetch], case by case. *)
Lemma authorizedFetch_step fuel input init attempt c :
  Client.authorizedFetch env (S fuel) input init attempt c =
  match Client.ensureFreshAccessToken env c with
  | (Ret tok, evs, c1) =>
      let req := ApiRequest (resolveUrl input) (sentInit tok init) in
      match Env.api env (Browser.apiCalls (Client.browser c1)) with
      | None => (Throw FetchRejected, evs ++ [req], afterSend c1)
      | Some r =>
          if (Response.status r =? 401) && (attempt =? 0)%nat then
            match Auth.refreshAccessToken env (Client.tokens c1)
                    (Browser.countApiCall (Client.browser c1)) with
            | (Ret refreshed, evr, b) =>
                let c2 := Client.mk refreshed (Client.onTokenRefresh c1) b in
                let '(o, ev, c') :=
                  Client.authorizedFetch env fuel input init (attempt + 1) c2 in
                (o, evs ++ req :: evr ++ observed c1 (Some refreshed) ++ ev, c')
            | (Throw e, evr, b) =>
                (Throw e, evs ++ req :: evr,
                 Client.mk (Client.tokens c1) (Client.onTokenRefresh c1) b)
            | (Diverge, evr, b) =>
                (Diverge, evs ++ req :: evr,
                 Client.mk (Client.tokens c1) (Client.onTokenRefresh c1) b)
            end
          else if Response.status r =? 429 then
            let '(o, ev, c') :=
              Client.authorizedFetch env fuel input init (attempt + 1)
                (afterSend c1) in
            (o, evs ++ req :: Sleep (Client.retryAfterMs r) :: ev, c')
          else (Ret r, evs ++ [req], afterSend c1)
      end
  | (Throw e, evs, c1) => (Throw e, evs, c1)
  | (Diverge, evs, c1) => (Diverge, evs, c1)
  end.
Proof.
  cbn [Client.authorizedFetch].
  unfold mbind at 1. unfold M_bind at 1.
  destruct (Client.ensureFreshAccessToken env c) as [[[tok|e|] evs] c1];
    [|done|done].
  fold (resolveUrl input). fold (sentInit tok init).
  unfold mbind at 1. unfold M_bind at 1. unfold Client.fetch at 1.
  fold (afterSend c1).
  destruct (Env.api env _) as [r|]; [|done].
  destruct ((Response.status r =? 401) && (attempt =? 0)%nat).
  - unfold mbind at 1. unfold M_bind at 1. unfold gets at 1.
    cbn [Client.tokens afterSend].
    unfold mbind at 1. unfold M_bind at 1. unfold Client.inBrowser at 1.
    cbn [Client.browser Client.tokens Client.onTokenRefresh afterSend].
    destruct (Auth.refreshAccessToken env _ _) as [[[refreshed|e|] evr] b];
      [|by rewrite ?app_nil_r..].
    unfold mbind at 1. unfold M_bind at 1. unfold modify at 1.
    unfold mbind at 1. unfold M_bind at 1. unfold Client.notify at 1.
    unfold mbind at 1. unfold M_bind at 1. unfold gets at 1.
    unfold Client.set_tokens, observed.
    cbn [Client.browser Client.tokens Client.onTokenRefresh].
    destruct (Client.onTokenRefresh c1);
      [unfold emit at 1|unfold mret at 1; unfold M_ret at 1];
      destruct (Client.authorizedFetch env fuel input init (attempt + 1) _)
        as [[o ev] c'];
      cbn [app]; rewrite ?app_nil_r; done.
  - destruct (Response.status r =? 429).
    + unfold mbind at 1. unfold M_bind at 1. unfold emit at 1.
      destruct (Client.authorizedFetch env fuel input init (attempt + 1) _)
        as [[o ev] c'].
      cbn [app]. done.
    + unfold mret, M_ret. by rewrite app_nil_r.
Qed.

Lemma requestsSent_app evs1 evs2 :
  requestsSent (evs1 ++ evs2) = requestsSent evs1 ++ requestsSent evs2.
Proof.
  induction evs1 as [|[] evs1 IH]; simpl; auto. by rewrite IH.
Qed.



(** A refresh returns or throws, and leaves the resource API alone. *)
Lemma refreshAccessToken_frame previous b o evs b' :
  Auth.refreshAccessToken env previous b = (o, evs, b') →
  o ≠ Diverge ∧ Browser.apiCalls b' = Browser.apiCalls b
  ∧ requestsSent evs = [] ∧ sleeps evs = [].
Proof.
  intros E. pose proof (refreshAccessToken_events _ _ _ _ _ E) as Hev.
  revert E. unfold Auth.refreshAccessToken. run_M.
  destruct (Env.CLIENT_ID env) as [cid|]; run_M;
    [destruct (JS.truthy cid); run_M|];
    try (intros [= <- <- <-]; done).
  destruct (Env.tokenEndpoint env _) as [[[data|]|status body]|]; run_M;
    try (intros [= <- <- <-]; done).
  unfold Auth.buildTokenSet.
  destruct (TokenEndpointResponse.refresh_token data) as [r|]; run_M;
    destruct (JS.truthy _); run_M; intros [= <- <- <-]; done.
Qed.


End PipelineFacts.

(** C2. Every call of [authorizedFetch] first compares [now + 60000] with
    [expiresAt] of the client's token record. When [now + 60000 < expiresAt]
    no token request precedes the resource request, which carries the
    current access token. When [now + 60000 >= expiresAt] and the refresh
    succeeds, exactly one token request (the refresh, made with the current
    refresh token) precedes the resource request, which carries the
    refreshed access token; when the refresh fails its error is thrown and
    no resource request is sent. *)
Theorem proactive_refresh_before_request `{Host} (env : Env.t)
    (fuel : nat) (input : string) (init : RequestInit.t) (attempt : nat)
    (c : Client.t) :
  let now := Env.clock env (Browser.ticks (Client.browser c)) in
  let run := Client.authorizedFetch env (S fuel) input init attempt c in
  let refresh := Auth.refreshAccessToken env (Client.tokens c)
                   (Browser.tick (Client.browser c)) in
  (now + 60000 < TokenSet.expiresAt (Client.tokens c) →
     refreshesBeforeRequest run.1.2 = 0%nat
     ∧ authorizationSent run.1.2
       = Some ("Bearer " +:+ TokenSet.accessToken (Client.tokens c)))
  ∧ (now + 60000 >= TokenSet.expiresAt (Client.tokens c) →
     ∀ refreshed, refresh.1.1 = Ret refreshed →
       refresh.1.2 = [TokenRequest
                        [("grant_type", "refresh_token");
                         ("refresh_token", TokenSet.refreshToken (Client.tokens c));
                         ("client_id", default "" (Env.CLIENT_ID env))]]
       ∧ refreshesBeforeRequest run.1.2 = 1%nat
       ∧ authorizationSent run.1.2
         = Some ("Bearer " +:+ TokenSet.accessToken refreshed))
  ∧ (now + 60000 >= TokenSet.expiresAt (Client.tokens c) →
     ∀ e, refresh.1.1 = Throw e →
       run.1.1 = Throw e ∧ requestsSent run.1.2 = []).
Proof.
  intros now run refresh. subst now run.
  split; [|split].
  - intros Hf.
    destruct (authorizedFetch_request env fuel input init attempt c _ _ _
                (ensureFresh_fresh env c Hf)) as (o & tail & c' & ->).
    simpl. unfold authorizationSent. simpl.
    split; [done|]. apply requestHeaders_authorization.
  - intros Hs refreshed Hr.
    assert (¬ tokenFresh env c) as Hn by (unfold tokenFresh; lia).
    pose proof (ensureFresh_stale env c Hn) as He.
    subst refresh.
    destruct (Auth.refreshAccessToken env _ _) as [[o evs] b] eqn:Er.
    simpl in Hr. subst o.
    destruct (refreshAccessToken_events env _ _ _ _ _ Er)
      as [[_ [e [=]]]|Hev].
    destruct (authorizedFetch_request env fuel input init attempt c _ _ _ He)
      as (o & tail & c' & ->).
    simpl. split; [done|]. subst evs.
    unfold authorizationSent, observed.
    destruct (Client.onTokenRefresh c); simpl;
      (split; [done|]); apply requestHeaders_authorization.
  - intros Hs e Hr.
    assert (¬ tokenFresh env c) as Hn by (unfold tokenFresh; lia).
    pose proof (ensureFresh_stale env c Hn) as He.
    subst refresh.
    destruct (Auth.refreshAccessToken env _ _) as [[o evs] b] eqn:Er.
    simpl in Hr. subst o.
    rewrite (authorizedFetch_no_request env fuel input init attempt c _ _ _ He).
    simpl. split; [done|].
    destruct (refreshAccessToken_events env _ _ _ _ _ Er) as [[-> _]| ->]; done.
Qed.

Lemma proactive_refresh_before_request_witness :
  let H := Reference.host [] in
  let env := PipelineExamples.env [] in
  let fresh := Client.authorizedFetch env 1 "/me" PipelineExamples.init 0
                 (PipelineExamples.client "access-0" 3600000) in
  let stale := Client.authorizedFetch env 1 "/me" PipelineExamples.init 0
                 (PipelineExamples.client "access-0" 61000) in
  (refreshesBeforeRequest fresh.1.2 = 0%nat
   ∧ authorizationSent fresh.1.2 = Some "Bearer access-0")
  ∧ (refreshesBeforeRequest stale.1.2 = 1%nat
     ∧ authorizationSent stale.1.2 = Some "Bearer access-1").
Proof.
  intros H env fresh stale. split.
  - destruct (proactive_refresh_before_request env 0 "/me"
                PipelineExamples.init 0
                (PipelineExamples.client "access-0" 3600000)) as (P & _ & _).
    apply P. simpl. lia.
  - destruct (proactive_refresh_before_request env 0 "/me"
                PipelineExamples.init 0
                (PipelineExamples.client "access-0" 61000)) as (_ & P & _).
    edestruct P as (_ & R & A); [simpl; lia|reflexivity|].
    split; [exact R|exact A].
Defined.


Section Unauthorized.
Context `{Host} (env : Env.t).

End Unauthorized.




(** ** Token records *)

Section TokenRecords.
Context `{Host} (env : Env.t).

Lemma truthy_nonempty s : JS.truthy s = true ↔ s ≠ "".
Proof. destruct s; simpl; split; done. Qed.

Lemma buildTokenSet_cases data previous b :
  let chosen := match TokenEndpointResponse.refresh_token data with
                | Some r => Some r
                | None => previous
                end in
  match chosen with
  | Some r =>
      if JS.truthy r then
        Auth.buildTokenSet env data previous b =
          (Ret (TokenSet.mk (TokenEndpointResponse.access_token data) r
                  (Env.clock env (Browser.ticks b)
                   + TokenEndpointResponse.expires_in data * 1000)
                  (TokenEndpointResponse.scope data)),
           [], Browser.tick b)
      else Auth.buildTokenSet env data previous b
           = (Throw MissingRefreshToken, [], b)
  | None => Auth.buildTokenSet env data previous b
            = (Throw MissingRefreshToken, [], b)
  end.
Proof.
  unfold Auth.buildTokenSet.
  destruct (TokenEndpointResponse.refresh_token data) as [r|];
    [|destruct previous as [r|]]; cbn zeta iota beta;
    try destruct (JS.truthy r); done.
Qed.



(** [completeAuthorization] either returns, having stored the record and
    removed both transient values, or throws, having changed no storage. *)
Lemma completeAuthorization_cases code returnedState b o evs b' :
  Auth.completeAuthorization env code returnedState b = (o, evs, b') →
  (∃ t, o = Ret t
        ∧ Browser.sessionStorage b'
          = delete Auth.CODE_VERIFIER_KEY
              (delete Auth.STATE_KEY (Browser.sessionStorage b))
        ∧ Browser.localStorage b'
          = <[Auth.TOKEN_STORAGE_KEY := JSON_stringify (Auth.tokenSet_json t)]>
              (Browser.localStorage b)
        ∧ TokenSet.refreshToken t ≠ "")
  ∨ (∃ e, o = Throw e
          ∧ Browser.sessionStorage b' = Browser.sessionStorage b
          ∧ Browser.localStorage b' = Browser.localStorage b).
Proof.
  unfold Auth.completeAuthorization. run_M.
  destruct (Env.CLIENT_ID env) as [cid|]; run_M;
    [destruct (JS.truthy cid); run_M|];
    try (intros [= <- <- <-]; right; eauto; fail).
  destruct (Env.REDIRECT_URI env) as [uri|]; run_M;
    [destruct (JS.truthy uri); run_M|];
    try (intros [= <- <- <-]; right; eauto; fail).
  destruct (negb (JS.truthy_opt _) || negb (bool_decide _)); run_M;
    try (intros [= <- <- <-]; right; eauto; fail).
  destruct (Browser.sessionStorage b !! Auth.CODE_VERIFIER_KEY) as [verifier|];
    run_M; [destruct (JS.truthy verifier); run_M|];
    try (intros [= <- <- <-]; right; eauto; fail).
  destruct (Env.tokenEndpoint env _) as [[[data|]|status [[err|]|]]|]; run_M;
    try (intros [= <- <- <-]; right; eauto; fail).
  pose proof (buildTokenSet_cases data None (Browser.countTokenCall b)) as Hc.
  cbv zeta in Hc.
  destruct (TokenEndpointResponse.refresh_token data) as [r|];
    [destruct (JS.truthy r) eqn:Et|]; rewrite Hc; run_M;
    intros [= <- <- <-]; try (right; eauto; fail).
  left. eexists. split; [reflexivity|]. split; [done|]. split; [done|].
  by apply truthy_nonempty.
Qed.

End TokenRecords.



(** ** Rate limiting *)

Section RateLimit.
Context `{Host} (env : Env.t).

Lemma retryAfterMs_absent r :
  Response.headers r !! "retry-after" = None →
  Client.retryAfterMs r = JS.mul (Number_of "2") (Num 1000).
Proof. unfold Client.retryAfterMs. by intros ->. Qed.

Lemma retryAfterMs_present r h :
  Response.headers r !! "retry-after" = Some h →
  Client.retryAfterMs r = JS.mul (Number_of h) (Num 1000).
Proof. unfold Client.retryAfterMs. by intros ->. Qed.

(** A 429 answer, at any attempt: sleep, then call again. *)
Lemma authorizedFetch_429 fuel input init attempt c tok evs c1 r :
  Client.ensureFreshAccessToken env c = (Ret tok, evs, c1) →
  Env.api env (Browser.apiCalls (Client.browser c1)) = Some r →
  Response.status r = 429 →
  Client.authorizedFetch env (S fuel) input init attempt c =
    let '(o, ev, c') :=
      Client.authorizedFetch env fuel input init (attempt + 1) (afterSend c1) in
    (o,
     evs ++ ApiRequest (resolveUrl input) (sentInit tok init)
         :: Sleep (Client.retryAfterMs r) :: ev,
     c').
Proof.
  intros E A St. rewrite authorizedFetch_step, E. cbv zeta.
  rewrite A, St. done.
Qed.

Lemma authorizedFetch_always_429 input init c :
  (∀ k, ∃ r, Env.api env k = Some r ∧ Response.status r = 429) →
  (∀ t, Env.clock env t + 60000 < TokenSet.expiresAt (Client.tokens c)) →
  ∀ fuel attempt b,
    let run := Client.authorizedFetch env fuel input init attempt
                 (Client.mk (Client.tokens c) (Client.onTokenRefresh c) b) in
    run.1.1 = Diverge
    ∧ length (requestsSent run.1.2) = fuel
    ∧ length (sleeps run.1.2) = fuel
    ∧ tokenRequests run.1.2 = [].
Proof.
  intros Hapi Hclock fuel.
  induction fuel as [|fuel IH]; intros attempt b; [done|].
  cbv zeta.
  set (c0 := Client.mk (Client.tokens c) (Client.onTokenRefresh c) b).
  assert (tokenFresh env c0) as Hf by apply Hclock.
  destruct (Hapi (Browser.apiCalls (Browser.tick b))) as (r & A & St).
  rewrite (authorizedFetch_429 fuel input init attempt c0 _ _ _ r
             (ensureFresh_fresh env c0 Hf) A St).
  specialize (IH (attempt + 1)%nat (Browser.countApiCall (Browser.tick b))).
  cbv zeta in IH. unfold afterSend. cbn [Client.tokens Client.onTokenRefresh
                                          Client.browser c0].
  destruct (Client.authorizedFetch env fuel input init (attempt + 1) _)
    as [[o ev] c'].
  cbn [fst snd app requestsSent sleeps tokenRequests length] in *.
  destruct IH as (-> & -> & -> & ->). done.
Qed.
End RateLimit.

(** C9. The 429 path has no attempt cap: at every attempt count a 429
    answer makes the pipeline sleep and call itself with the next attempt
    count, and against a server that always answers 429 (the token staying
    fresh) the run is still going after any number of calls, having sent
    that many requests. *)
Theorem rate_limit_retry_unbounded `{Host} (env : Env.t)
    (input : string) (init : RequestInit.t) (c : Client.t) :
  (∀ fuel attempt tok evs c1 r,
     Client.ensureFreshAccessToken env c = (Ret tok, evs, c1) →
     Env.api env (Browser.apiCalls (Client.browser c1)) = Some r →
     Response.status r = 429 →
     Client.authorizedFetch env (S fuel) input init attempt c =
       let '(o, ev, c') :=
         Client.authorizedFetch env fuel input init (attempt + 1) (afterSend c1) in
       (o,
        evs ++ ApiRequest (resolveUrl input) (sentInit tok init)
            :: Sleep (Client.retryAfterMs r) :: ev,
        c'))
  ∧ ((∀ k, ∃ r, Env.api env k = Some r ∧ Response.status r = 429) →
     (∀ t, Env.clock env t + 60000 < TokenSet.expiresAt (Client.tokens c)) →
     ∀ fuel attempt,
       let run := Client.authorizedFetch env fuel input init attempt c in
       run.1.1 = Diverge
       ∧ length (requestsSent run.1.2) = fuel
       ∧ length (sleeps run.1.2) = fuel).
Proof.
  split.
  - intros fuel attempt tok evs c1 r. apply authorizedFetch_429.
  - intros Hapi Hclock fuel attempt.
    destruct (authorizedFetch_always_429 env input init c Hapi Hclock
                fuel attempt (Client.browser c)) as (Hd & Hr & Hs & _).
    destruct c. auto.
Qed.

Lemma rate_limit_retry_unbounded_witness :
  let H := Reference.host [] in
  let run := Client.authorizedFetch RateLimitExamples.busy 25 "/me"
               PipelineExamples.init 0
               (PipelineExamples.client "access-0" 3600000) in
  run.1.1 = Diverge
  ∧ length (requestsSent run.1.2) = 25%nat
  ∧ length (sleeps run.1.2) = 25%nat.
Proof.
  intros H run.
  destruct (rate_limit_retry_unbounded RateLimitExamples.busy "/me"
              PipelineExamples.init
              (PipelineExamples.client "access-0" 3600000)) as (_ & P).
  apply P.
  - intros k. eexists. split; reflexivity.
  - intros t. simpl. lia.
Defined.

(** C5 (as amended). On a 429 answer the pipeline reads the [retry-after]
    header, converts it with [Number], multiplies by 1000 and sleeps for
    that many milliseconds before it sends the request again. The default
    of 2 seconds applies when the header is absent; a header that is the
    number [n] gives [n] seconds; a header that is not a number gives NaN
    as the delay, not the default. *)
Theorem rate_limit_retry_after `{Host} (env : Env.t) (fuel : nat)
    (input : string) (init : RequestInit.t) (attempt : nat) (c : Client.t)
    (tok : string) (evs : list Event) (c1 : Client.t) (r : Response.t) :
  Client.ensureFreshAccessToken env c = (Ret tok, evs, c1) →
  Env.api env (Browser.apiCalls (Client.browser c1)) = Some r →
  Response.status r = 429 →
  let run := Client.authorizedFetch env (S (S fuel)) input init attempt c in
  (∃ tail,
     run.1.2 = evs ++ ApiRequest (resolveUrl input) (sentInit tok init)
                   :: Sleep (Client.retryAfterMs r) :: tail
     ∧ ∀ tok2 evs2 c2,
         Client.ensureFreshAccessToken env (afterSend c1) = (Ret tok2, evs2, c2) →
         ∃ tail2,
           tail = evs2 ++ ApiRequest (resolveUrl input) (sentInit tok2 init)
                       :: tail2)
  ∧ (Response.headers r !! "retry-after" = None → Number_of "2" = Num 2 →
     Client.retryAfterMs r = Num 2000)
  ∧ (∀ h n, Response.headers r !! "retry-after" = Some h → Number_of h = Num n →
            Client.retryAfterMs r = Num (n * 1000))
  ∧ (∀ h, Response.headers r !! "retry-after" = Some h → Number_of h = NaN →
          Client.retryAfterMs r = NaN).
Proof.
  intros E A St run. subst run.
  split; [|split; [|split]].
  - rewrite (authorizedFetch_429 env (S fuel) input init attempt c _ _ _ r E A St).
    destruct (Client.authorizedFetch env (S fuel) input init (attempt + 1) _)
      as [[o ev] c'] eqn:E2.
    cbn [fst snd]. exists ev. split; [done|].
    intros tok2 evs2 c2 E3.
    destruct (authorizedFetch_request env fuel input init (attempt + 1)
                (afterSend c1) _ _ _ E3) as (o' & tail2 & c'' & E4).
    rewrite E4 in E2. injection E2 as <- <- <-. eauto.
  - intros Hh H2. rewrite retryAfterMs_absent, H2 by done. done.
  - intros h n Hh Hn. rewrite (retryAfterMs_present _ h), Hn by done. done.
  - intros h Hh Hn. rewrite (retryAfterMs_present _ h), Hn by done. done.
Qed.

Lemma rate_limit_retry_after_witness :
  sleeps (RetryAfterExamples.run None).1.2 = [Num 2000]
  ∧ sleeps (RetryAfterExamples.run (Some "7")).1.2 = [Num 7000]
  ∧ length (requestsSent (RetryAfterExamples.run (Some "7")).1.2) = 2%nat
  ∧ Client.retryAfterMs (H := Reference.host [])
      (RetryAfterExamples.limited None) = Num 2000
  ∧ Client.retryAfterMs (H := Reference.host [])
      (RetryAfterExamples.limited (Some "7")) = Num (7 * 1000).
Proof.
  pose proof (λ ra, @rate_limit_retry_after (Reference.host [])
                (PipelineExamples.env [RetryAfterExamples.limited ra]) 0 "/me"
                PipelineExamples.init 0
                (PipelineExamples.client "access-0" 3600000)
                _ _ _ (RetryAfterExamples.limited ra)
                eq_refl eq_refl eq_refl) as P.
  split; [reflexivity|]. split; [reflexivity|]. split; [reflexivity|].
  split.
  - destruct (P None) as (_ & Q & _). apply Q; reflexivity.
  - destruct (P (Some "7")) as (_ & _ & Q & _). apply (Q "7" 7); reflexivity.
Defined.

(** C5, as first stated, fails: a [retry-after] header that is not a number
    (here an HTTP date) makes the delay NaN, not 2000 ms. *)
Lemma retry_after_non_numeric_counterexample :
  Number_of (Host := Reference.host []) RetryAfterExamples.httpDate = NaN
  ∧ Client.retryAfterMs (H := Reference.host [])
      (RetryAfterExamples.limited (Some RetryAfterExamples.httpDate)) = NaN
  ∧ sleeps (RetryAfterExamples.run (Some RetryAfterExamples.httpDate)).1.2
    = [NaN]
  ∧ sleeps (RetryAfterExamples.run (Some RetryAfterExamples.httpDate)).1.2
    ≠ [Num 2000].
Proof. repeat split; try reflexivity. discriminate. Qed.

(** ** Pending authorization state *)

(** C6 (as amended). [completeAuthorization] removes both transient values
    (state and code verifier) from the session storage when it returns;
    when it throws (state mismatch, missing verifier, failed token
    exchange, or any other failure) it leaves the session storage as it
    was. It always returns or throws. The values left behind by a failed
    attempt are removed by [clearStoredAuth]. *)
Theorem pending_auth_cleared_on_success `{Host} (env : Env.t)
    (code returnedState : string) (b : Browser.t) :
  let run := Auth.completeAuthorization env code returnedState b in
  (∀ t, run.1.1 = Ret t →
     Browser.sessionStorage run.2 !! Auth.STATE_KEY = None
     ∧ Browser.sessionStorage run.2 !! Auth.CODE_VERIFIER_KEY = None)
  ∧ (∀ e, run.1.1 = Throw e →
       Browser.sessionStorage run.2 = Browser.sessionStorage b)
  ∧ run.1.1 ≠ Diverge
  ∧ (let cleared := (Auth.clearStoredAuth b).2 in
     Browser.sessionStorage cleared !! Auth.STATE_KEY = None
     ∧ Browser.sessionStorage cleared !! Auth.CODE_VERIFIER_KEY = None).
Proof.
  intros run.
  destruct run as [[o evs] b'] eqn:E. subst run. cbn [fst snd].
  destruct (completeAuthorization_cases env _ _ _ _ _ _ E)
    as [(t & -> & Hs & _ & _)|(e & -> & Hs & _)].
  - split; [|split; [done|split; [done|]]].
    + intros _ _. rewrite Hs. split.
      * rewrite lookup_delete_ne by done. apply lookup_delete_eq.
      * apply lookup_delete_eq.
    + run_M. split.
      * apply lookup_delete_eq.
      * rewrite lookup_delete_ne by done. apply lookup_delete_eq.
  - split; [done|]. split; [by intros _ _|]. split; [done|].
    run_M. split.
    + apply lookup_delete_eq.
    + rewrite lookup_delete_ne by done. apply lookup_delete_eq.
Qed.

Lemma pending_auth_cleared_on_success_witness :
  let H := Reference.host [] in
  let run := Auth.completeAuthorization LoginExamples.granting "code-1" "state-1"
               LoginExamples.pending in
  (∃ t, run.1.1 = Ret t)
  ∧ Browser.sessionStorage run.2 !! Auth.STATE_KEY = None
  ∧ Browser.sessionStorage run.2 !! Auth.CODE_VERIFIER_KEY = None.
Proof.
  intros H run.
  destruct (pending_auth_cleared_on_success LoginExamples.granting "code-1"
              "state-1" LoginExamples.pending) as (P & _).
  split; [eexists; reflexivity|].
  eapply P. reflexivity.
Defined.

(** C6, as first stated, fails: after a state mismatch, and after a refused
    token exchange, the state and the verifier are still in the session
    storage. *)
Lemma pending_auth_kept_on_failure_counterexample :
  let H := Reference.host [] in
  let mismatch := Auth.completeAuthorization LoginExamples.granting "code-1"
                    "forged" LoginExamples.pending in
  let refused := Auth.completeAuthorization LoginExamples.refusing "code-1"
                   "state-1" LoginExamples.pending in
  (mismatch.1.1 = Throw InvalidAuthState
   ∧ Browser.sessionStorage mismatch.2 !! Auth.STATE_KEY = Some "state-1"
   ∧ Browser.sessionStorage mismatch.2 !! Auth.CODE_VERIFIER_KEY
     = Some "verifier-1")
  ∧ (refused.1.1 = Throw (LoginFailed (inl "invalid_grant"))
     ∧ Browser.sessionStorage refused.2 !! Auth.STATE_KEY = Some "state-1"
     ∧ Browser.sessionStorage refused.2 !! Auth.CODE_VERIFIER_KEY
       = Some "verifier-1").
Proof. repeat split; reflexivity. Qed.

(** ** Loading the stored record *)

Section LoadStored.
Context `{Host}.

Lemma typeof_string_spec x :
  Auth.typeof_string x = true ↔ ∃ s, x = Some (JString s).
Proof.
  destruct x as [[]|]; simpl; split; try done; try (intros [? [=]]); eauto.
Qed.

Lemma member_typeof v key :
  stringMember v key
  ↔ ∃ x, Auth.member v key = Some x ∧ Auth.typeof_string x = true.
Proof.
  unfold stringMember. split.
  - intros [s E]. exists (Some (JString s)). done.
  - intros (x & E & [s ->]%typeof_string_spec). eauto.
Qed.

(** The [try] block of [loadStoredTokens] on a parsed value. *)
Lemma loadStoredTokens_run b :
  Auth.loadStoredTokens b =
    match Browser.localStorage b !! Auth.TOKEN_STORAGE_KEY with
    | None => (Ret None, [], b)
    | Some text =>
        if negb (JS.truthy text) then (Ret None, [], b)
        else match JSON_parse text with
             | None => (Ret None, [ConsoleWarn], b)
             | Some v =>
                 match Auth.member v "accessToken" with
                 | None => (Ret None, [ConsoleWarn], b)
                 | Some a =>
                     if Auth.typeof_string a then
                       match Auth.member v "refreshToken" with
                       | None => (Ret None, [ConsoleWarn], b)
                       | Some r =>
                           if Auth.typeof_string r then (Ret (Some v), [], b)
                           else (Ret None, [], b)
                       end
                     else (Ret None, [], b)
                 end
             end
    end.
Proof.
  unfold Auth.loadStoredTokens, Auth.member_or_throw. run_M.
  destruct (Browser.localStorage b !! Auth.TOKEN_STORAGE_KEY) as [text|];
    [|done].
  destruct (JS.truthy text); [|done]. run_M.
  destruct (JSON_parse text) as [v|]; [|done]. run_M.
  destruct (Auth.member v "accessToken") as [a|]; [|done]. run_M.
  destruct (Auth.typeof_string a); [|done]. run_M.
  destruct (Auth.member v "refreshToken") as [r|]; [|done]. run_M.
  destruct (Auth.typeof_string r); done.
Qed.
End LoadStored.

(** C10. [loadStoredTokens] always returns (it neither throws nor runs
    forever) and changes nothing. It returns [null] when nothing is stored,
    when the stored text does not parse, and when the parsed value has an
    [accessToken] or a [refreshToken] that is not a string. What it returns
    otherwise is the parsed value, whose [accessToken] and [refreshToken]
    are both strings; and a non-empty stored text that parses to such a
    value is returned. *)
Theorem stored_tokens_load_total `{Host} (b : Browser.t) :
  let run := Auth.loadStoredTokens b in
  let stored := Browser.localStorage b !! Auth.TOKEN_STORAGE_KEY in
  (∃ result, run.1.1 = Ret result)
  ∧ run.2 = b
  ∧ (stored = None → run.1.1 = Ret None)
  ∧ (∀ text, stored = Some text → JSON_parse text = None → run.1.1 = Ret None)
  ∧ (∀ text v, stored = Some text → JSON_parse text = Some v →
       ¬ stringMember v "accessToken" ∨ ¬ stringMember v "refreshToken" →
       run.1.1 = Ret None)
  ∧ (∀ v, run.1.1 = Ret (Some v) →
       stringMember v "accessToken" ∧ stringMember v "refreshToken"
       ∧ ∃ text, stored = Some text ∧ JSON_parse text = Some v)
  ∧ (∀ text v, stored = Some text → text ≠ "" → JSON_parse text = Some v →
       stringMember v "accessToken" → stringMember v "refreshToken" →
       run.1.1 = Ret (Some v)).
Proof.
  intros run stored. subst run stored. rewrite loadStoredTokens_run.
  split.
  { repeat case_match; eauto. }
  split.
  { repeat case_match; done. }
  split.
  { by intros ->. }
  split.
  { intros text -> ->. by destruct (JS.truthy text). }
  split.
  { intros text v -> -> Hn.
    destruct (JS.truthy text); [|done]. cbn [negb].
    destruct (Auth.member v "accessToken") as [x|] eqn:Ea; [|done].
    destruct (Auth.typeof_string x) eqn:Ta; [|done].
    destruct (Auth.member v "refreshToken") as [y|] eqn:Er; [|done].
    destruct (Auth.typeof_string y) eqn:Tr; [|done].
    exfalso. destruct Hn as [Hn|Hn]; apply Hn, member_typeof; eauto. }
  split.
  { intros v.
    destruct (Browser.localStorage b !! Auth.TOKEN_STORAGE_KEY) as [text|];
      [|done].
    destruct (JS.truthy text); [|done]. cbn [negb].
    destruct (JSON_parse text) as [v'|] eqn:Ep; [|done].
    destruct (Auth.member v' "accessToken") as [x|] eqn:Ea; [|done].
    destruct (Auth.typeof_string x) eqn:Ta; [|done].
    destruct (Auth.member v' "refreshToken") as [y|] eqn:Er; [|done].
    destruct (Auth.typeof_string y) eqn:Tr; [|done].
    intros [= <-].
    split; [apply member_typeof; eauto|].
    split; [apply member_typeof; eauto|]. eauto. }
  intros text v -> Hne -> [x Hx] [y Hy].
  apply truthy_nonempty in Hne. rewrite Hne. cbn [negb].
  rewrite Hx. cbn [Auth.typeof_string]. rewrite Hy. done.
Qed.

Lemma stored_tokens_load_total_witness :
  let H := Reference.host StorageExamples.table in
  (Auth.loadStoredTokens (StorageExamples.holding StorageExamples.goodText)).1.1
  = Ret (Some StorageExamples.good)
  ∧ (Auth.loadStoredTokens (StorageExamples.holding StorageExamples.oddText)).1.1
    = Ret None
  ∧ (Auth.loadStoredTokens (StorageExamples.holding "not json")).1.1 = Ret None
  ∧ (Auth.loadStoredTokens (Browser.mk ∅ ∅ 0 0 0)).1.1 = Ret None.
Proof.
  intros H.
  pose proof (λ b, @stored_tokens_load_total H b) as P. cbv zeta in P.
  split.
  { destruct (P (StorageExamples.holding StorageExamples.goodText))
      as (_ & _ & _ & _ & _ & _ & Q).
    apply (Q StorageExamples.goodText); try reflexivity; try discriminate.
    - exists "a". reflexivity.
    - exists "r". reflexivity. }
  split.
  { destruct (P (StorageExamples.holding StorageExamples.oddText))
      as (_ & _ & _ & _ & Q & _).
    apply (Q StorageExamples.oddText StorageExamples.odd); try reflexivity.
    right. intros [s Hs]. discriminate Hs. }
  split.
  { destruct (P (StorageExamples.holding "not json")) as (_ & _ & _ & Q & _).
    apply (Q "not json"); reflexivity. }
  destruct (P (Browser.mk ∅ ∅ 0 0 0)) as (_ & _ & Q & _).
  apply Q. reflexivity.
Defined.

(** ** Batched playlist writes *)

Section ChunkFacts.
Context {T : Type}.
Import App.

Lemma slice_take_drop (source : list T) i n :
  slice source i (i + n) = take n (drop i source).
Proof. unfold slice. f_equal. lia. Qed.

(** The loop from position [i] on: the chunks it appends cover the rest
    of the source, each is full except possibly the last, none is empty. *)
Lemma chunkLoop_spec (source : list T) n :
  (0 < n)%nat →
  ∀ fuel i output,
    (length source - i ≤ fuel)%nat →
    ∃ chunks,
      chunkLoop fuel source n i output = Some (output ++ chunks)
      ∧ concat chunks = drop i source
      ∧ Forall (λ ch, (0 < length ch ≤ n)%nat) chunks
      ∧ (∀ k ch, chunks !! k = Some ch → (S k < length chunks)%nat →
                 length ch = n)
      ∧ ((length source ≤ i)%nat → chunks = []).
Proof.
  intros Hn fuel. induction fuel as [|fuel IH]; intros i output Hfuel.
  - exists []. simpl.
    destruct (Nat.ltb_spec i (length source)); [lia|].
    rewrite app_nil_r, drop_ge by lia. repeat split; auto. intros ??. done.
  - simpl. destruct (Nat.ltb_spec i (length source)) as [Hi|Hi].
    + destruct (IH (i + n)%nat (output ++ [slice source i (i + n)]))
        as (chunks & E & Hc & Hall & Hfull & Hnil); [lia|].
      exists (slice source i (i + n) :: chunks).
      rewrite E, <- app_assoc. split; [done|].
      rewrite slice_take_drop in *.
      split; [|split; [|split]].
      * simpl. rewrite Hc, <- drop_drop. apply take_drop.
      * constructor; [|done].
        rewrite length_take, length_drop. lia.
      * intros [|k] ch Hk Hlen; simpl in *.
        -- injection Hk as <-.
           rewrite length_take, length_drop.
           destruct (decide (length source ≤ i + n)%nat) as [Hle|Hgt]; [|lia].
           rewrite (Hnil Hle) in Hlen. simpl in Hlen. lia.
        -- apply (Hfull k); [done|lia].
      * lia.
    + exists []. rewrite app_nil_r, drop_ge by lia.
      repeat split; auto. intros ??. done.
Qed.

Lemma chunkArray_spec (source : list T) n :
  (0 < n)%nat →
  ∃ chunks,
    chunkArray source n = Some chunks
    ∧ concat chunks = source
    ∧ Forall (λ ch, (0 < length ch ≤ n)%nat) chunks
    ∧ ∀ k ch, chunks !! k = Some ch → (S k < length chunks)%nat →
              length ch = n.
Proof.
  intros Hn.
  destruct (chunkLoop_spec source n Hn (length source) 0 [])
    as (chunks & E & Hc & Hall & Hfull & _); [lia|].
  exists chunks. rewrite drop_0 in Hc. auto.
Qed.

Lemma chunkLoop_step fuel (source : list T) n i output :
  (i < length source)%nat →
  chunkLoop (S fuel) source n i output
  = chunkLoop fuel source n (i + n) (output ++ [slice source i (i + n)]).
Proof.
  intros Hi. cbn [chunkLoop].
  destruct (Nat.ltb_spec i (length source)); [done|lia].
Qed.

Lemma chunkLoop_stop fuel (source : list T) n i output :
  (length source ≤ i)%nat → chunkLoop fuel source n i output = Some output.
Proof.
  intros Hi. destruct fuel; cbn [chunkLoop];
    destruct (Nat.ltb_spec i (length source)); done || lia.
Qed.

End ChunkFacts.

Section PostChunks.
Context `{Host} {St : Type}.
Context (client_post : string → json → M St (option json)).
Import App.


(** Batches that all succeed are sent one after the other, each from
    the state the previous one left. *)
Lemma postChunks_success createdId chunk rest s x ev s' :
  client_post (tracksEndpoint createdId) (urisBody chunk) s = (Ret x, ev, s') →
  postChunks client_post createdId (chunk :: rest) s
  = let '(o, ev', s'') := postChunks client_post createdId rest s' in
    (o, ev ++ ev', s'').
Proof.
  intros E. simpl. unfold mbind, M_bind.
  unfold tracksEndpoint in E. by rewrite E.
Qed.
End PostChunks.






(** ** Paginated track fetch *)

Section Pagination.
Context `{Host} {St : Type} (client_get : string → M St TracksPage.t).
Context (playlistId : string).
Import App.

Lemma toRow_emitted index item :
  emitted item = false ↔ toRow playlistId index item = None.
Proof.
  unfold emitted, toRow.
  destruct (TrackItem.track item) as [track|]; [|done].
  destruct (SpotifyTrack.uri track) as [uri|]; [|done].
  simpl. by destruct (JS.truthy uri).
Qed.

Lemma toRow_fields index item row :
  toRow playlistId index item = Some row →
  TrackRow.originalIndex row = Z.of_nat index
  ∧ TrackRow.addedAt row = TrackItem.added_at item
  ∧ ∃ track, TrackItem.track item = Some track
             ∧ SpotifyTrack.uri track = Some (TrackRow.uri row)
             ∧ TrackRow.uri row ≠ ""
             ∧ TrackRow.name row = SpotifyTrack.name track.
Proof.
  unfold toRow.
  destruct (TrackItem.track item) as [track|]; [|done].
  destruct (SpotifyTrack.uri track) as [uri|] eqn:Eu; [|done].
  destruct (JS.truthy uri) eqn:Et; [|done]. simpl.
  intros [= <-]. simpl. split; [done|]. split; [done|].
  exists track. repeat split; try done. by apply truthy_nonempty.
Qed.

(** One page: the kept items become rows, in order, numbered from
    [index] on without gaps. *)
Lemma collectItems_spec items index collected :
  ∃ rows,
    collectItems playlistId items index collected
    = ((index + length rows)%nat, collected ++ rows)
    ∧ Forall2 (λ row item, ∃ k, toRow playlistId k item = Some row)
        rows (filter (λ item, emitted item = true) items)
    ∧ TrackRow.originalIndex <$> rows = Z.of_nat <$> seq index (length rows).
Proof.
  revert index collected.
  induction items as [|item items IH]; intros index collected.
  - exists []. simpl. rewrite Nat.add_0_r, app_nil_r. repeat split.
    constructor.
  - simpl. destruct (toRow playlistId index item) as [row|] eqn:Er.
    + destruct (IH (index + 1)%nat (collected ++ [row]))
        as (rows & E & Hf & Hi).
      exists (row :: rows). rewrite E, <- app_assoc. cbn [length app].
      split; [f_equal; lia|].
      assert (emitted item = true) as He.
      { destruct (emitted item) eqn:He; [done|].
        apply (toRow_emitted index) in He. congruence. }
      rewrite filter_cons_True by done.
      split; [constructor; eauto|].
      destruct (toRow_fields _ _ _ Er) as (Hidx & _).
      rewrite Nat.add_1_r in Hi. cbn [seq]. rewrite !fmap_cons.
      by rewrite Hidx, Hi.
    + destruct (IH index collected) as (rows & E & Hf & Hi).
      exists rows. rewrite E. split; [done|].
      apply (toRow_emitted index) in Er.
      rewrite filter_cons_False by (rewrite Er; done). done.
Qed.

Lemma collectItems_app xs ys index collected :
  collectItems playlistId (xs ++ ys) index collected
  = collectItems playlistId ys
      (collectItems playlistId xs index collected).1
      (collectItems playlistId xs index collected).2.
Proof.
  revert index collected. induction xs as [|x xs IH]; intros; simpl; [done|].
  destruct (toRow playlistId index x); apply IH.
Qed.

(** One turn of the [while] loop on a page that was received. *)
Lemma collectLoop_page fuel url index collected s page ev s' :
  JS.truthy_opt url = true →
  client_get (default "" url) s = (Ret page, ev, s') →
  collectLoop client_get (S fuel) playlistId url index collected s =
    match followNext page with
    | Some url' =>
        let '(o, ev', s'') :=
          collectLoop client_get fuel playlistId url'
            (collectItems playlistId (TracksPage.items page) index collected).1
            (collectItems playlistId (TracksPage.items page) index collected).2
            s' in
        (o, ev ++ ev', s'')
    | None => (Throw InvalidURL, ev, s')
    end.
Proof.
  intros Hu Hg. cbn [collectLoop]. rewrite Hu.
  unfold mbind, M_bind. rewrite Hg. unfold followNext.
  destruct (collectItems playlistId (TracksPage.items page) index collected)
    as [index' collected'].
  cbn [fst snd].
  destruct (negb (JS.truthy_opt (TracksPage.next page))); [done|].
  destruct (URL_path_search _); [done|].
  unfold throw. by rewrite app_nil_r.
Qed.

Lemma collectLoop_end fuel url index collected s :
  JS.truthy_opt url = false →
  collectLoop client_get fuel playlistId url index collected s
  = (Ret collected, [], s).
Proof. intros Hu. destruct fuel; simpl; by rewrite Hu. Qed.
Lemma allItems_cons page pages :
  allItems (page :: pages) = TracksPage.items page ++ allItems pages.
Proof. done. Qed.

(** What the server delivers is what the loop returns. *)
Lemma collectLoop_delivers url s pages ev s' :
  delivers client_get url s pages ev s' →
  ∀ fuel index collected,
    (length pages ≤ fuel)%nat →
    collectLoop client_get fuel playlistId url index collected s
    = (Ret (collectItems playlistId (allItems pages) index collected).2, ev, s').
Proof.
  induction 1 as [url s Hu|url s page ev s' url' pages ev' s'' Hu Hg Hn _ IH];
    intros fuel index collected Hfuel.
  - by apply collectLoop_end.
  - destruct fuel as [|fuel]; [simpl in Hfuel; lia|].
    rewrite (collectLoop_page _ _ _ _ _ _ _ _ Hu Hg), Hn.
    rewrite IH by (simpl in Hfuel; lia).
    by rewrite allItems_cons, collectItems_app.
Qed.

(** A loop that returns was delivered a chain of pages. *)
Lemma collectLoop_returns fuel :
  ∀ url index collected s rows ev s',
    collectLoop client_get fuel playlistId url index collected s
    = (Ret rows, ev, s') →
    ∃ pages,
      delivers client_get url s pages ev s'
      ∧ rows = (collectItems playlistId (allItems pages) index collected).2
      ∧ (length pages ≤ fuel)%nat.
Proof.
  induction fuel as [|fuel IH]; intros url index collected s rows ev s'.
  - simpl. destruct (JS.truthy_opt url) eqn:Hu; [done|].
    intros [= <- <- <-]. exists []. split; [by constructor|]. done.
  - destruct (JS.truthy_opt url) eqn:Hu.
    2:{ rewrite collectLoop_end by done. intros [= <- <- <-].
        exists []. split; [by constructor|]. split; [done|simpl; lia]. }
    destruct (client_get (default "" url) s) as [[[page|e|] ev1] s1] eqn:Hg.
    + rewrite (collectLoop_page _ _ _ _ _ _ _ _ Hu Hg).
      destruct (followNext page) as [url'|] eqn:Hn; [|done].
      destruct (collectLoop client_get fuel playlistId url' _ _ s1)
        as [[o ev2] s2] eqn:E.
      intros [= -> <- <-].
      destruct (IH _ _ _ _ _ _ _ E) as (pages & Hd & -> & Hl).
      exists (page :: pages).
      split; [by eapply delivers_page|].
      split; [by rewrite allItems_cons, collectItems_app|simpl; lia].
    + cbn [collectLoop]. rewrite Hu. unfold mbind, M_bind. by rewrite Hg.
    + cbn [collectLoop]. rewrite Hu. unfold mbind, M_bind. by rewrite Hg.
Qed.

(** The chain ends at the first page without a next link, and only there. *)
Lemma delivers_continues url s pages ev s' :
  delivers client_get url s pages ev s' →
  ∀ k page, pages !! k = Some page →
    ((S k < length pages)%nat
     ↔ ∃ path, followNext page = Some (Some path) ∧ path ≠ "").
Proof.
  induction 1 as [url s Hu|url s page ev s' url' pages ev' s'' Hu Hg Hn Hd IH];
    intros k page' Hl; [done|].
  destruct k as [|k]; simpl in Hl.
  - injection Hl as <-. rewrite Hn. simpl.
    inversion Hd as [? ? Hu'|? ? ? ? ? ? ? ? ? Hu']; subst; simpl.
    + split; [lia|]. intros (path & [= ->] & Hp%truthy_nonempty).
      simpl in Hu'. congruence.
    + split; [|lia]. intros _. destruct url' as [path|]; [|done].
      exists path. split; [done|]. by apply truthy_nonempty.
  - rewrite <- (IH k page' Hl). simpl. lia.
Qed.

Lemma delivers_shape url s pages ev s' :
  delivers client_get url s pages ev s' →
  (∀ page link path,
     page ∈ pages → TracksPage.next page = Some link →
     URL_path_search link = Some path → path ≠ "") →
  JS.truthy_opt url = true →
  pages ≠ []
  ∧ ∀ k page, pages !! k = Some page →
      (JS.truthy_opt (TracksPage.next page) = true ↔ (S k < length pages)%nat).
Proof.
  intros Hd Hurl Ht.
  split; [inversion Hd; subst; [congruence|done]|].
  intros k page Hl.
  rewrite (delivers_continues _ _ _ _ _ Hd k page Hl).
  assert (page ∈ pages) as Hin by (by eapply list_elem_of_lookup_2).
  unfold followNext.
  destruct (TracksPage.next page) as [link|] eqn:Hnext; simpl.
  - destruct (JS.truthy link) eqn:Hlink; simpl.
    + split; [|done]. intros _.
      destruct (URL_path_search link) as [path|] eqn:Hp.
      * exists path. split; [done|]. by apply (Hurl page link path).
      * exfalso. revert Hl Hnext Hlink Hp. clear -Hd.
        revert k. induction Hd as [|url s page0 ev s' url' pages ev' s'' Hu Hg Hn Hd IH];
          intros k Hl Hnext Hlink Hp; [done|].
        destruct k as [|k]; simpl in Hl; [|by eapply IH].
        injection Hl as ->. unfold followNext in Hn.
        rewrite Hnext in Hn. simpl in Hn. by rewrite Hlink, Hp in Hn.
    + split; [done|]. by intros (path & [= <-] & ?).
  - split; [done|]. by intros (path & [= <-] & ?).
Qed.

Lemma fetchPlaylistTracks_delivers fuel playlist s pages ev s' :
  PlaylistSummary.id playlist = playlistId →
  delivers client_get (Some (tracksPath playlistId)) s pages ev s' →
  (length pages ≤ fuel)%nat →
  let rows := (collectItems playlistId (allItems pages) 0 []).2 in
  fetchPlaylistTracks client_get fuel playlist s
  = (Ret tt,
     SetIsLoadingTracks true
     :: ev ++ [SetTracks rows;
               SetBanner "info"
                 ("Đã tải " +:+ JS.string_of_nat (length rows)
                  +:+ " bài hát từ “" +:+ PlaylistSummary.name playlist
                  +:+ "”.");
               SetIsLoadingTracks false],
     s').
Proof.
  intros Hid Hd Hfuel rows. unfold fetchPlaylistTracks. rewrite Hid.
  unfold mbind at 1. unfold M_bind at 1. unfold emit at 1.
  unfold try_finally, try_catch.
  unfold mbind at 1. unfold M_bind at 1.
  rewrite (collectLoop_delivers _ _ _ _ _ Hd fuel 0%nat [] Hfuel).
  fold rows. unfold mbind, M_bind, emit.
  cbn [app]. rewrite <- !app_assoc. done.
Qed.

End Pagination.

(** C7. The track fetch requests one page after the other, following each
    page's next link: after a page it goes on exactly when the page's link
    parses to a path and query that is not empty, so that, the links of the
    pages delivered being URLs with a non-empty path, it returns exactly
    when it reaches a page whose next link is absent.
    The rows it collects are those of the single loop over the
    concatenation of the pages' items in the order received: items whose
    track is null or has no URI are skipped, the others become rows in the
    same order, and the [originalIndex] of the rows counts 0, 1, 2, ...
    without gaps or repetitions. *)
Theorem paginated_fetch_order `{Host} {St : Type}
    (client_get : string → M St TracksPage.t) (playlist : PlaylistSummary.t) :
  let playlistId := PlaylistSummary.id playlist in
  let rowsOf pages := (App.collectItems playlistId (allItems pages) 0 []).2 in
  (∀ items,
     let rows := (App.collectItems playlistId items 0 []).2 in
     Forall2 (λ row item,
                TrackRow.addedAt row = TrackItem.added_at item
                ∧ ∃ track, TrackItem.track item = Some track
                           ∧ SpotifyTrack.uri track = Some (TrackRow.uri row)
                           ∧ TrackRow.uri row ≠ ""
                           ∧ TrackRow.name row = SpotifyTrack.name track)
       rows (filter (λ item, emitted item = true) items)
     ∧ TrackRow.originalIndex <$> rows = Z.of_nat <$> seq 0 (length rows))
  ∧ (∀ s pages ev s' fuel,
       delivers client_get (Some (App.tracksPath playlistId)) s pages ev s' →
       (length pages ≤ fuel)%nat →
       App.collectLoop client_get fuel playlistId
         (Some (App.tracksPath playlistId)) 0 [] s
       = (Ret (rowsOf pages), ev, s')
       ∧ ∃ message,
           App.fetchPlaylistTracks client_get fuel playlist s
           = (Ret tt,
              SetIsLoadingTracks true
              :: ev ++ [SetTracks (rowsOf pages); SetBanner "info" message;
                        SetIsLoadingTracks false],
              s'))
  ∧ (∀ fuel s rows ev s',
       App.collectLoop client_get fuel playlistId
         (Some (App.tracksPath playlistId)) 0 [] s
       = (Ret rows, ev, s') →
       ∃ pages,
         delivers client_get (Some (App.tracksPath playlistId)) s pages ev s'
         ∧ rows = rowsOf pages)
  ∧ (∀ s pages ev s',
       delivers client_get (Some (App.tracksPath playlistId)) s pages ev s' →
       pages ≠ []
       ∧ (∀ k page, pages !! k = Some page →
            ((S k < length pages)%nat
             ↔ ∃ path, followNext page = Some (Some path) ∧ path ≠ ""))
       ∧ ((∀ page link path,
             page ∈ pages → TracksPage.next page = Some link →
             URL_path_search link = Some path → path ≠ "") →
          ∀ k page, pages !! k = Some page →
            (JS.truthy_opt (TracksPage.next page) = true
             ↔ (S k < length pages)%nat))).
Proof.
  intros playlistId rowsOf.
  split.
  { intros items rows. subst rows.
    destruct (collectItems_spec playlistId items 0 []) as (rows & E & Hf & Hi).
    rewrite E. cbn [snd app]. split; [|done].
    eapply Forall2_impl; [exact Hf|].
    intros row item [k Hk]. cbv beta.
    by destruct (toRow_fields _ _ _ _ Hk) as (_ & ? & ?). }
  split.
  { intros s pages ev s' fuel Hd Hfuel.
    split; [by apply collectLoop_delivers|].
    eexists. by apply (fetchPlaylistTracks_delivers client_get playlistId). }
  split.
  { intros fuel s rows ev s' E.
    destruct (collectLoop_returns client_get playlistId fuel _ _ _ _ _ _ _ E)
      as (pages & Hd & -> & _). eauto. }
  intros s pages ev s' Hd.
  split; [inversion Hd; subst; [done|done]|].
  split; [exact (delivers_continues client_get _ _ _ _ _ Hd)|].
  intros Hurl.
  by apply (delivers_shape client_get _ _ _ _ _ Hd Hurl).
Qed.

Lemma paginated_fetch_order_witness :
  let H := Reference.host [] in
  App.collectLoop FetchExamples.server 2 "p1" (Some (App.tracksPath "p1")) 0 [] 0%nat
  = (Ret FetchExamples.rows, [], 2%nat)
  ∧ TrackRow.uri <$> FetchExamples.rows = ["u1"; "u2"; "u3"]
  ∧ TrackRow.originalIndex <$> FetchExamples.rows = [0; 1; 2]
  ∧ (JS.truthy_opt (TracksPage.next FetchExamples.page1) = true
     ↔ (1 < 2)%nat)
  ∧ (JS.truthy_opt (TracksPage.next FetchExamples.page2) = true
     ↔ (2 < 2)%nat).
Proof.
  intros H.
  destruct (@paginated_fetch_order H nat FetchExamples.server
              FetchExamples.playlist) as (_ & P & _ & Q).
  assert (delivers FetchExamples.server (Some (App.tracksPath "p1")) 0%nat
            [FetchExamples.page1; FetchExamples.page2] [] 2%nat) as Hd.
  { eapply (delivers_page _ _ _ FetchExamples.page1 [] 1%nat _ _ []);
      [reflexivity..|].
    eapply (delivers_page _ _ _ FetchExamples.page2 [] 2%nat _ _ []);
      [reflexivity..|].
    by apply delivers_end. }
  destruct (P 0%nat [FetchExamples.page1; FetchExamples.page2] [] 2%nat 2%nat
              Hd) as (E & _).
  { simpl. lia. }
  destruct (Q 0%nat [FetchExamples.page1; FetchExamples.page2] [] 2%nat Hd)
    as (_ & _ & Last).
  assert (∀ page link path,
            page ∈ [FetchExamples.page1; FetchExamples.page2] →
            TracksPage.next page = Some link →
            URL_path_search link = Some path → path ≠ "") as Hlinks.
  { intros page link path [->|[->|[]%elem_of_nil]%elem_of_cons]%elem_of_cons.
    - intros [= <-] [= <-]. discriminate.
    - discriminate. }
  split; [exact E|]. split; [reflexivity|]. split; [reflexivity|].
  split.
  - exact (Last Hlinks 0%nat FetchExamples.page1 eq_refl).
  - exact (Last Hlinks 1%nat FetchExamples.page2 eq_refl).
Defined.

(** * Further properties of the sources *)

(** ** Login initiation *)

Section StringFacts.
Import PlaylistInput Login.

Lemma length_string_of_list (l : list ascii) :
  String.length (String.string_of_list_ascii l) = length l.
Proof. induction l as [|c l IH]; simpl; [done|]. by rewrite IH. Qed.

Lemma allChars_string_of_list (p : ascii → bool) (l : list ascii) :
  Forall (λ c, p c = true) l →
  allChars p (String.string_of_list_ascii l) = true.
Proof. induction 1 as [|c l Hc _ IH]; simpl; [done|]. by rewrite Hc, IH. Qed.

Lemma allChars_impl (p q : ascii → bool) s :
  (∀ c, p c = true → q c = true) → allChars p s = true → allChars q s = true.
Proof.
  intros Hpq. induction s as [|c s IH]; simpl; [done|].
  intros [Hc Hs]%andb_true_iff. by rewrite (Hpq c Hc), IH.
Qed.

Lemma allChars_app (p : ascii → bool) s1 s2 :
  allChars p (s1 +:+ s2) = allChars p s1 && allChars p s2.
Proof.
  induction s1 as [|c s1 IH]; simpl; [done|]. by rewrite IH, andb_assoc.
Qed.

Lemma base62At_alnum x : isAlnum (base62At x) = true.
Proof.
  unfold base62At.
  pose proof (Nat.mod_upper_bound x (String.length base62)) as Hk.
  set (k := (x mod String.length base62)%nat) in *.
  change (String.length base62) with 62%nat in Hk.
  assert (k < 62)%nat as Hlt by (apply Hk; lia). clear Hk.
  do 62 (destruct k as [|k]; [reflexivity|]). lia.
Qed.

Lemma allChars_replaceChar (p : ascii → bool) c d s :
  p d = true →
  allChars (λ x, p x || Ascii.eqb x c) s = true →
  allChars p (replaceChar c d s) = true.
Proof.
  intros Hd. induction s as [|x s IH]; simpl; [done|].
  intros [Hx Hs]%andb_true_iff. rewrite (IH Hs), andb_true_r.
  destruct (Ascii.eqb x c); [done|]. by rewrite orb_false_r in Hx.
Qed.

Lemma replaceChar_app c d s1 s2 :
  replaceChar c d (s1 +:+ s2) = replaceChar c d s1 +:+ replaceChar c d s2.
Proof.
  induction s1 as [|x s1 IH]; [done|].
  change (replaceChar c d (String x s1 +:+ s2))
    with (String (if Ascii.eqb x c then d else x) (replaceChar c d (s1 +:+ s2))).
  by rewrite IH.
Qed.

Lemma replaceChar_absent c d s :
  allChars (λ x, negb (Ascii.eqb x c)) s = true → replaceChar c d s = s.
Proof.
  induction s as [|x s IH]; simpl; [done|].
  intros [Hx Hs]%andb_true_iff. rewrite (IH Hs).
  by destruct (Ascii.eqb x c).
Qed.

Lemma length_replaceChar c d s :
  String.length (replaceChar c d s) = String.length s.
Proof. induction s as [|x s IH]; simpl; [done|]. by rewrite IH. Qed.

Lemma allChars_stripTrailing (p : ascii → bool) c s :
  allChars p s = true → allChars p (stripTrailing c s) = true.
Proof.
  induction s as [|x s IH]; simpl; [done|].
  intros [Hx Hs]%andb_true_iff. specialize (IH Hs).
  destruct (stripTrailing c s) as [|y kept].
  - destruct (Ascii.eqb x c); simpl; [done|]. by rewrite Hx.
  - simpl in *. by rewrite Hx, IH.
Qed.

Lemma lastChar_stripTrailing c s : lastChar (stripTrailing c s) ≠ Some c.
Proof.
  induction s as [|x s IH]; simpl; [done|].
  destruct (stripTrailing c s) as [|y kept].
  - destruct (Ascii.eqb_spec x c); simpl; [done|]. congruence.
  - exact IH.
Qed.

(** Stripping removes a trailing run of [c] and nothing else. *)
Lemma stripTrailing_padding c body pad :
  lastChar body ≠ Some c →
  allChars (λ x, Ascii.eqb x c) pad = true →
  stripTrailing c (body +:+ pad) = body.
Proof.
  intros Hlast Hpad.
  assert (stripTrailing c pad = EmptyString) as Hp.
  { induction pad as [|x pad IH]; simpl in *; [done|].
    apply andb_true_iff in Hpad as [Hx Hs]. by rewrite (IH Hs), Hx. }
  induction body as [|x body IH]; [done|].
  change (stripTrailing c (String x body +:+ pad))
    with (match stripTrailing c (body +:+ pad) with
          | EmptyString =>
              if Ascii.eqb x c then EmptyString else String x EmptyString
          | kept => String x kept
          end).
  destruct body as [|y body].
  - rewrite IH by done.
    destruct (Ascii.eqb_spec x c); [simpl in Hlast; congruence|done].
  - rewrite IH by done. done.
Qed.
End StringFacts.

Lemma generateRandomString_length (entropy : nat → nat) (n : nat) :
  String.length (Login.generateRandomString entropy n) = n.
Proof.
  unfold Login.generateRandomString.
  by rewrite length_string_of_list, length_fmap, length_seq.
Qed.

Lemma generateRandomString_alnum (entropy : nat → nat) (n : nat) :
  PlaylistInput.allChars PlaylistInput.isAlnum
    (Login.generateRandomString entropy n) = true.
Proof.
  unfold Login.generateRandomString.
  apply allChars_string_of_list, Forall_fmap, Forall_forall.
  intros i _. apply base62At_alnum.
Qed.

(** X1. [generateRandomString(length)] returns exactly [length] characters,
    each of them a letter or a digit, whatever bytes the random source
    delivers. *)
Theorem random_string_length_alphabet (entropy : nat → nat) (n : nat) :
  String.length (Login.generateRandomString entropy n) = n
  ∧ PlaylistInput.allChars PlaylistInput.isAlnum
      (Login.generateRandomString entropy n) = true.
Proof.
  split; [apply generateRandomString_length|apply generateRandomString_alnum].
Qed.

(** X2. [base64UrlEncode] never returns a [+] or a [/] and its result never
    ends with [=]. When [btoa] returns base64 text, that is base64
    characters followed by padding, the result is that text without the
    padding, in the URL-safe alphabet, of the same length as the unpadded
    text. *)
Theorem base64url_is_url_safe `{Crypto} (buffer : list nat) :
  PlaylistInput.allChars notBase64Special (Login.base64UrlEncode buffer) = true
  ∧ lastChar (Login.base64UrlEncode buffer) ≠ Some "="%char
  ∧ ∀ body pad,
      btoa buffer = body +:+ pad →
      PlaylistInput.allChars isBase64Char body = true →
      PlaylistInput.allChars (λ x, Ascii.eqb x "="%char) pad = true →
      Login.base64UrlEncode buffer
      = Login.replaceChar "/"%char "_"%char
          (Login.replaceChar "+"%char "-"%char body)
      ∧ PlaylistInput.allChars isUrlSafeChar (Login.base64UrlEncode buffer) = true
      ∧ String.length (Login.base64UrlEncode buffer) = String.length body.
Proof.
  unfold Login.base64UrlEncode.
  split; [|split; [apply lastChar_stripTrailing|]].
  - apply allChars_stripTrailing.
    apply (allChars_impl
             (λ x, negb (Ascii.eqb x "/"%char) && negb (Ascii.eqb x "+"%char))).
    { intros c [H1 H2]%andb_true_iff. unfold notBase64Special.
      by rewrite H1, H2. }
    induction (btoa buffer) as [|x s IH]; simpl; [done|].
    rewrite IH, andb_true_r.
    destruct (Ascii.eqb x "+"%char) eqn:E1; [reflexivity|].
    destruct (Ascii.eqb x "/"%char) eqn:E2; [reflexivity|].
    by rewrite E1, E2.
  - intros body pad -> Hbody Hpad.
    set (clean := Login.replaceChar "/"%char "_"%char
                    (Login.replaceChar "+"%char "-"%char body)).
    assert (PlaylistInput.allChars isUrlSafeChar clean = true) as Hclean.
    { subst clean. apply allChars_replaceChar; [done|].
      apply (allChars_replaceChar
               (λ x, isUrlSafeChar x || Ascii.eqb x "/"%char)); [done|].
      eapply allChars_impl; [|exact Hbody].
      intros c. unfold isBase64Char, isUrlSafeChar.
      destruct (PlaylistInput.isAlnum c); [done|]. simpl.
      destruct (Ascii.eqb_spec c "/"%char) as [->|]; [done|].
      destruct (Ascii.eqb_spec c "+"%char) as [->|]; [done|].
      intros [Hp|Hs]%orb_true_iff.
      - apply Nat.eqb_eq in Hp. exfalso.
        assert (c = ascii_of_nat 43) as -> by (by rewrite <- Hp, ascii_nat_embedding).
        done.
      - apply Nat.eqb_eq in Hs. exfalso.
        assert (c = ascii_of_nat 47) as -> by (by rewrite <- Hs, ascii_nat_embedding).
        done. }
    assert (Login.replaceChar "/"%char "_"%char
              (Login.replaceChar "+"%char "-"%char (body +:+ pad))
            = clean +:+ pad) as ->.
    { subst clean. rewrite !replaceChar_app.
      rewrite (replaceChar_absent "+"%char "-"%char pad).
      - rewrite (replaceChar_absent "/"%char "_"%char pad); [done|].
        eapply allChars_impl; [|exact Hpad].
        by intros c ->%Ascii.eqb_eq.
      - eapply allChars_impl; [|exact Hpad].
        by intros c ->%Ascii.eqb_eq. }
    rewrite stripTrailing_padding; [| |done].
    + split; [done|]. split; [done|].
      subst clean. by rewrite !length_replaceChar.
    + clear -Hclean. induction clean as [|x s IH]; simpl in *; [done|].
      apply andb_true_iff in Hclean as [Hx Hs].
      destruct s as [|y s]; [|by apply IH].
      intros [= ->]. done.
Qed.

Lemma base64url_is_url_safe_witness :
  Login.base64UrlEncode (H := LoginInputs.crypto) [1; 2; 3]%nat = "ab-_cd"
  ∧ PlaylistInput.allChars isUrlSafeChar
      (Login.base64UrlEncode (H := LoginInputs.crypto) [1; 2; 3]%nat) = true.
Proof.
  destruct (@base64url_is_url_safe LoginInputs.crypto [1; 2; 3]%nat)
    as (_ & _ & P).
  destruct (P "ab+/cd" "==") as (E & S & _); try reflexivity.
  split; [exact E|exact S].
Defined.

(** ** Authorization: what is sent, and when *)

Section Authorization.
Context `{Host} (env : Env.t).

Lemma generateRandomString_truthy entropy n :
  JS.truthy (Login.generateRandomString entropy (S n)) = true.
Proof. done. Qed.

(** Either nothing is sent and nothing changes, or exactly the exchange
    request is sent, and then the stored state is the returned one. *)
Lemma completeAuthorization_sends code returnedState b :
  let run := Auth.completeAuthorization env code returnedState b in
  (∃ e, run = (Throw e, [], b)
        ∧ (e = InvalidAuthState ∨ e = MissingCodeVerifier
           ∨ ∃ name, e = MissingEnv name))
  ∨ ∃ clientId redirectUri verifier,
      run.1.2 = [TokenRequest
                   (exchangeForm code redirectUri clientId verifier)]
      ∧ Env.CLIENT_ID env = Some clientId
      ∧ Env.REDIRECT_URI env = Some redirectUri
      ∧ Browser.sessionStorage b !! Auth.STATE_KEY = Some returnedState
      ∧ returnedState ≠ ""
      ∧ Browser.sessionStorage b !! Auth.CODE_VERIFIER_KEY = Some verifier
      ∧ verifier ≠ "".
Proof.
  cbv zeta. unfold Auth.completeAuthorization. run_M.
  destruct (Env.CLIENT_ID env) as [cid|]; run_M;
    [destruct (JS.truthy cid); run_M|]; try (left; eauto 10; fail).
  destruct (Env.REDIRECT_URI env) as [uri|]; run_M;
    [destruct (JS.truthy uri); run_M|]; try (left; eauto 10; fail).
  destruct (Browser.sessionStorage b !! Auth.STATE_KEY) as [stored|] eqn:Es;
    run_M; [|left; eauto 10].
  destruct (JS.truthy stored) eqn:Et; run_M; [|left; eauto 10].
  case_bool_decide as Hd; run_M; [|left; eauto 10].
  injection Hd as <-.
  destruct (Browser.sessionStorage b !! Auth.CODE_VERIFIER_KEY)
    as [verifier|] eqn:Ev; run_M; [|left; eauto 10].
  destruct (JS.truthy verifier) eqn:Etv; run_M; [|left; eauto 10].
  right. exists cid, uri, verifier.
  apply truthy_nonempty in Et. apply truthy_nonempty in Etv.
  split; [|by repeat split].
  destruct (Env.tokenEndpoint env _) as [[[data|]|status [[err|]|]]|]; run_M;
    try done.
  pose proof (buildTokenSet_cases env data None (Browser.countTokenCall b)) as Hc.
  cbv zeta in Hc.
  destruct (TokenEndpointResponse.refresh_token data) as [r|];
    [destruct (JS.truthy r)|]; rewrite Hc; run_M; done.
Qed.
End Authorization.

(** X3. The authorization code is exchanged only when the state returned
    by the provider is the stored one: whenever [completeAuthorization]
    contacts the token endpoint, the stored state equals the returned
    state, is not empty, a non-empty verifier is stored, and the only
    request made is the exchange carrying that verifier. In every other
    case (another returned state, no stored state or an empty one, no
    stored verifier or an empty one) and, more generally, whenever no
    token request is made, it throws without sending anything and without
    changing the browser. *)
Theorem code_exchanged_only_for_stored_state `{Host} (env : Env.t)
    (code returnedState : string) (b : Browser.t) :
  let run := Auth.completeAuthorization env code returnedState b in
  let matching :=
    Browser.sessionStorage b !! Auth.STATE_KEY = Some returnedState
    ∧ returnedState ≠ ""
    ∧ ∃ verifier,
        Browser.sessionStorage b !! Auth.CODE_VERIFIER_KEY = Some verifier
        ∧ verifier ≠ "" in
  (tokenRequests run.1.2 ≠ [] →
     Browser.sessionStorage b !! Auth.STATE_KEY = Some returnedState
     ∧ returnedState ≠ ""
     ∧ ∃ clientId redirectUri verifier,
         Browser.sessionStorage b !! Auth.CODE_VERIFIER_KEY = Some verifier
         ∧ verifier ≠ ""
         ∧ run.1.2 = [TokenRequest
                        [("grant_type", "authorization_code"); ("code", code);
                         ("redirect_uri", redirectUri);
                         ("client_id", clientId);
                         ("code_verifier", verifier)]])
  ∧ (¬ matching → run.1.2 = [] ∧ run.2 = b ∧ ∃ e, run.1.1 = Throw e)
  ∧ (tokenRequests run.1.2 = [] →
     run.1.2 = [] ∧ run.2 = b ∧ ∃ e, run.1.1 = Throw e).
Proof.
  intros run matching. subst matching.
  destruct (completeAuthorization_sends env code returnedState b)
    as [(e & E & _)|(cid & uri & v & Ev & _ & _ & Hs & Hne & Hv & Hvne)];
    fold run in E || fold run in Ev.
  - rewrite E. cbn [fst snd tokenRequests]. split; [done|].
    split; intros _; (split; [done|]; split; [done|]; by exists e).
  - split; [intros _; split; [done|]; split; [done|]; eauto 10|].
    split.
    + intros Hnot. destruct Hnot. eauto.
    + rewrite Ev. done.
Qed.

Lemma code_exchanged_only_for_stored_state_witness :
  let H := Reference.host [] in
  let forged := Auth.completeAuthorization LoginExamples.granting "code-1"
                  "forged" LoginExamples.pending in
  let genuine := Auth.completeAuthorization LoginExamples.granting "code-1"
                   "state-1" LoginExamples.pending in
  let unverified := Browser.mk ∅ {[Auth.STATE_KEY := "state-1"]} 0 0 0 in
  let bare := Auth.completeAuthorization LoginExamples.granting "code-1"
                "state-1" unverified in
  (forged.1.2 = [] ∧ forged.2 = LoginExamples.pending)
  ∧ (bare.1.2 = [] ∧ bare.2 = unverified)
  ∧ genuine.1.2
    = [TokenRequest [("grant_type", "authorization_code"); ("code", "code-1");
                     ("redirect_uri", "https://app.test/callback");
                     ("client_id", "client-id");
                     ("code_verifier", "verifier-1")]].
Proof.
  intros H forged genuine unverified bare. split; [|split].
  - destruct (code_exchanged_only_for_stored_state LoginExamples.granting
                "code-1" "forged" LoginExamples.pending) as (_ & P & _).
    destruct P as (E & S & _); [|split; [exact E|exact S]].
    intros (Hs & _). discriminate.
  - destruct (code_exchanged_only_for_stored_state LoginExamples.granting
                "code-1" "state-1" unverified) as (_ & P & _).
    destruct P as (E & S & _); [|split; [exact E|exact S]].
    intros (_ & _ & v & Hv & _). discriminate.
  - destruct (code_exchanged_only_for_stored_state LoginExamples.granting
                "code-1" "state-1" LoginExamples.pending) as (P & _).
    destruct P as (_ & _ & cid & uri & v & _ & _ & E); [discriminate|].
    reflexivity.
Defined.

Section LoginFacts.
Context `{Host} `{Crypto} (env : Env.t).

Lemma assertEnv_ok name v b :
  v ≠ "" → Auth.assertEnv name (Some v) b = (Ret v, [], b).
Proof.
  intros Hv%truthy_nonempty. unfold Auth.assertEnv. by rewrite Hv.
Qed.

Lemma startSpotifyLogin_run scopes se ve b clientId redirectUri :
  Env.CLIENT_ID env = Some clientId → clientId ≠ "" →
  Env.REDIRECT_URI env = Some redirectUri → redirectUri ≠ "" →
  Login.startSpotifyLogin env scopes se ve b
  = (Ret [("response_type", "code");
          ("client_id", clientId);
          ("redirect_uri", redirectUri);
          ("scope", default Login.DEFAULT_SCOPES scopes);
          ("state", Login.generateRandomString se 64);
          ("code_challenge_method", "S256");
          ("code_challenge",
           Login.createCodeChallenge (Login.generateRandomString ve 128))],
     [],
     Browser.with_sessionStorage
       (λ m, <[Auth.STATE_KEY := Login.generateRandomString se 64]>
               (<[Auth.CODE_VERIFIER_KEY := Login.generateRandomString ve 128]> m))
       b).
Proof.
  intros Hc Hcne Hu Hune. unfold Login.startSpotifyLogin.
  rewrite Hc, Hu.
  unfold mbind at 1. unfold M_bind at 1. rewrite (assertEnv_ok _ _ _ Hcne).
  unfold mbind at 1. unfold M_bind at 1. rewrite (assertEnv_ok _ _ _ Hune).
  reflexivity.
Qed.
End LoginFacts.

Section AuthorizationGuards.
Context `{Host} (env : Env.t).

Lemma completeAuthorization_mismatch code returnedState b clientId redirectUri :
  Env.CLIENT_ID env = Some clientId → clientId ≠ "" →
  Env.REDIRECT_URI env = Some redirectUri → redirectUri ≠ "" →
  Browser.sessionStorage b !! Auth.STATE_KEY ≠ Some returnedState →
  Auth.completeAuthorization env code returnedState b
  = (Throw InvalidAuthState, [], b).
Proof.
  intros Hc Hcne%truthy_nonempty Hu Hune%truthy_nonempty Hs.
  unfold Auth.completeAuthorization. run_M.
  rewrite Hc, Hu. run_M. rewrite Hcne, Hune. run_M.
  destruct (Browser.sessionStorage b !! Auth.STATE_KEY) as [stored|]; run_M;
    [|done].
  destruct (JS.truthy stored); run_M; [|done].
  case_bool_decide as Hd; run_M; [|done]. congruence.
Qed.

Lemma completeAuthorization_exchange code state b clientId redirectUri verifier :
  Env.CLIENT_ID env = Some clientId → clientId ≠ "" →
  Env.REDIRECT_URI env = Some redirectUri → redirectUri ≠ "" →
  Browser.sessionStorage b !! Auth.STATE_KEY = Some state → state ≠ "" →
  Browser.sessionStorage b !! Auth.CODE_VERIFIER_KEY = Some verifier →
  verifier ≠ "" →
  (Auth.completeAuthorization env code state b).1.2
  = [TokenRequest (exchangeForm code redirectUri clientId verifier)].
Proof.
  intros Hc Hcne Hu Hune Hs Hsne Hv Hvne.
  destruct (completeAuthorization_sends env code state b)
    as [(e & E & He)|(cid & uri & v & Ev & Hc' & Hu' & _ & _ & Hv' & _)].
  - exfalso. revert E.
    apply truthy_nonempty in Hcne, Hune, Hsne, Hvne.
    unfold Auth.completeAuthorization. run_M.
    rewrite Hc, Hu. run_M. rewrite Hcne, Hune. run_M.
    rewrite Hs, Hv. run_M. rewrite Hsne. run_M.
    rewrite bool_decide_eq_true_2 by done. run_M. rewrite Hvne. run_M.
    destruct (Env.tokenEndpoint env _) as [[[data|]|status [[err|]|]]|]; run_M;
      try done.
    pose proof (buildTokenSet_cases env data None (Browser.countTokenCall b)) as Hb.
    cbv zeta in Hb.
    destruct (TokenEndpointResponse.refresh_token data) as [r|];
      [destruct (JS.truthy r)|]; rewrite Hb; run_M; done.
  - rewrite Ev. congruence.
Qed.
End AuthorizationGuards.

(** X4. Login round trip. With the configuration present,
    [startSpotifyLogin] stores a state of 64 and a verifier of 128
    characters and puts that state and the challenge of that verifier in
    the authorization URL. A callback with that state makes
    [completeAuthorization] send the exchange with that verifier; a
    callback with any other state is refused without a request; and once a
    callback has succeeded, a second one with the same state is refused:
    the verifier cannot be used twice. *)
Theorem login_round_trip `{Host} `{Crypto} (env : Env.t)
    (scopes : option string) (stateEntropy verifierEntropy : nat → nat)
    (b : Browser.t) (clientId redirectUri : string) :
  Env.CLIENT_ID env = Some clientId → clientId ≠ "" →
  Env.REDIRECT_URI env = Some redirectUri → redirectUri ≠ "" →
  let start := Login.startSpotifyLogin env scopes stateEntropy verifierEntropy b in
  let state := Login.generateRandomString stateEntropy 64 in
  let verifier := Login.generateRandomString verifierEntropy 128 in
  start.1.1 = Ret [("response_type", "code");
                   ("client_id", clientId);
                   ("redirect_uri", redirectUri);
                   ("scope", default Login.DEFAULT_SCOPES scopes);
                   ("state", state);
                   ("code_challenge_method", "S256");
                   ("code_challenge", Login.createCodeChallenge verifier)]
  ∧ String.length state = 64%nat ∧ String.length verifier = 128%nat
  ∧ Browser.sessionStorage start.2 !! Auth.STATE_KEY = Some state
  ∧ Browser.sessionStorage start.2 !! Auth.CODE_VERIFIER_KEY = Some verifier
  ∧ Browser.localStorage start.2 = Browser.localStorage b
  ∧ (∀ code,
       (Auth.completeAuthorization env code state start.2).1.2
       = [TokenRequest (exchangeForm code redirectUri clientId verifier)])
  ∧ (∀ code returnedState,
       returnedState ≠ state →
       Auth.completeAuthorization env code returnedState start.2
       = (Throw InvalidAuthState, [], start.2))
  ∧ (∀ code tokenSet evs b' code',
       Auth.completeAuthorization env code state start.2 = (Ret tokenSet, evs, b') →
       Auth.completeAuthorization env code' state b'
       = (Throw InvalidAuthState, [], b')).
Proof.
  intros Hc Hcne Hu Hune start state verifier. subst start.
  rewrite (startSpotifyLogin_run env scopes _ _ b _ _ Hc Hcne Hu Hune).
  fold state verifier. cbn [fst snd Browser.sessionStorage Browser.localStorage
                              Browser.with_sessionStorage].
  assert (state ≠ "") as Hsne by done.
  assert (verifier ≠ "") as Hvne by done.
  split; [done|].
  split; [apply generateRandomString_length|].
  split; [apply generateRandomString_length|].
  split; [apply lookup_insert_eq|].
  split; [rewrite lookup_insert_ne by done; apply lookup_insert_eq|].
  split; [done|].
  split.
  { intros code. apply completeAuthorization_exchange; try done.
    - apply lookup_insert_eq.
    - cbn [Browser.sessionStorage Browser.with_sessionStorage].
      rewrite lookup_insert_ne by done.
      apply lookup_insert_eq. }
  split.
  { intros code returnedState Hne.
    apply (completeAuthorization_mismatch env _ _ _ clientId redirectUri);
      try done.
    cbn [Browser.sessionStorage Browser.with_sessionStorage].
    rewrite lookup_insert_eq. congruence. }
  intros code tokenSet evs b' code' E.
  apply (completeAuthorization_mismatch env _ _ _ clientId redirectUri);
    try done.
  destruct (completeAuthorization_cases env _ _ _ _ _ _ E)
    as [(t & _ & Hs & _)|(e & [=] & _)].
  rewrite Hs, lookup_delete_ne by done. by rewrite lookup_delete_eq.
Qed.

Lemma login_round_trip_witness :
  let H := Reference.host [] in
  let C := LoginInputs.crypto in
  let start := Login.startSpotifyLogin LoginExamples.granting None
                 LoginInputs.stateEntropy LoginInputs.verifierEntropy
                 LoginInputs.fresh in
  let state := Login.generateRandomString LoginInputs.stateEntropy 64 in
  String.length state = 64%nat
  ∧ Browser.sessionStorage start.2 !! Auth.STATE_KEY = Some state
  ∧ Auth.completeAuthorization LoginExamples.granting "code-1" "forged" start.2
    = (Throw InvalidAuthState, [], start.2).
Proof.
  intros H C start state.
  destruct (@login_round_trip H C LoginExamples.granting None
              LoginInputs.stateEntropy LoginInputs.verifierEntropy
              LoginInputs.fresh "client-id" "https://app.test/callback")
    as (_ & L & _ & S & _ & _ & _ & P & _); try reflexivity; try discriminate.
  split; [exact L|]. split; [exact S|].
  apply P. discriminate.
Defined.

(** ** The stored record: round trip and removal *)

Section StoredRecord.
Context `{Host} (env : Env.t).


Lemma loadStoredTokens_absent b :
  Browser.localStorage b !! Auth.TOKEN_STORAGE_KEY = None →
  Auth.loadStoredTokens b = (Ret None, [], b).
Proof. intros Hs. by rewrite loadStoredTokens_run, Hs. Qed.

Lemma refreshAccessToken_rejected previous b clientId status body :
  Env.CLIENT_ID env = Some clientId → clientId ≠ "" →
  Env.tokenEndpoint env (Browser.tokenCalls b) = Some (TokenNotOk status body) →
  Auth.refreshAccessToken env previous b
  = (Throw SessionExpired,
     [TokenRequest [("grant_type", "refresh_token");
                    ("refresh_token", TokenSet.refreshToken previous);
                    ("client_id", clientId)]],
     (Auth.clearStoredAuth (Browser.countTokenCall b)).2).
Proof.
  intros Hc Hne%truthy_nonempty Hep.
  unfold Auth.refreshAccessToken. run_M.
  rewrite Hc. run_M. rewrite Hne. run_M. rewrite Hep. run_M. done.
Qed.

Lemma clearStoredAuth_keys b :
  let cleared := (Auth.clearStoredAuth b).2 in
  Browser.localStorage cleared !! Auth.TOKEN_STORAGE_KEY = None
  ∧ Browser.sessionStorage cleared !! Auth.STATE_KEY = None
  ∧ Browser.sessionStorage cleared !! Auth.CODE_VERIFIER_KEY = None.
Proof.
  run_M. split; [apply lookup_delete_eq|]. split; [apply lookup_delete_eq|].
  rewrite lookup_delete_ne by done. apply lookup_delete_eq.
Qed.
End StoredRecord.



(** X6. A refresh that the provider rejects ends the session: with the
    client id configured, a not-ok answer makes [refreshAccessToken] throw
    after one token request, the stored record and the pending state and
    verifier are removed, and nothing can be loaded afterwards. Raised from
    the client before a request, the error leaves the client's own tokens as
    they were, tells the observer nothing and no resource request is sent. *)
Theorem rejected_refresh_ends_session `{Host} (env : Env.t)
    (previous : TokenSet.t) (b : Browser.t) (clientId : string)
    (status : Z) (body : option (option string)) :
  Env.CLIENT_ID env = Some clientId → clientId ≠ "" →
  Env.tokenEndpoint env (Browser.tokenCalls b) = Some (TokenNotOk status body) →
  let run := Auth.refreshAccessToken env previous b in
  run.1.1 = Throw SessionExpired
  ∧ tokenRequests run.1.2
    = [[("grant_type", "refresh_token");
        ("refresh_token", TokenSet.refreshToken previous);
        ("client_id", clientId)]]
  ∧ Browser.localStorage run.2 !! Auth.TOKEN_STORAGE_KEY = None
  ∧ Browser.sessionStorage run.2 !! Auth.STATE_KEY = None
  ∧ Browser.sessionStorage run.2 !! Auth.CODE_VERIFIER_KEY = None
  ∧ (Auth.loadStoredTokens run.2).1.1 = Ret None
  ∧ (∀ fuel input init attempt c,
       Client.tokens c = previous →
       Browser.tick (Client.browser c) = b →
       ¬ tokenFresh env c →
       let call := Client.authorizedFetch env (S fuel) input init attempt c in
       call.1.1 = Throw SessionExpired
       ∧ requestsSent call.1.2 = []
       ∧ Client.tokens call.2 = previous
       ∧ call.1.2 = run.1.2).
Proof.
  intros Hc Hne Hep run. subst run.
  rewrite (refreshAccessToken_rejected env previous b clientId status body
             Hc Hne Hep).
  cbn [fst snd tokenRequests].
  destruct (clearStoredAuth_keys (Browser.countTokenCall b)) as (K1 & K2 & K3).
  cbv zeta in K1, K2, K3.
  split; [done|]. split; [done|]. split; [done|]. split; [done|].
  split; [done|].
  split; [by rewrite loadStoredTokens_absent|].
  intros fuel input init attempt c Ht Hb Hstale.
  pose proof (ensureFresh_stale env c Hstale) as He.
  rewrite Ht, Hb,
    (refreshAccessToken_rejected env previous b clientId status body Hc Hne Hep)
    in He.
  rewrite (authorizedFetch_no_request env fuel input init attempt c _ _ _ He).
  cbn [fst snd Client.tokens requestsSent]. done.
Qed.

Lemma rejected_refresh_ends_session_witness :
  let H := Reference.host [] in
  let b := (Auth.storeTokens (PipelineExamples.tokens "access-0" 0)
              LoginExamples.pending).2 in
  let run := Auth.refreshAccessToken LoginExamples.refusing
               (PipelineExamples.tokens "access-0" 0) b in
  run.1.1 = Throw SessionExpired
  ∧ Browser.localStorage run.2 !! Auth.TOKEN_STORAGE_KEY = None
  ∧ Browser.sessionStorage run.2 !! Auth.STATE_KEY = None.
Proof.
  intros H b run.
  destruct (@rejected_refresh_ends_session H LoginExamples.refusing
              (PipelineExamples.tokens "access-0" 0) b "client-id" 400
              (Some (Some "invalid_grant")))
    as (R & _ & L & S & _); try reflexivity; try discriminate.
  split; [exact R|]. split; [exact L|exact S].
Defined.

(** ** Configuration and network failures *)

Section Failures.
Context `{Host} (env : Env.t).

Lemma assertEnv_missing name value b :
  value = None ∨ value = Some "" →
  Auth.assertEnv name value b = (Throw (MissingEnv name), [], b).
Proof. by intros [-> | ->]. Qed.

Lemma refreshAccessToken_unanswered previous b clientId reply e :
  Env.CLIENT_ID env = Some clientId → clientId ≠ "" →
  (Env.tokenEndpoint env (Browser.tokenCalls b) = None ∧ e = FetchRejected)
  ∨ (Env.tokenEndpoint env (Browser.tokenCalls b) = Some (TokenOk None)
     ∧ e = BodyRejected) →
  reply = Env.tokenEndpoint env (Browser.tokenCalls b) →
  Auth.refreshAccessToken env previous b
  = (Throw e,
     [TokenRequest [("grant_type", "refresh_token");
                    ("refresh_token", TokenSet.refreshToken previous);
                    ("client_id", clientId)]],
     Browser.countTokenCall b).
Proof.
  intros Hc Hne%truthy_nonempty [[Hep ->] | [Hep ->]] _;
    unfold Auth.refreshAccessToken; run_M;
    rewrite Hc; run_M; rewrite Hne; run_M; rewrite Hep; run_M; done.
Qed.
End Failures.

(** X7. Without a client id nothing starts: when [VITE_SPOTIFY_CLIENT_ID] is
    absent or empty, [startSpotifyLogin], [completeAuthorization] and
    [refreshAccessToken] throw the configuration error before any request
    is sent and before the storage is touched, and a client whose token is
    stale sends no resource request. *)
Theorem missing_client_id_stops_everything `{Host} `{Crypto} (env : Env.t) :
  Env.CLIENT_ID env = None ∨ Env.CLIENT_ID env = Some "" →
  let missing := MissingEnv "VITE_SPOTIFY_CLIENT_ID" in
  (∀ scopes stateEntropy verifierEntropy b,
     Login.startSpotifyLogin env scopes stateEntropy verifierEntropy b
     = (Throw missing, [], b))
  ∧ (∀ code returnedState b,
       Auth.completeAuthorization env code returnedState b
       = (Throw missing, [], b))
  ∧ (∀ previous b,
       Auth.refreshAccessToken env previous b = (Throw missing, [], b))
  ∧ (∀ fuel input init attempt c,
       ¬ tokenFresh env c →
       (Client.authorizedFetch env (S fuel) input init attempt c).1
       = (Throw missing, [])).
Proof.
  intros Hc missing.
  assert (∀ b, Auth.assertEnv "VITE_SPOTIFY_CLIENT_ID" (Env.CLIENT_ID env) b
               = (Throw missing, [], b)) as Ha
    by (intros b; by apply assertEnv_missing).
  assert (∀ previous b,
            Auth.refreshAccessToken env previous b = (Throw missing, [], b))
    as Hr.
  { intros previous b. unfold Auth.refreshAccessToken.
    unfold mbind at 1. unfold M_bind at 1. by rewrite Ha. }
  split; [|split; [|split; [exact Hr|]]].
  - intros scopes stateEntropy verifierEntropy b.
    unfold Login.startSpotifyLogin.
    unfold mbind at 1. unfold M_bind at 1. by rewrite Ha.
  - intros code returnedState b. unfold Auth.completeAuthorization.
    unfold mbind at 1. unfold M_bind at 1. by rewrite Ha.
  - intros fuel input init attempt c Hstale.
    pose proof (ensureFresh_stale env c Hstale) as He.
    rewrite Hr in He.
    by rewrite (authorizedFetch_no_request env fuel input init attempt c _ _ _ He).
Qed.

Lemma missing_client_id_stops_everything_witness :
  Login.startSpotifyLogin (H := LoginInputs.crypto) ConfigInputs.unconfigured
    None LoginInputs.stateEntropy LoginInputs.verifierEntropy LoginInputs.fresh
  = (Throw (MissingEnv "VITE_SPOTIFY_CLIENT_ID"), [], LoginInputs.fresh).
Proof.
  destruct (@missing_client_id_stops_everything (Reference.host [])
              LoginInputs.crypto ConfigInputs.unconfigured) as (S & _).
  - left. reflexivity.
  - apply S.
Defined.

(** X8. Only a rejection by the provider ends the session. When the token
    request of [refreshAccessToken] gets no answer (the fetch rejects) or an
    ok answer whose body cannot be read, the refresh throws after its one
    request and both storages are left as they were, so the stored record
    is still there. *)
Theorem unanswered_refresh_keeps_session `{Host} (env : Env.t)
    (previous : TokenSet.t) (b : Browser.t) (clientId : string) :
  Env.CLIENT_ID env = Some clientId → clientId ≠ "" →
  Env.tokenEndpoint env (Browser.tokenCalls b) = None
  ∨ Env.tokenEndpoint env (Browser.tokenCalls b) = Some (TokenOk None) →
  let run := Auth.refreshAccessToken env previous b in
  (∃ e, run.1.1 = Throw e ∧ e ≠ SessionExpired)
  ∧ length (tokenRequests run.1.2) = 1%nat
  ∧ Browser.localStorage run.2 = Browser.localStorage b
  ∧ Browser.sessionStorage run.2 = Browser.sessionStorage b
  ∧ Auth.loadStoredTokens run.2
    = (let '(o, evs, _) := Auth.loadStoredTokens b in (o, evs, run.2)).
Proof.
  intros Hc Hne Hep run. subst run.
  assert (∃ e, e ≠ SessionExpired ∧
            Auth.refreshAccessToken env previous b
            = (Throw e,
               [TokenRequest [("grant_type", "refresh_token");
                              ("refresh_token", TokenSet.refreshToken previous);
                              ("client_id", clientId)]],
               Browser.countTokenCall b)) as (e & He & ->).
  { destruct Hep as [Hep | Hep].
    - exists FetchRejected. split; [done|].
      eapply refreshAccessToken_unanswered; eauto.
    - exists BodyRejected. split; [done|].
      eapply refreshAccessToken_unanswered; eauto. }
  cbn [fst snd tokenRequests length].
  split; [eauto|]. split; [done|]. split; [done|]. split; [done|].
  rewrite !loadStoredTokens_run.
  cbn [Browser.localStorage Browser.countTokenCall].
  destruct (Browser.localStorage b !! Auth.TOKEN_STORAGE_KEY) as [text|];
    [|done].
  destruct (negb (JS.truthy text)); [done|].
  destruct (JSON_parse text) as [v|]; [|done].
  destruct (Auth.member v "accessToken") as [a|]; [|done].
  destruct (Auth.typeof_string a); [|done].
  destruct (Auth.member v "refreshToken") as [r|]; [|done].
  by destruct (Auth.typeof_string r).
Qed.

Lemma unanswered_refresh_keeps_session_witness :
  let H := Reference.host RoundTripInputs.table in
  let b := (Auth.storeTokens RoundTripInputs.tokens LoginInputs.fresh).2 in
  Browser.localStorage
    (Auth.refreshAccessToken ConfigInputs.offline RoundTripInputs.tokens b).2
  = Browser.localStorage b.
Proof.
  intros H b.
  destruct (@unanswered_refresh_keeps_session H ConfigInputs.offline
              RoundTripInputs.tokens b "client-id") as (_ & _ & L & _).
  - reflexivity.
  - discriminate.
  - left. reflexivity.
  - exact L.
Defined.

(** ** The client: one answered request *)

Section ClientFacts.
Context `{Host} (env : Env.t).

Lemma authorizedFetch_answered fuel input init attempt c r :
  tokenFresh env c →
  Env.api env (Browser.apiCalls (Client.browser c)) = Some r →
  (Response.status r =? 401) && (attempt =? 0)%nat = false →
  Response.status r ≠ 429 →
  Client.authorizedFetch env (S fuel) input init attempt c
  = (Ret r,
     [requestOf (TokenSet.accessToken (Client.tokens c)) input init],
     afterCall c).
Proof.
  intros Hf Ha Hc Hs.
  rewrite authorizedFetch_step, (ensureFresh_fresh env c Hf).
  cbn [Client.browser Browser.apiCalls Browser.tick].
  rewrite Ha. cbv zeta. rewrite Hc.
  destruct (Z.eqb_spec (Response.status r) 429); [done|]. done.
Qed.

Lemma get_answered fuel path init c r :
  tokenFresh env c →
  Env.api env (Browser.apiCalls (Client.browser c)) = Some r →
  Response.status r ≠ 401 → Response.status r ≠ 429 →
  Client.get env (S fuel) path init c
  = (if Response.ok r then bodyOf r else Throw (Client.toError r),
     [requestOf (TokenSet.accessToken (Client.tokens c)) path
        (Client.with_method "GET" init)],
     afterCall c).
Proof.
  intros Hf Ha H401 H429. unfold Client.get.
  unfold mbind at 1. unfold M_bind at 1.
  rewrite (authorizedFetch_answered fuel path _ 0 c r Hf Ha); [|..|done].
  2: { destruct (Z.eqb_spec (Response.status r) 401); done. }
  unfold bodyOf, Client.bodyOrThrow.
  destruct (Response.ok r); cbn [negb]; [|done].
  by destruct (Response.json_body r).
Qed.

Lemma send_answered fuel method path body init c r :
  tokenFresh env c →
  Env.api env (Browser.apiCalls (Client.browser c)) = Some r →
  Response.status r ≠ 401 → Response.status r ≠ 429 →
  Client.send env (S fuel) method path body init c
  = (if Response.ok r then
       if Response.status r =? 204 then Ret None
       else match bodyOf r with
            | Ret v => Ret (Some v)
            | Throw e => Throw e
            | Diverge => Diverge
            end
     else Throw (Client.toError r),
     [requestOf (TokenSet.accessToken (Client.tokens c)) path
        (Client.finalInit method body init)],
     afterCall c).
Proof.
  intros Hf Ha H401 H429. unfold Client.send.
  unfold mbind at 1. unfold M_bind at 1.
  rewrite (authorizedFetch_answered fuel path _ 0 c r Hf Ha); [|..|done].
  2: { destruct (Z.eqb_spec (Response.status r) 401); done. }
  unfold bodyOf, Client.bodyOrThrow.
  destruct (Response.ok r); cbn [negb]; [|done].
  destruct (Response.status r =? 204); [done|].
  by destruct (Response.json_body r).
Qed.

Lemma tokenFresh_afterCall c :
  (∀ k, Env.clock env k + 60000 < TokenSet.expiresAt (Client.tokens c)) →
  tokenFresh env c ∧ tokenFresh env (afterCall c).
Proof. intros Hk. split; apply Hk. Qed.
End ClientFacts.




(** ** The client: retries *)

(** X11. The attempt counter is shared by the two retries: a 401 that
    follows a 429 is handed back to the caller without any refresh. With a
    token that stays fresh, a 429 and then a 401 make [authorizedFetch]
    send two requests with the same access token, sleep once in between,
    make no token request and return the 401 response, at whatever attempt
    the call started. *)
Theorem unauthorized_after_rate_limit_not_refreshed `{Host} (env : Env.t)
    (fuel : nat) (input : string) (init : RequestInit.t) (attempt : nat)
    (c : Client.t) (r1 r2 : Response.t) :
  tokenFresh env c → tokenFresh env (afterCall c) →
  Env.api env (Browser.apiCalls (Client.browser c)) = Some r1 →
  Response.status r1 = 429 →
  Env.api env (S (Browser.apiCalls (Client.browser c))) = Some r2 →
  Response.status r2 = 401 →
  let request := requestOf (TokenSet.accessToken (Client.tokens c)) input init in
  Client.authorizedFetch env (S (S fuel)) input init attempt c
  = (Ret r2, [request; Sleep (Client.retryAfterMs r1); request],
     afterCall (afterCall c))
  ∧ tokenRequests [request; Sleep (Client.retryAfterMs r1); request] = [].
Proof.
  intros Hf1 Hf2 Ha1 Hs1 Ha2 Hs2 request. split; [|done].
  rewrite (authorizedFetch_429 env (S fuel) input init attempt c _ _ _ r1
             (ensureFresh_fresh env c Hf1)); [|exact Ha1|exact Hs1].
  change (afterSend _) with (afterCall c).
  rewrite (authorizedFetch_answered env fuel input init (attempt + 1)
             (afterCall c) r2 Hf2); [done|exact Ha2|..].
  - replace (attempt + 1 =? 0)%nat with false; [apply andb_false_r|].
    symmetry. apply Nat.eqb_neq. lia.
  - rewrite Hs2. done.
Qed.

Lemma unauthorized_after_rate_limit_not_refreshed_witness :
  let H := Reference.host [] in
  (Client.authorizedFetch RetryInputs.limitedThenDenied 2 "/me"
     PipelineExamples.init 0 ClientInputs.client).1.1
  = Ret (PipelineExamples.response 401 ∅).
Proof.
  intros H.
  destruct (@unauthorized_after_rate_limit_not_refreshed H
              RetryInputs.limitedThenDenied 0 "/me" PipelineExamples.init 0
              ClientInputs.client (PipelineExamples.response 429 ∅)
              (PipelineExamples.response 401 ∅)
              eq_refl eq_refl eq_refl eq_refl eq_refl eq_refl) as [E _].
  by rewrite E.
Defined.



(** X13. Logging out and replacing the tokens. [logout] removes the stored
    record and the pending login state and tells the observer [null], but
    the client object keeps its tokens: a request made through it
    afterwards still goes out with the old access token. [updateTokenSet]
    replaces the tokens of the client and tells the observer, without
    writing anything to the storage; the next request carries the new
    access token. *)
Theorem logout_and_token_update `{Host} (env : Env.t) (c : Client.t)
    (tokenSet : TokenSet.t) :
  let out := Client.logout c in
  let upd := Client.updateTokenSet tokenSet c in
  out.1 = (Ret tt, observed c None)
  ∧ Client.tokens out.2 = Client.tokens c
  ∧ (Auth.loadStoredTokens (Client.browser out.2)).1 = (Ret None, [])
  ∧ Browser.sessionStorage (Client.browser out.2) !! Auth.STATE_KEY = None
  ∧ Browser.sessionStorage (Client.browser out.2) !! Auth.CODE_VERIFIER_KEY = None
  ∧ upd = (Ret tt, observed c (Some tokenSet),
           Client.mk tokenSet (Client.onTokenRefresh c) (Client.browser c))
  ∧ (∀ fuel input init attempt,
       (tokenFresh env c →
        authorizationSent
          (Client.authorizedFetch env (S fuel) input init attempt out.2).1.2
        = Some ("Bearer " +:+ TokenSet.accessToken (Client.tokens c)))
       ∧ (tokenFresh env upd.2 →
          authorizationSent
            (Client.authorizedFetch env (S fuel) input init attempt upd.2).1.2
          = Some ("Bearer " +:+ TokenSet.accessToken tokenSet))).
Proof.
  intros out upd.
  assert (out = (Ret tt, observed c None,
                 Client.mk (Client.tokens c) (Client.onTokenRefresh c)
                   (Auth.clearStoredAuth (Client.browser c)).2)) as Hout.
  { subst out. unfold Client.logout, Client.notify, observed. run_M.
    by destruct (Client.onTokenRefresh c). }
  assert (upd = (Ret tt, observed c (Some tokenSet),
                 Client.mk tokenSet (Client.onTokenRefresh c)
                   (Client.browser c))) as Hupd.
  { subst upd. unfold Client.updateTokenSet, Client.notify, observed. run_M.
    unfold Client.set_tokens. by destruct (Client.onTokenRefresh c). }
  rewrite Hout, Hupd. cbn [fst snd Client.tokens Client.browser].
  destruct (clearStoredAuth_keys (Client.browser c)) as (K1 & K2 & K3).
  cbv zeta in K1, K2, K3.
  split; [done|]. split; [done|].
  split; [by rewrite loadStoredTokens_absent|].
  split; [done|]. split; [done|]. split; [done|].
  assert (∀ fuel input init attempt c0,
            tokenFresh env c0 →
            authorizationSent
              (Client.authorizedFetch env (S fuel) input init attempt c0).1.2
            = Some ("Bearer " +:+ TokenSet.accessToken (Client.tokens c0)))
    as Hsent.
  { intros fuel input init attempt c0 Hf.
    destruct (authorizedFetch_request env fuel input init attempt c0 _ _ _
                (ensureFresh_fresh env c0 Hf)) as (o & tail & c' & ->).
    cbn [fst snd app]. unfold authorizationSent. cbn [firstRequest].
    cbn [RequestInit.headers Client.with_headers].
    apply requestHeaders_authorization. }
  intros fuel input init attempt. split; intros Hf.
  - apply (Hsent fuel input init attempt (Client.mk _ _ _)). exact Hf.
  - apply (Hsent fuel input init attempt (Client.mk _ _ _)). exact Hf.
Qed.

(** ** The playlist input *)

Section PlaylistInputFacts.
Import PlaylistInput.

Lemma wordPrefix_word s : allChars isWordChar (wordPrefix s) = true.
Proof.
  induction s as [|c s IH]; simpl; [done|].
  destruct (isWordChar c) eqn:E; simpl; [|done]. by rewrite E, IH.
Qed.

Lemma wordPrefix_app id rest :
  allChars isWordChar id = true → wordEnds rest = true →
  wordPrefix (id +:+ rest) = id.
Proof.
  intros Hid Hrest. induction id as [|c id IH]; simpl.
  - destruct rest as [|c rest]; simpl in *; [done|].
    by destruct (isWordChar c).
  - simpl in Hid. apply andb_true_iff in Hid as [Hc Hid].
    by rewrite Hc, (IH Hid).
Qed.

Lemma prefix_app literal s :
  String.prefix literal s = true → ∃ tail, s = literal +:+ tail.
Proof.
  revert s. induction literal as [|a literal IH]; intros s.
  - intros _. by exists s.
  - destruct s as [|b s]; simpl; [done|].
    destruct (ascii_dec a b) as [->|]; [|done].
    intros [tail ->]%IH. by exists tail.
Qed.

Lemma append_empty s : s +:+ "" = s.
Proof.
  induction s as [|c s IH]; [done|].
  change (String c (s +:+ "") = String c s). by rewrite IH.
Qed.

Lemma prefix_append literal tail :
  String.prefix literal (literal +:+ tail) = true.
Proof.
  induction literal as [|a literal IH]; simpl; [by destruct tail|].
  by destruct (ascii_dec a a).
Qed.

Lemma dropChars_append literal tail :
  dropChars (String.length literal) (literal +:+ tail) = tail.
Proof. induction literal as [|a literal IH]; simpl; [by destruct tail|done]. Qed.

Lemma matchHere_literal literal id rest :
  id ≠ "" → allChars isWordChar id = true → wordEnds rest = true →
  matchHere literal (literal +:+ id +:+ rest) = Some id.
Proof.
  intros Hid%truthy_nonempty Hword Hends. unfold matchHere.
  rewrite prefix_append, dropChars_append. cbv zeta.
  by rewrite (wordPrefix_app id rest Hword Hends), Hid.
Qed.

Lemma matchHere_Some literal s word :
  matchHere literal s = Some word →
  word ≠ "" ∧ allChars isWordChar word = true
  ∧ String.prefix literal s = true.
Proof.
  unfold matchHere. destruct (String.prefix literal s); [|done].
  cbv zeta.
  destruct (JS.truthy _) eqn:E; [|done]. intros [= <-].
  split; [by apply truthy_nonempty|]. split; [apply wordPrefix_word|done].
Qed.

Lemma matchCapture_Some literal s word :
  matchCapture literal s = Some word →
  word ≠ "" ∧ allChars isWordChar word = true.
Proof.
  induction s as [|c s IH]; simpl.
  - destruct (matchHere literal "") eqn:E; [|done]. intros [= <-].
    destruct (matchHere_Some _ _ _ E) as (? & ? & _). done.
  - destruct (matchHere literal (String c s)) eqn:E.
    + intros [= <-]. destruct (matchHere_Some _ _ _ E) as (? & ? & _). done.
    + exact IH.
Qed.

Lemma matchCapture_skip literal c s :
  matchHere literal (String c s) = None →
  matchCapture literal (String c s) = matchCapture literal s.
Proof. intros E. simpl. by rewrite E. Qed.

Lemma matchCapture_here literal s word :
  matchHere literal s = Some word → matchCapture literal s = Some word.
Proof. intros E. destruct s; simpl; by rewrite E. Qed.

(** A literal with a character that [s] does not have matches nowhere. *)
Lemma matchCapture_None (p : ascii → bool) literal s :
  allChars p literal = false → allChars p s = true →
  matchCapture literal s = None.
Proof.
  intros Hl.
  assert (∀ s, allChars p s = true → matchHere literal s = None) as Hhere.
  { intros s' Hs. destruct (matchHere literal s') as [word|] eqn:E; [|done].
    destruct (matchHere_Some _ _ _ E) as (_ & _ & [tail ->]%prefix_app).
    rewrite allChars_app, Hl in Hs. done. }
  induction s as [|c s IH]; intros Hs.
  - simpl. by rewrite (Hhere "" Hs).
  - rewrite matchCapture_skip by by apply Hhere.
    simpl in Hs. apply andb_true_iff in Hs as [_ Hs]. by apply IH.
Qed.

Lemma alnum_plain c :
  isAlnum c = true →
  isWordChar c = true
  ∧ negb (Ascii.eqb c "/") = true ∧ negb (Ascii.eqb c ":") = true.
Proof.
  unfold isWordChar. intros Hc. rewrite Hc. split; [done|].
  split; apply negb_true_iff, Ascii.eqb_neq; intros ->; done.
Qed.
End PlaylistInputFacts.

(** X14. What [extractPlaylistId] returns. Whatever the input, an id that is
    returned is a non-empty run of word characters, and an input that trims
    to nothing gives [null]. For an id made of word characters, the address
    [https://open.spotify.com/playlist/<id>] followed by anything that does
    not continue the id (a query string, nothing) and the URI
    [spotify:playlist:<id>] both give back the id. An input made of letters
    and digits only is taken as an id exactly when it has at least sixteen
    characters. The inputs are taken as already trimmed. *)
Theorem playlist_id_extracted `{Host} (id rest : string) :
  id ≠ "" → PlaylistInput.allChars PlaylistInput.isWordChar id = true →
  wordEnds rest = true →
  let url := "https://open.spotify.com/playlist/" +:+ id +:+ rest in
  let uri := "spotify:playlist:" +:+ id in
  (String_trim url = url → PlaylistInput.extractPlaylistId url = Some id)
  ∧ (String_trim uri = uri → PlaylistInput.extractPlaylistId uri = Some id)
  ∧ (String_trim id = id →
     PlaylistInput.allChars PlaylistInput.isAlnum id = true →
     PlaylistInput.extractPlaylistId id
     = if (16 <=? String.length id)%nat then Some id else None)
  ∧ (∀ raw found,
       PlaylistInput.extractPlaylistId raw = Some found →
       found ≠ "" ∧ PlaylistInput.allChars PlaylistInput.isWordChar found = true)
  ∧ (∀ raw, String_trim raw = "" → PlaylistInput.extractPlaylistId raw = None).
Proof.
  intros Hne Hword Hends url uri.
  assert (JS.truthy id = true) as Hid by by apply truthy_nonempty.
  pose proof (matchHere_literal "playlist/" id rest Hne Hword Hends) as Hurl.
  pose proof (matchHere_literal "spotify:playlist:" id "" Hne Hword eq_refl)
    as Huri.
  rewrite append_empty in Huri.
  split; [|split; [|split; [|split]]].
  - intros Htrim. unfold PlaylistInput.extractPlaylistId. rewrite Htrim.
    assert (JS.truthy url = true) as -> by done. cbn [negb].
    assert (PlaylistInput.matchCapture "playlist/" url = Some id) as ->; [|done].
    subst url.
    cbv beta iota fix delta [String.append].
    do 25 (rewrite matchCapture_skip by reflexivity).
    apply matchCapture_here. exact Hurl.
  - intros Htrim. unfold PlaylistInput.extractPlaylistId. rewrite Htrim.
    assert (JS.truthy uri = true) as -> by done. cbn [negb].
    rewrite (matchCapture_None (λ c, negb (Ascii.eqb c "/")) "playlist/" uri).
    + subst uri. by rewrite (matchCapture_here _ _ _ Huri).
    + reflexivity.
    + subst uri. rewrite allChars_app. apply andb_true_iff. split; [done|].
      clear -Hword. revert Hword. apply allChars_impl. intros c Hc.
      apply negb_true_iff, Ascii.eqb_neq. intros ->. done.
  - intros Htrim Halnum. unfold PlaylistInput.extractPlaylistId.
    rewrite Htrim, Hid. cbn [negb].
    rewrite (matchCapture_None (λ c, negb (Ascii.eqb c "/")) "playlist/" id),
      (matchCapture_None (λ c, negb (Ascii.eqb c ":")) "spotify:playlist:" id);
      try reflexivity.
    + unfold PlaylistInput.isBareId. rewrite Halnum, andb_true_r. done.
    + revert Halnum. apply allChars_impl. intros c Hc. by apply alnum_plain.
    + revert Halnum. apply allChars_impl. intros c Hc. by apply alnum_plain.
  - intros raw found. unfold PlaylistInput.extractPlaylistId.
    destruct (negb (JS.truthy (String_trim raw))) eqn:Et; [done|].
    destruct (PlaylistInput.matchCapture "playlist/" _) as [w|] eqn:E1.
    { intros [= <-]. by apply matchCapture_Some in E1. }
    destruct (PlaylistInput.matchCapture "spotify:playlist:" _) as [w|] eqn:E2.
    { intros [= <-]. by apply matchCapture_Some in E2. }
    destruct (PlaylistInput.isBareId _) eqn:E3; [|done]. intros [= <-].
    apply negb_false_iff, truthy_nonempty in Et. split; [done|].
    unfold PlaylistInput.isBareId in E3. apply andb_true_iff in E3 as [_ E3].
    revert E3. apply allChars_impl. intros c Hc. by apply alnum_plain.
  - intros raw Htrim. unfold PlaylistInput.extractPlaylistId. by rewrite Htrim.
Qed.

Lemma playlist_id_extracted_witness :
  let H := Reference.host [] in
  PlaylistInput.extractPlaylistId
    ("https://open.spotify.com/playlist/" +:+ PlaylistInputs.id
     +:+ PlaylistInputs.rest)
  = Some PlaylistInputs.id.
Proof.
  intros H.
  destruct (@playlist_id_extracted H PlaylistInputs.id PlaylistInputs.rest
              ltac:(discriminate) eq_refl eq_refl) as (U & _).
  apply U. vm_compute. reflexivity.
Defined.

(** ** Editing the sort rules *)

Section RuleFacts.
Import Rules.

Lemma field_known (field : SortRule.SortField) : field ∈ fieldKeys.
Proof. destruct field; unfold fieldKeys; set_solver. Qed.

Lemma availableFields_spec rules field :
  field ∈ availableFields rules ↔ field ∉ activeSortFields rules.
Proof.
  unfold availableFields. rewrite list_elem_of_filter.
  split; [by intros [? _]|]. intros Hf. split; [done|apply field_known].
Qed.

Lemma updateSortRule_ids id patch rules :
  SortRule.id <$> updateSortRule id patch rules = SortRule.id <$> rules.
Proof.
  unfold updateSortRule. induction rules as [|r rules IH]; [done|].
  cbn [fmap list_fmap] in *. rewrite IH. f_equal.
  by destruct (String.eqb (SortRule.id r) id).
Qed.

Lemma updateSortRule_other id patch rules :
  id ∉ SortRule.id <$> rules → updateSortRule id patch rules = rules.
Proof.
  unfold updateSortRule. induction rules as [|r rules IH]; [done|].
  cbn [fmap list_fmap]. intros Hid.
  apply not_elem_of_cons in Hid as [Hr Hid].
  rewrite (IH Hid). f_equal.
  destruct (String.eqb_spec (SortRule.id r) id); [congruence|done].
Qed.

(** The head of a filtered list is the first element that passes. *)
Lemma filter_head {A} (P : A → Prop) `{∀ x, Decision (P x)} (l : list A) x rest :
  filter P l = x :: rest →
  ∃ before after, l = before ++ x :: after ∧ Forall (λ y, ¬ P y) before ∧ P x.
Proof.
  induction l as [|y l IH]; [done|]. rewrite filter_cons.
  destruct (decide (P y)) as [Hy|Hy].
  - intros [= -> <-]. exists [], l. split; [done|]. split; [constructor|done].
  - intros (before & after & -> & Hb & Hx)%IH.
    exists (y :: before), after. split; [done|]. split; [by constructor|done].
Qed.

(** Changing the field of the rule [id] to a field no rule uses. *)
Lemma updateSortRule_fresh_field id patch field rules :
  patchField patch = Some field →
  NoDup (SortRule.id <$> rules) → NoDup (activeSortFields rules) →
  field ∉ activeSortFields rules →
  NoDup (activeSortFields (updateSortRule id patch rules))
  ∧ ∀ f, f ∈ activeSortFields (updateSortRule id patch rules) →
         f = field ∨ f ∈ activeSortFields rules.
Proof.
  intros Hp. unfold activeSortFields.
  induction rules as [|r rules IH]; [by split; [constructor|set_solver]|].
  rewrite !fmap_cons.
  intros [Hid Hids]%NoDup_cons [Hf Hfs]%NoDup_cons
    [Hr Hfresh]%not_elem_of_cons.
  destruct (IH Hids Hfs Hfresh) as [IH1 IH2].
  change (updateSortRule id patch (r :: rules))
    with ((if String.eqb (SortRule.id r) id then applyPatch patch r else r)
          :: updateSortRule id patch rules).
  destruct (String.eqb_spec (SortRule.id r) id) as [E|E].
  - rewrite updateSortRule_other by (by rewrite <- E).
    cbn [fmap list_fmap applyPatch SortRule.field]. rewrite Hp. cbn [default].
    split; [by apply NoDup_cons|].
    intros f [->|Hin]%elem_of_cons; [by left|]. right. by apply elem_of_cons; right.
  - cbn [fmap list_fmap]. split.
    + apply NoDup_cons. split; [|done].
      intros [Heq|Hin]%IH2; [by apply Hr|by apply Hf].
    + intros f [->|Hin]%elem_of_cons.
      * right. by apply elem_of_cons; left.
      * destruct (IH2 f Hin); [by left|]. right. by apply elem_of_cons; right.
Qed.

(** Changing the rule [id] without changing its field. *)
Lemma updateSortRule_same_field id patch rules :
  (∀ rule, rule ∈ rules → SortRule.id rule = id →
           default (SortRule.field rule) (patchField patch) = SortRule.field rule) →
  activeSortFields (updateSortRule id patch rules) = activeSortFields rules.
Proof.
  unfold activeSortFields, updateSortRule.
  induction rules as [|r rules IH]; [done|]. intros Hsame.
  cbn [fmap list_fmap] in *. rewrite IH.
  - f_equal. destruct (String.eqb_spec (SortRule.id r) id) as [E|E]; [|done].
    cbn [applyPatch SortRule.field]. apply Hsame; [by apply elem_of_cons; left|done].
  - intros rule Hin. apply Hsame. by apply elem_of_cons; right.
Qed.
End RuleFacts.

(** X15. The rule editor keeps the fields of the rules distinct. Starting
    from rules with distinct fields: adding a rule appends, at the lowest
    priority and ascending, the first field no rule uses, in the order
    name, mainArtist, album, addedAt, popularity, durationMs (every field
    before it in that order is in use), and does nothing when all six
    fields are in use, so there are never more than six rules;
    removing a rule leaves the others in their order; changing a rule keeps
    the identifiers, whatever the patch says, and, when the identifiers
    are distinct and the chosen field is one the select offers (the rule's
    own field or a field no rule uses), keeps the fields distinct; changing
    the direction changes no field. *)
Theorem sort_rule_editing_keeps_fields_distinct (rules : list SortRule.t) :
  NoDup (Rules.activeSortFields rules) →
  (length rules ≤ 6)%nat
  ∧ (∀ newId,
       NoDup (Rules.activeSortFields (Rules.toggleSortField newId rules))
       ∧ ((∀ field, field ∈ Rules.activeSortFields rules) →
          Rules.toggleSortField newId rules = rules)
       ∧ ∀ field, field ∉ Rules.activeSortFields rules →
           ∃ before added after,
             [SortRule.name; SortRule.mainArtist; SortRule.album;
              SortRule.addedAt; SortRule.popularity; SortRule.durationMs]
             = before ++ added :: after
             ∧ (∀ earlier, earlier ∈ before →
                           earlier ∈ Rules.activeSortFields rules)
             ∧ (added ∉ Rules.activeSortFields rules)
             ∧ Rules.toggleSortField newId rules
               = rules ++ [SortRule.mk newId added SortRule.asc])
  ∧ (∀ id,
       NoDup (Rules.activeSortFields (Rules.removeSortRule id rules))
       ∧ (id ∉ SortRule.id <$> Rules.removeSortRule id rules)
       ∧ Rules.removeSortRule id rules `sublist_of` rules
       ∧ ∀ rule, rule ∈ rules → SortRule.id rule ≠ id →
                 rule ∈ Rules.removeSortRule id rules)
  ∧ (∀ id patch,
       SortRule.id <$> Rules.updateSortRule id patch rules
       = SortRule.id <$> rules)
  ∧ (∀ rule field,
       NoDup (SortRule.id <$> rules) → rule ∈ rules →
       Rules.optionEnabled rules rule field →
       NoDup (Rules.activeSortFields
                (Rules.updateSortRule (SortRule.id rule) (fieldPatch field) rules)))
  ∧ (∀ id direction,
       Rules.activeSortFields
         (Rules.updateSortRule id (directionPatch direction) rules)
       = Rules.activeSortFields rules).
Proof.
  intros Hnd.
  split.
  { unfold Rules.activeSortFields in Hnd.
    rewrite <- (length_fmap SortRule.field rules).
    change 6%nat with (length Rules.fieldKeys).
    apply submseteq_length, NoDup_submseteq; [done|].
    intros f _. apply field_known. }
  split.
  { intros newId. unfold Rules.toggleSortField.
    destruct (Rules.availableFields rules) as [|added rest] eqn:E.
    - split; [done|]. split; [done|].
      intros field Hf%availableFields_spec. rewrite E in Hf.
      by apply elem_of_nil in Hf.
    - assert (added ∉ Rules.activeSortFields rules) as Hadded.
      { apply availableFields_spec. rewrite E. by apply elem_of_cons; left. }
      split.
      + unfold Rules.activeSortFields in *. rewrite fmap_app.
        apply NoDup_app. split; [done|]. split; [|apply NoDup_singleton].
        intros f Hf ->%list_elem_of_singleton. done.
      + split; [intros Hall; destruct (Hadded (Hall added))|].
        intros _ _.
        destruct (filter_head _ _ _ _ E) as (before & after & Hk & Hb & _).
        exists before, added, after. split; [exact Hk|].
        split; [|done].
        intros earlier Hin. rewrite Forall_forall in Hb.
        destruct (decide (earlier ∈ Rules.activeSortFields rules)); [done|].
        by destruct (Hb earlier Hin). }
  split.
  { intros id. unfold Rules.removeSortRule.
    split.
    { eapply sublist_NoDup; [exact Hnd|].
      unfold Rules.activeSortFields. apply fmap_sublist, sublist_filter. }
    split.
    { intros (r & Hr & [Hne _]%list_elem_of_filter)%list_elem_of_fmap. done. }
    split; [apply sublist_filter|].
    intros rule Hin Hne. by apply list_elem_of_filter. }
  split; [intros id patch; apply updateSortRule_ids|].
  split.
  { intros rule field Hids Hin [-> | Hfree].
    - rewrite updateSortRule_same_field; [done|].
      intros r Hr E.
      by rewrite (NoDup_fmap_eq SortRule.id rules r rule Hids Hr Hin E).
    - by apply (updateSortRule_fresh_field _ _ field). }
  intros id direction. by apply updateSortRule_same_field.
Qed.

Lemma sort_rule_editing_keeps_fields_distinct_witness :
  Rules.toggleSortField "r3" RuleInputs.rules
  = RuleInputs.rules ++ [SortRule.mk "r3" SortRule.name SortRule.asc]
  ∧ NoDup (Rules.activeSortFields
             (Rules.updateSortRule "r2" (fieldPatch SortRule.album)
                RuleInputs.rules)).
Proof.
  assert (NoDup (Rules.activeSortFields RuleInputs.rules)) as Hnd.
  { apply NoDup_cons. split; [|apply NoDup_singleton].
    intros Hin%list_elem_of_singleton. discriminate. }
  destruct (sort_rule_editing_keeps_fields_distinct RuleInputs.rules Hnd)
    as (_ & T & _ & _ & U & _).
  split.
  - destruct (T "r3") as (_ & _ & First).
    destruct (First SortRule.name)
      as (before & added & after & Hk & Hb & _ & ->).
    { intros [Hin|Hin%list_elem_of_singleton]%elem_of_cons; discriminate. }
    destruct before as [|earlier before].
    + by injection Hk as <- _.
    + injection Hk as <- _. exfalso.
      assert (SortRule.name ∈ Rules.activeSortFields RuleInputs.rules) as Hin
        by (apply Hb, elem_of_cons; by left).
      apply elem_of_cons in Hin as [Hin|Hin%list_elem_of_singleton];
        discriminate.
  - apply (U (SortRule.mk "r2" SortRule.popularity SortRule.desc)).
    + apply NoDup_cons. split; [|apply NoDup_singleton].
      intros Hin%list_elem_of_singleton. discriminate.
    + apply elem_of_cons. right. apply elem_of_cons. by left.
    + right. intros [Hin|Hin%list_elem_of_singleton]%elem_of_cons; discriminate.
Defined.

(** ** Creating the sorted playlist *)

Section CreatePlaylist.
Context `{Host} {St : Type}.
Context (client_post : string → json → M St (option json)).
Context (fetchPlaylists : M St unit).
Context (selected : PlaylistSummary.t) (userId : string).
Context (sorted : list TrackRow.t) (name description : string) (isPublic : bool).

Lemma validUris_length :
  validUris sorted ≠ [] →
  (length (filter (λ u, JS.truthy u = true) (TrackRow.uri <$> sorted)) =? 0)%nat
  = false.
Proof.
  unfold validUris. intros Hne. apply Nat.eqb_neq.
  by destruct (filter _ _).
Qed.

(** Past the guards, the handler is its [try] block. *)
Lemma handleCreatePlaylist_guarded s :
  validUris sorted ≠ [] → String_trim name ≠ "" →
  App.handleCreatePlaylist client_post fetchPlaylists (Some selected)
    (Some userId) sorted name description isPublic s
  = (emit (SetIsCreatingPlaylist true);;
     try_finally
       (try_catch
          (created ← client_post (playlistsEndpoint userId)
                       (App.createBody name description isPublic);
           id ← App.createdId created;
           match App.chunkArray (validUris sorted) 100 with
           | Some chunks => App.postChunks client_post id chunks
           | None => diverge
           end;;
           emit (SetBanner "success" "Playlist mới đã được tạo thành công!");;
           emit CreatePanelReset;;
           fetchPlaylists)
          (λ error, emit (UserFacingError error)))
       (emit (SetIsCreatingPlaylist false))) s.
Proof.
  intros Huris Hname%truthy_nonempty.
  unfold App.handleCreatePlaylist. cbv zeta.
  by rewrite (validUris_length Huris), Hname.
Qed.

Lemma handleCreatePlaylist_refused s e ev s' :
  validUris sorted ≠ [] → String_trim name ≠ "" →
  client_post (playlistsEndpoint userId)
    (App.createBody name description isPublic) s = (Throw e, ev, s') →
  App.handleCreatePlaylist client_post fetchPlaylists (Some selected)
    (Some userId) sorted name description isPublic s
  = (Ret tt,
     SetIsCreatingPlaylist true
     :: ev ++ [UserFacingError e; SetIsCreatingPlaylist false], s').
Proof.
  intros Huris Hname E. rewrite (handleCreatePlaylist_guarded s Huris Hname).
  unfold mbind at 1. unfold M_bind at 1. unfold emit at 1.
  unfold try_finally, try_catch.
  rewrite (bind_Throw _ _ _ _ _ _ E).
  unfold emit. cbv beta iota. cbn [app].
  by rewrite <- app_assoc.
Qed.

Lemma handleCreatePlaylist_posts s v ev1 s1 newId chunks o ev2 s2 :
  validUris sorted ≠ [] → String_trim name ≠ "" →
  client_post (playlistsEndpoint userId)
    (App.createBody name description isPublic) s = (Ret (Some v), ev1, s1) →
  Auth.member v "id" = Some (Some (JString newId)) →
  App.chunkArray (validUris sorted) 100 = Some chunks →
  App.postChunks client_post newId chunks s1 = (o, ev2, s2) →
  match o with
  | Ret _ =>
      ∃ o' tail final,
        App.handleCreatePlaylist client_post fetchPlaylists (Some selected)
    (Some userId) sorted name description isPublic s
        = (o',
           SetIsCreatingPlaylist true
           :: ev1 ++ ev2
           ++ SetBanner "success" "Playlist mới đã được tạo thành công!"
           :: CreatePanelReset :: tail, final)
        ∧ (∀ e, o' ≠ Throw e)
  | Throw e =>
      App.handleCreatePlaylist client_post fetchPlaylists (Some selected)
    (Some userId) sorted name description isPublic s
      = (Ret tt,
         SetIsCreatingPlaylist true
         :: ev1 ++ ev2 ++ [UserFacingError e; SetIsCreatingPlaylist false], s2)
  | Diverge =>
      App.handleCreatePlaylist client_post fetchPlaylists (Some selected)
    (Some userId) sorted name description isPublic s
      = (Diverge, SetIsCreatingPlaylist true :: ev1 ++ ev2, s2)
  end.
Proof.
  intros Huris Hname E1 Hid Hchunks E2.
  rewrite (handleCreatePlaylist_guarded s Huris Hname).
  run_M. rewrite E1. run_M. rewrite Hid. run_M. rewrite Hchunks, E2.
  destruct o as [[]|e|]; run_M.
  - destruct (fetchPlaylists s2) as [[[[]|e|] evf] sf]; run_M;
      eexists _, _, _; (split; [|shelve]);
      rewrite <- ?app_assoc; cbn [app]; reflexivity.
    Unshelve. all: done.
  - by rewrite <- ?app_assoc.
  - by rewrite ?app_nil_r.
Qed.
End CreatePlaylist.

Section Handlers.
Context {St : Type}.

(** A handler of the form [flag on; try { m } catch { report } finally
    { flag off }] never throws. *)
Lemma handler_never_throws (m : M St unit) (on off : Event)
    (report : Error → Event) s e :
  ((emit on;;
    try_finally (try_catch m (λ error, emit (report error))) (emit off)) s).1.1
  ≠ Throw e.
Proof. run_M. by destruct (m s) as [[[[]|e'|] ev] s']. Qed.
End Handlers.

(** X16. [handleCreatePlaylist] never throws, and a failure never looks
    like a success. Without a selected playlist or a user it does nothing
    at all; without a valid URI or with a blank name it shows an error and
    posts nothing. When the creation request fails, no track is posted;
    when a batch of tracks fails, the batches before it stay written, the
    ones after it are not sent; in both cases the error is shown, the
    success message is not, the playlists are not fetched again and the
    busy flag is reset. *)
Theorem playlist_creation_failures `{Host} {St : Type}
    (client_post : string → json → M St (option json))
    (fetchPlaylists : M St unit)
    (selectedPlaylist : option PlaylistSummary.t) (user : option string)
    (sorted : list TrackRow.t) (name description : string) (isPublic : bool)
    (s : St) :
  let run := App.handleCreatePlaylist client_post fetchPlaylists
               selectedPlaylist user sorted name description isPublic s in
  (∀ e, run.1.1 ≠ Throw e)
  ∧ (selectedPlaylist = None ∨ user = None → run = (Ret tt, [], s))
  ∧ (validUris sorted = [] ∨ String_trim name = "" →
     is_Some selectedPlaylist → is_Some user →
     ∃ message, run = (Ret tt, [SetBanner "error" message], s))
  ∧ (∀ userId e ev s',
       is_Some selectedPlaylist → user = Some userId →
       validUris sorted ≠ [] → String_trim name ≠ "" →
       client_post (playlistsEndpoint userId)
         (App.createBody name description isPublic) s = (Throw e, ev, s') →
       run = (Ret tt,
              SetIsCreatingPlaylist true
              :: ev ++ [UserFacingError e; SetIsCreatingPlaylist false], s'))
  ∧ (∀ userId v ev1 s1 newId chunks e ev2 s2,
       is_Some selectedPlaylist → user = Some userId →
       validUris sorted ≠ [] → String_trim name ≠ "" →
       client_post (playlistsEndpoint userId)
         (App.createBody name description isPublic) s = (Ret (Some v), ev1, s1) →
       Auth.member v "id" = Some (Some (JString newId)) →
       App.chunkArray (validUris sorted) 100 = Some chunks →
       App.postChunks client_post newId chunks s1 = (Throw e, ev2, s2) →
       run = (Ret tt,
              SetIsCreatingPlaylist true
              :: ev1 ++ ev2 ++ [UserFacingError e; SetIsCreatingPlaylist false],
              s2)).
Proof.
  intros run. subst run.
  split.
  { intros e. unfold App.handleCreatePlaylist.
    destruct selectedPlaylist as [selected|]; [|done].
    destruct user as [userId|]; [|done]. cbv zeta.
    destruct (length _ =? 0)%nat; [done|].
    destruct (negb _); [done|]. apply handler_never_throws. }
  split.
  { intros [-> | ->]; [done|]. by destruct selectedPlaylist. }
  split.
  { intros Hguard [selected ->] [userId ->].
    unfold App.handleCreatePlaylist. cbv zeta. fold (validUris sorted).
    destruct Hguard as [-> | Hname].
    - by eexists.
    - destruct (length _ =? 0)%nat; [by eexists|].
      rewrite Hname. by eexists. }
  split.
  { intros userId e ev s' [selected ->] -> Huris Hname E.
    by apply handleCreatePlaylist_refused. }
  intros userId v ev1 s1 newId chunks e ev2 s2 [selected ->] -> Huris Hname
    E1 Hid Hchunks E2.
  apply (handleCreatePlaylist_posts client_post fetchPlaylists selected userId
           sorted name description isPublic s v ev1 s1 newId chunks
           (Throw e) ev2 s2 Huris Hname E1 Hid Hchunks E2).
Qed.

Section CreateThroughClient.
Context `{Host} (env : Env.t) (fuel : nat).

Lemma ok_not_retried r :
  Response.ok r = true → Response.status r ≠ 401 ∧ Response.status r ≠ 429.
Proof.
  unfold Response.ok. intros [H1 H2]%andb_true_iff.
  apply Z.leb_le in H2. lia.
Qed.

Lemma clientPost_answered path body c r :
  tokenFresh env c →
  Env.api env (Browser.apiCalls (Client.browser c)) = Some r →
  answersWell r →
  clientPost env (S fuel) path body c
  = (Ret (if Response.status r =? 204 then None else Response.json_body r),
     [postEvent (TokenSet.accessToken (Client.tokens c)) path body],
     afterCall c).
Proof.
  intros Hf Ha [Hok Hbody]. destruct (ok_not_retried r Hok) as [H401 H429].
  unfold clientPost, Client.post.
  rewrite (send_answered env fuel "POST" path (inl body) _ c r Hf Ha H401 H429).
  rewrite Hok. unfold postEvent. f_equal. f_equal.
  destruct (Z.eqb_spec (Response.status r) 204) as [E|E]; [done|].
  destruct Hbody as [?|Hbody]; [done|]. unfold bodyOf.
  by destruct (Response.json_body r).
Qed.

(** With a token that stays fresh and a provider that answers well, every
    batch is posted, in order, each with one request. *)
Lemma postChunks_answered newId chunks :
  ∀ c,
    (∀ k, Env.clock env k + 60000 < TokenSet.expiresAt (Client.tokens c)) →
    (∀ k, (Browser.apiCalls (Client.browser c) ≤ k)%nat →
          ∃ r, Env.api env k = Some r ∧ answersWell r) →
    ∃ c',
      App.postChunks (clientPost env (S fuel)) newId chunks c
      = (Ret tt,
         (λ chunk, postEvent (TokenSet.accessToken (Client.tokens c))
                     (tracksEndpoint newId) (App.urisBody chunk)) <$> chunks,
         c')
      ∧ Client.tokens c' = Client.tokens c
      ∧ Browser.apiCalls (Client.browser c')
        = (Browser.apiCalls (Client.browser c) + length chunks)%nat.
Proof.
  induction chunks as [|chunk rest IH]; intros c Hclock Hapi.
  - exists c. split; [done|]. split; [done|]. simpl. lia.
  - destruct (Hapi _ (Nat.le_refl _)) as (r & Ha & Hr).
    pose proof (clientPost_answered (tracksEndpoint newId)
                  (App.urisBody chunk) c r (Hclock _) Ha Hr) as E.
    rewrite (postChunks_success _ _ _ _ _ _ _ _ E).
    destruct (IH (afterCall c)) as (c' & -> & Ht & Hn).
    + exact Hclock.
    + intros k Hk. apply Hapi. cbn in Hk. lia.
    + exists c'. split; [done|]. split; [done|].
      rewrite Hn. cbn. lia.
Qed.
End CreateThroughClient.

(** The events of a successful creation over the client. *)
Lemma handleCreatePlaylist_through_client `{Host} (env : Env.t) (fuel : nat)
    (fetchPlaylists : M Client.t unit)
    (selected : PlaylistSummary.t) (userId : string)
    (sorted : list TrackRow.t) (name description : string) (isPublic : bool)
    (c : Client.t) (made : Response.t) (playlist : json) (newId : string) :
  (∀ k, Env.clock env k + 60000 < TokenSet.expiresAt (Client.tokens c)) →
  Env.api env (Browser.apiCalls (Client.browser c)) = Some made →
  Response.ok made = true → Response.status made ≠ 204 →
  Response.json_body made = Some playlist →
  Auth.member playlist "id" = Some (Some (JString newId)) →
  (∀ k, (Browser.apiCalls (Client.browser c) < k)%nat →
        ∃ r, Env.api env k = Some r ∧ answersWell r) →
  validUris sorted ≠ [] → String_trim name ≠ "" →
  let token := TokenSet.accessToken (Client.tokens c) in
  ∃ chunks o tail final,
    App.chunkArray (validUris sorted) 100 = Some chunks
    ∧ concat chunks = validUris sorted
    ∧ App.handleCreatePlaylist (clientPost env (S fuel)) fetchPlaylists
        (Some selected) (Some userId) sorted name description isPublic c
      = (o,
         SetIsCreatingPlaylist true
         :: [postEvent token (playlistsEndpoint userId)
               (App.createBody name description isPublic)]
         ++ ((λ chunk, postEvent token (tracksEndpoint newId)
                         (App.urisBody chunk)) <$> chunks)
         ++ SetBanner "success" "Playlist mới đã được tạo thành công!"
         :: CreatePanelReset :: tail,
         final)
    ∧ (∀ e, o ≠ Throw e).
Proof.
  intros Hclock Hmade Hok H204 Hbody Hid Hlater Huris Hname token.
  destruct (chunkArray_spec (validUris sorted) 100) as (chunks & Hc & Hcat & _);
    [lia|].
  assert (answersWell made) as Hwell.
  { split; [done|]. right. by rewrite Hbody. }
  pose proof (clientPost_answered env fuel (playlistsEndpoint userId)
                (App.createBody name description isPublic) c made (Hclock _)
                Hmade Hwell) as E1.
  rewrite (proj2 (Z.eqb_neq _ _) H204), Hbody in E1.
  destruct (postChunks_answered env fuel newId chunks (afterCall c))
    as (c' & E2 & _).
  { exact Hclock. }
  { intros k Hk. apply Hlater. cbn in Hk. lia. }
  pose proof (handleCreatePlaylist_posts (clientPost env (S fuel))
                fetchPlaylists selected userId sorted name description
                isPublic c playlist _ _ newId chunks _ _ _ Huris Hname E1 Hid
                Hc E2) as (o & tail & final & E & Ho).
  exists chunks, o, tail, final. split; [done|]. split; [done|].
  split; [exact E|exact Ho].
Qed.

(** X17. The requests of a successful creation. With a token that stays
    fresh, a provider that answers the creation request with a playlist
    whose [id] is a string and every later request well, at least one valid
    URI and a name, [handleCreatePlaylist] over the client sends first the
    creation request, a POST to
    [https://api.spotify.com/v1/users/<user>/playlists] whose body is the
    text of [{ name, description, public }] with the name and the
    description trimmed and an empty description left out, and then one
    POST per batch of 100 URIs to
    [https://api.spotify.com/v1/playlists/<id>/tracks], whose body is the
    text of [{ uris: batch }], in the order of the sorted rows; the batches
    put together are the rows' URIs that are not empty, in the rows' order;
    all requests carry the same access token and no token request is made;
    the success message follows the last batch. *)
Theorem playlist_created_through_client `{Host} (env : Env.t) (fuel : nat)
    (fetchPlaylists : M Client.t unit)
    (selected : PlaylistSummary.t) (userId : string)
    (sorted : list TrackRow.t) (name description : string) (isPublic : bool)
    (c : Client.t) (made : Response.t) (playlist : json) (newId : string) :
  (∀ k, Env.clock env k + 60000 < TokenSet.expiresAt (Client.tokens c)) →
  Env.api env (Browser.apiCalls (Client.browser c)) = Some made →
  Response.ok made = true → Response.status made ≠ 204 →
  Response.json_body made = Some playlist →
  Auth.member playlist "id" = Some (Some (JString newId)) →
  (∀ k, (Browser.apiCalls (Client.browser c) < k)%nat →
        ∃ r, Env.api env k = Some r ∧ answersWell r) →
  filter (λ u, JS.truthy u = true) (TrackRow.uri <$> sorted) ≠ [] →
  String_trim name ≠ "" →
  let token := TokenSet.accessToken (Client.tokens c) in
  ∃ chunks sent o tail final,
    App.chunkArray (filter (λ u, JS.truthy u = true) (TrackRow.uri <$> sorted))
      100 = Some chunks
    ∧ concat chunks = filter (λ u, JS.truthy u = true) (TrackRow.uri <$> sorted)
    ∧ App.handleCreatePlaylist
        (λ path body, Client.post env (S fuel) path (inl body)
                        (RequestInit.mk None ∅ None))
        fetchPlaylists
        (Some selected) (Some userId) sorted name description isPublic c
      = (o,
         SetIsCreatingPlaylist true
         :: ((λ request, ApiRequest request.1 request.2) <$> sent)
         ++ SetBanner "success" "Playlist mới đã được tạo thành công!"
         :: CreatePanelReset :: tail,
         final)
    ∧ requestView <$> sent
      = ("https://api.spotify.com/v1/users/" +:+ userId +:+ "/playlists",
         Some "POST",
         Some (BodyString
                 (JSON_stringify
                    (JObject
                       ([("name", JString (String_trim name))]
                        ++ (if JS.truthy (String_trim description)
                            then [("description",
                                   JString (String_trim description))]
                            else [])
                        ++ [("public", JBool isPublic)])))),
         Some ("Bearer " +:+ token))
        :: ((λ chunk,
               ("https://api.spotify.com/v1/playlists/" +:+ newId +:+ "/tracks",
                Some "POST",
                Some (BodyString
                        (JSON_stringify
                           (JObject [("uris", JArray (JString <$> chunk))]))),
                Some ("Bearer " +:+ token))) <$> chunks)
    ∧ (∀ e, o ≠ Throw e).
Proof.
  intros Hclock Hmade Hok H204 Hbody Hid Hlater Huris Hname token.
  destruct (handleCreatePlaylist_through_client env fuel fetchPlaylists
              selected userId sorted name description isPublic c made playlist
              newId Hclock Hmade Hok H204 Hbody Hid Hlater Huris Hname)
    as (chunks & o & tail & final & Hc & Hcat & E & Ho).
  exists chunks,
    ((resolveUrl (playlistsEndpoint userId),
      sentInit token
        (Client.finalInit "POST"
           (inl (App.createBody name description isPublic))
           (RequestInit.mk None ∅ None)))
     :: ((λ chunk,
            (resolveUrl (tracksEndpoint newId),
             sentInit token
               (Client.finalInit "POST" (inl (App.urisBody chunk))
                  (RequestInit.mk None ∅ None)))) <$> chunks)),
    o, tail, final.
  split; [exact Hc|]. split; [exact Hcat|].
  split.
  { etransitivity; [exact E|]. f_equal. f_equal.
    cbn [app fmap list_fmap fst snd]. f_equal. f_equal.
    rewrite <- list_fmap_compose. done. }
  split; [|exact Ho].
  cbn [fmap list_fmap]. f_equal.
  - unfold requestView, sentInit.
    cbn [fst snd RequestInit.method RequestInit.body RequestInit.headers
         Client.with_headers].
    by rewrite requestHeaders_authorization.
  - rewrite <- list_fmap_compose. apply list_fmap_ext. intros _ chunk _.
    unfold requestView, sentInit, compose.
    cbn [fst snd RequestInit.method RequestInit.body RequestInit.headers
         Client.with_headers].
    by rewrite requestHeaders_authorization.
Qed.

Lemma playlist_created_through_client_witness :
  let H := Reference.host [] in
  let run := App.handleCreatePlaylist
               (λ path body, Client.post CreateInputs.env 1 path (inl body)
                               (RequestInit.mk None ∅ None))
               (mret tt) (Some WriterExamples.playlist) (Some "user")
               CreateInputs.rows "Sorted" "" false ClientInputs.client in
  requestView <$> take 2 (requestsSent run.1.2)
  = [("https://api.spotify.com/v1/users/user/playlists", Some "POST",
      Some (BodyString
              (Reference.showValue
                 (JObject [("name", JString "Sorted");
                           ("public", JBool false)]))),
      Some "Bearer access-0");
     ("https://api.spotify.com/v1/playlists/new/tracks", Some "POST",
      Some (BodyString
              (Reference.showValue
                 (JObject [("uris",
                            JArray [JString "spotify:track:0";
                                    JString "spotify:track:1";
                                    JString "spotify:track:2"])]))),
      Some "Bearer access-0")].
Proof.
  intros H run.
  destruct (@playlist_created_through_client H CreateInputs.env 0 (mret tt)
              WriterExamples.playlist "user" CreateInputs.rows "Sorted" ""
              false ClientInputs.client ClientInputs.created
              (JObject [("id", JString "new")]) "new")
    as (chunks & sent & o & tail & final & Hc & _ & E & Hv & _).
  - intros k. reflexivity.
  - reflexivity.
  - reflexivity.
  - discriminate.
  - reflexivity.
  - reflexivity.
  - intros k _. exists ClientInputs.created. split; [reflexivity|].
    split; [reflexivity|]. right. discriminate.
  - vm_compute. discriminate.
  - vm_compute. discriminate.
  - assert (chunks = [["spotify:track:0"; "spotify:track:1";
                       "spotify:track:2"]]) as ->.
    { vm_compute in Hc. by injection Hc as <-. }
    subst run. rewrite E. cbn [fst snd requestsSent].
    rewrite requestsSent_app.
    destruct sent as [|r1 [|r2 [|r3 sent]]]; try discriminate.
    cbn [fmap list_fmap requestsSent app take fst snd].
    exact Hv.
Defined.

(** ** Loading the tracks: failures *)

Section TrackFetchFailures.
Context `{Host} {St : Type} (client_get : string → M St TracksPage.t).
Context (fuel : nat) (playlist : PlaylistSummary.t).

Lemma fetchPlaylistTracks_cases s :
  App.fetchPlaylistTracks client_get fuel playlist s
  = match App.collectLoop client_get fuel (PlaylistSummary.id playlist)
            (Some (App.tracksPath (PlaylistSummary.id playlist))) 0 [] s with
    | (Ret rows, ev, s') =>
        (Ret tt,
         SetIsLoadingTracks true
         :: ev ++ [SetTracks rows;
                   SetBanner "info"
                     ("Đã tải " +:+ JS.string_of_nat (length rows)
                      +:+ " bài hát từ “" +:+ PlaylistSummary.name playlist
                      +:+ "”.");
                   SetIsLoadingTracks false],
         s')
    | (Throw e, ev, s') =>
        (Ret tt,
         SetIsLoadingTracks true
         :: ev ++ [UserFacingError e; SetIsLoadingTracks false],
         s')
    | (Diverge, ev, s') => (Diverge, SetIsLoadingTracks true :: ev, s')
    end.
Proof.
  unfold App.fetchPlaylistTracks.
  unfold mbind at 1. unfold M_bind at 1. unfold emit at 1.
  unfold try_finally, try_catch.
  unfold mbind at 1. unfold M_bind at 1.
  destruct (App.collectLoop _ _ _ _ _ _ _) as [[[rows|e|] ev] s'].
  - unfold mbind, M_bind, emit. cbn [app]. by rewrite <- ?app_assoc.
  - unfold emit. cbn [app]. by rewrite <- ?app_assoc.
  - done.
Qed.

Lemma tracksPath_truthy playlistId :
  JS.truthy_opt (Some (App.tracksPath playlistId)) = true.
Proof. reflexivity. Qed.
End TrackFetchFailures.

Section LaterPages.
Context `{Host} {St : Type} (client_get : string → M St TracksPage.t).
Context (playlistId : string).

(** Once the pages before it have arrived, the loop is where a loop
    started at the page reached would be. *)
Lemma collectLoop_reaches url s pages ev url' s' :
  reaches client_get url s pages ev url' s' →
  ∀ fuel index collected,
    App.collectLoop client_get (length pages + fuel) playlistId url index
      collected s
    = let '(o, ev', s'') :=
        App.collectLoop client_get fuel playlistId url'
          (App.collectItems playlistId (allItems pages) index collected).1
          (App.collectItems playlistId (allItems pages) index collected).2 s' in
      (o, ev ++ ev', s'').
Proof.
  induction 1 as [url s|url s page ev s' url' pages ev' url'' s'' Hu Hg Hn Hr IH];
    intros fuel index collected.
  - cbn [length Nat.add allItems fmap list_fmap concat App.collectItems fst snd
         app].
    by destruct (App.collectLoop _ _ _ _ _ _ _) as [[o ev'] s''].
  - cbn [length Nat.add].
    rewrite (collectLoop_page client_get playlistId _ url index collected s
               page ev s' Hu Hg), Hn, IH.
    rewrite allItems_cons, collectItems_app.
    destruct (App.collectLoop _ _ _ _ _ _ _) as [[o ev2] s2].
    by rewrite app_assoc.
Qed.
End LaterPages.

(** X18. [fetchPlaylistTracks] never throws, and shows tracks only when
    every page arrived. When the loop over the pages fails, the error is
    shown, the loading flag is reset and no track list is set, so the rows
    of the pages already read are dropped. After any number of pages that
    arrived, the loop fails with the error of the request when the next
    page cannot be fetched, the first page included, and with an
    invalid-URL error when the next link of the page that arrives cannot
    be parsed. *)
Theorem track_fetch_failure_reported `{Host} {St : Type}
    (client_get : string → M St TracksPage.t)
    (playlist : PlaylistSummary.t) (s : St) :
  let start :=
    Some ("/playlists/" +:+ PlaylistSummary.id playlist +:+ "/tracks?limit=100") in
  let run fuel := App.fetchPlaylistTracks client_get fuel playlist s in
  let loop fuel := App.collectLoop client_get fuel (PlaylistSummary.id playlist)
                     start 0 [] s in
  let reported e evs :=
    SetIsLoadingTracks true
    :: evs ++ [UserFacingError e; SetIsLoadingTracks false] in
  (∀ fuel e, (run fuel).1.1 ≠ Throw e)
  ∧ (∀ fuel e ev s',
       loop fuel = (Throw e, ev, s') → run fuel = (Ret tt, reported e ev, s'))
  ∧ (∀ fuel pages ev url s' e ev2 s2,
       reaches client_get start s pages ev url s' →
       (length pages < fuel)%nat →
       JS.truthy_opt url = true →
       client_get (default "" url) s' = (Throw e, ev2, s2) →
       loop fuel = (Throw e, ev ++ ev2, s2)
       ∧ run fuel = (Ret tt, reported e (ev ++ ev2), s2))
  ∧ (∀ fuel pages ev url s' page ev2 s2,
       reaches client_get start s pages ev url s' →
       (length pages < fuel)%nat →
       JS.truthy_opt url = true →
       client_get (default "" url) s' = (Ret page, ev2, s2) →
       followNext page = None →
       loop fuel = (Throw InvalidURL, ev ++ ev2, s2)
       ∧ run fuel = (Ret tt, reported InvalidURL (ev ++ ev2), s2)).
Proof.
  intros start run loop reported. subst start run loop reported. cbv beta.
  set (playlistId := PlaylistSummary.id playlist).
  change (Some ("/playlists/" +:+ playlistId +:+ "/tracks?limit=100"))
    with (Some (App.tracksPath playlistId)).
  assert (∀ fuel e ev s',
            App.collectLoop client_get fuel playlistId
              (Some (App.tracksPath playlistId)) 0 [] s = (Throw e, ev, s') →
            App.fetchPlaylistTracks client_get fuel playlist s
            = (Ret tt,
               SetIsLoadingTracks true
               :: ev ++ [UserFacingError e; SetIsLoadingTracks false], s'))
    as Hreport.
  { intros fuel e ev s' E. rewrite fetchPlaylistTracks_cases.
    fold playlistId. by rewrite E. }
  split.
  { intros fuel e. apply handler_never_throws. }
  split; [exact Hreport|].
  split.
  { intros fuel pages ev url s' e ev2 s2 Hr Hfuel Hu E.
    assert (App.collectLoop client_get fuel playlistId
              (Some (App.tracksPath playlistId)) 0 [] s
            = (Throw e, ev ++ ev2, s2)) as Hloop.
    { replace fuel with (length pages + S (fuel - S (length pages)))%nat by lia.
      rewrite (collectLoop_reaches client_get playlistId _ _ _ _ _ _ Hr).
      cbn [App.collectLoop]. rewrite Hu.
      by rewrite (bind_Throw _ _ _ _ _ _ E). }
    split; [exact Hloop|]. by apply Hreport. }
  intros fuel pages ev url s' page ev2 s2 Hr Hfuel Hu E Hnext.
  assert (App.collectLoop client_get fuel playlistId
            (Some (App.tracksPath playlistId)) 0 [] s
          = (Throw InvalidURL, ev ++ ev2, s2)) as Hloop.
  { replace fuel with (length pages + S (fuel - S (length pages)))%nat by lia.
    rewrite (collectLoop_reaches client_get playlistId _ _ _ _ _ _ Hr).
    rewrite (collectLoop_page client_get playlistId _ url _ _ s' page ev2 s2
               Hu E), Hnext. done. }
  split; [exact Hloop|]. by apply Hreport.
Qed.

Lemma track_fetch_failure_reported_witness :
  let H := Reference.host [] in
  App.fetchPlaylistTracks FailingFetch.server 5 FetchExamples.playlist 0%nat
  = (Ret tt,
     [SetIsLoadingTracks true;
      UserFacingError (ApiError 500 "Internal Server Error");
      SetIsLoadingTracks false],
     2%nat).
Proof.
  intros H.
  destruct (@track_fetch_failure_reported H nat FailingFetch.server
              FetchExamples.playlist 0%nat) as (_ & _ & Later & _).
  destruct (Later 5%nat [FetchExamples.page1] []
              (Some "/playlists/p1/tracks?offset=4") 1%nat
              (ApiError 500 "Internal Server Error") [] 2%nat) as (_ & E).
  - eapply (reaches_page _ _ _ FetchExamples.page1 [] 1%nat _ [] []);
      [reflexivity..|]. apply reaches_start.
  - simpl. lia.
  - reflexivity.
  - reflexivity.
  - exact E.
Defined.

(** ** Batches: the edges *)

(** X19. The edges of [chunkArray]. An empty source gives no batch,
    whatever the size; a source that fits in one batch gives that one
    batch; and with a size of 0 the loop over a source that is not empty
    never ends: the index does not advance, so no number of iterations
    makes it return. *)
Theorem chunk_array_edges {T : Type} (source : list T) (chunkSize : nat) :
  source ≠ [] →
  App.chunkArray ([] : list T) chunkSize = Some []
  ∧ ((length source ≤ chunkSize)%nat →
     App.chunkArray source chunkSize = Some [source])
  ∧ (∀ fuel output, App.chunkLoop fuel source 0 0 output = None)
  ∧ App.chunkArray source 0 = None.
Proof.
  intros Hne.
  assert (0 < length source)%nat as Hlen
    by (destruct source; [done|simpl; lia]).
  split; [done|].
  assert (∀ fuel output, App.chunkLoop fuel source 0 0 output = None) as Hloop.
  { induction fuel as [|fuel IH]; intros output.
    - simpl. destruct (Nat.ltb_spec 0 (length source)); [done|lia].
    - rewrite chunkLoop_step by done. apply IH. }
  split; [|split; [exact Hloop|apply Hloop]].
  intros Hfit. unfold App.chunkArray.
  destruct (length source) as [|n] eqn:E; [lia|].
  rewrite chunkLoop_step by lia.
  rewrite chunkLoop_stop by lia.
  unfold App.slice. rewrite drop_0, take_ge by lia. done.
Qed.

Lemma chunk_array_edges_witness :
  App.chunkArray [1; 2; 3] 5 = Some [[1; 2; 3]]
  ∧ App.chunkArray [1; 2; 3] 0 = None.
Proof.
  destruct (chunk_array_edges [1; 2; 3] 5 ltac:(discriminate))
    as (_ & One & _).
  destruct (chunk_array_edges [1; 2; 3] 0 ltac:(discriminate))
    as (_ & _ & _ & Never).
  split; [apply One; simpl; lia|exact Never].
Defined.

(** ** The formatters *)

(** X20. The minutes and seconds [formatDuration] prints. For a duration
    that is not negative the seconds are between 0 and 59 and minutes and
    seconds together are the whole seconds of the duration: the
    milliseconds beyond the last whole second are dropped, never rounded
    up. The text is the minutes, a colon and the formatted seconds. *)
Theorem format_duration_parts (format : Z → string) (durationMs : Z) :
  0 <= durationMs →
  let minutes := (Formatters.durationParts durationMs).1 in
  let seconds := (Formatters.durationParts durationMs).2 in
  0 <= minutes ∧ 0 <= seconds < 60
  ∧ 1000 * (60 * minutes + seconds) <= durationMs
    < 1000 * (60 * minutes + seconds) + 1000
  ∧ Formatters.formatDuration format durationMs
    = NilZero.string_of_int (Z.to_int minutes) +:+ ":" +:+ format seconds.
Proof.
  intros Hms minutes seconds. subst minutes seconds.
  unfold Formatters.formatDuration, Formatters.durationParts. cbn [fst snd].
  set (total := durationMs / 1000).
  assert (0 <= total) as Htotal by (apply Z.div_pos; lia).
  rewrite Z.rem_mod_nonneg by lia.
  pose proof (Z.mod_pos_bound total 60 ltac:(lia)) as Hsec.
  pose proof (Z.div_mod total 60 ltac:(lia)) as Hsplit.
  pose proof (Z.div_mod durationMs 1000 ltac:(lia)) as Hwhole.
  pose proof (Z.mod_pos_bound durationMs 1000 ltac:(lia)) as Hrest.
  fold total in Hwhole.
  assert (0 <= total / 60) as Hmin by (apply Z.div_pos; lia).
  split; [done|]. split; [lia|]. split; [lia|done].
Qed.

Lemma format_duration_parts_witness :
  let parts := Formatters.durationParts 185999 in
  1000 * (60 * parts.1 + parts.2) <= 185999
  < 1000 * (60 * parts.1 + parts.2) + 1000.
Proof.
  destruct (format_duration_parts (λ _, "") 185999 ltac:(lia))
    as (_ & _ & Whole & _).
  exact Whole.
Defined.

(** ** The playlist list *)

(** X21. Adding a fetched playlist to the list. The playlist is put in
    front when no playlist of the list has its id, and the list is left as
    it is otherwise, the entry already there included: what was fetched
    does not replace it. Either way a playlist with that id is in the list
    afterwards, adding twice is adding once, and ids that were distinct
    stay distinct. *)
Theorem add_playlist_keeps_ids_distinct (summary : PlaylistSummary.t)
    (current : list PlaylistSummary.t) :
  NoDup (PlaylistSummary.id <$> current) →
  let added := PlaylistInput.addPlaylist summary current in
  NoDup (PlaylistSummary.id <$> added)
  ∧ PlaylistSummary.id summary ∈ PlaylistSummary.id <$> added
  ∧ (PlaylistSummary.id summary ∈ PlaylistSummary.id <$> current →
     added = current)
  ∧ ((PlaylistSummary.id summary ∉ PlaylistSummary.id <$> current) →
     added = summary :: current)
  ∧ PlaylistInput.addPlaylist summary added = added.
Proof.
  intros Hnd added.
  assert (existsb (λ item, String.eqb (PlaylistSummary.id item)
                             (PlaylistSummary.id summary)) current = true
          ↔ PlaylistSummary.id summary ∈ PlaylistSummary.id <$> current)
    as Hex.
  { rewrite existsb_exists, list_elem_of_fmap. split.
    - intros (x & Hx%list_elem_of_In & E%String.eqb_eq). eauto.
    - intros (x & E & Hx%list_elem_of_In). exists x.
      split; [done|]. by apply String.eqb_eq. }
  subst added. unfold PlaylistInput.addPlaylist.
  destruct (decide (PlaylistSummary.id summary ∈ PlaylistSummary.id <$> current))
    as [Hin|Hnot].
  - rewrite (proj2 Hex Hin). split; [done|]. split; [done|]. split; [done|].
    split; [done|]. by rewrite (proj2 Hex Hin).
  - rewrite (not_true_is_false _ (λ E, Hnot (proj1 Hex E))).
    split; [rewrite fmap_cons; by apply NoDup_cons|].
    split; [rewrite fmap_cons; apply elem_of_cons; by left|].
    split; [done|]. split; [done|].
    cbn [existsb]. by rewrite String.eqb_refl.
Qed.

Lemma add_playlist_keeps_ids_distinct_witness :
  PlaylistInput.addPlaylist PlaylistInputsList.renamed
    [PlaylistInputsList.other; PlaylistInputsList.mix]
  = [PlaylistInputsList.other; PlaylistInputsList.mix].
Proof.
  destruct (add_playlist_keeps_ids_distinct PlaylistInputsList.renamed
              [PlaylistInputsList.other; PlaylistInputsList.mix])
    as (_ & _ & Kept & _).
  - apply NoDup_cons. split; [|apply NoDup_singleton].
    intros Hin%list_elem_of_singleton. discriminate.
  - apply Kept. apply elem_of_cons. right. apply elem_of_cons. by left.
Defined.

(** ** The sort: arrival order and unparseable dates *)

(** X22. The sorted table does not depend on the order in which the rows
    are held. With a consistent collation, parseable timestamps, distinct
    original indices and at least one rule, sorting any rearrangement of
    the rows gives the same table, and sorting the sorted table changes
    nothing. *)
Theorem sorted_tracks_canonical `{Host} (tracks : list TrackRow.t)
    (rules : list SortRule.t) :
  ConsistentCollation → Forall validTimestamp tracks →
  NoDup (TrackRow.originalIndex <$> tracks) → rules ≠ [] →
  (∀ shuffled, shuffled ≡ₚ tracks →
               App.sortedTracks shuffled rules = App.sortedTracks tracks rules)
  ∧ App.sortedTracks (App.sortedTracks tracks rules) rules
    = App.sortedTracks tracks rules.
Proof.
  intros Hc Hv Hnd Hrules.
  assert (∀ shuffled, shuffled ≡ₚ tracks →
            App.sortedTracks shuffled rules = App.sortedTracks tracks rules)
    as Hany.
  { intros shuffled Hp.
    apply (sortedTracks_unique tracks rules _ Hc Hv Hnd (or_introl Hrules)).
    - by rewrite sortedTracks_Permutation.
    - apply StronglySorted_Sorted, sortedTracks_rowLe; [done| |by left].
      by rewrite Hp. }
  split; [exact Hany|]. apply Hany, sortedTracks_Permutation.
Qed.

Lemma sorted_tracks_canonical_witness :
  let H := Reference.host [] in
  let rules := [Examples.byPopularityDesc; Examples.byNameAsc] in
  App.sortedTracks [Examples.rowC; Examples.rowB; Examples.rowA] rules
  = App.sortedTracks [Examples.rowB; Examples.rowA; Examples.rowC] rules.
Proof.
  intros H rules.
  destruct (@sorted_tracks_canonical H
              [Examples.rowB; Examples.rowA; Examples.rowC] rules)
    as (Any & _).
  - apply reference_collation.
  - repeat constructor; discriminate.
  - cbn. repeat (apply NoDup_cons_2;
                   [rewrite ?elem_of_cons, elem_of_nil; lia|]).
    apply NoDup_nil_2.
  - discriminate.
  - apply Any.
    change [Examples.rowC; Examples.rowB; Examples.rowA]
      with ([Examples.rowC] ++ [Examples.rowB; Examples.rowA]).
    change [Examples.rowB; Examples.rowA; Examples.rowC]
      with ([Examples.rowB; Examples.rowA] ++ [Examples.rowC]).
    apply Permutation_app_comm.
Defined.

(** X23. A date that cannot be parsed ties with everything. When the first
    rule sorts by [addedAt] and the [addedAt] of a row is not a date, the
    comparator returns NaN for that row against any other, in both
    directions, without consulting the later rules or the original index,
    and the sort reads NaN as a tie. A table of exactly two rows, one of
    them such a row, is therefore returned as it was given, whichever of
    the two came first. Nothing is said of longer tables, where the order
    under such a comparator is left to the engine. *)
Theorem invalid_timestamp_compares_as_tie `{Host} (ruleId : string)
    (direction : SortRule.Direction) (rest : list SortRule.t)
    (a b : TrackRow.t) :
  Date_getTime (TrackRow.addedAt a) = NaN →
  let rules := SortRule.mk ruleId SortRule.addedAt direction :: rest in
  App.comparator rules a b = NaN ∧ App.comparator rules b a = NaN
  ∧ App.SortCompare (App.comparator rules) a b = 0
  ∧ App.SortCompare (App.comparator rules) b a = 0
  ∧ App.sortedTracks [a; b] rules = [a; b]
  ∧ App.sortedTracks [b; a] rules = [b; a].
Proof.
  intros Ha rules.
  assert (App.comparator rules a b = NaN) as Hab.
  { subst rules. cbn [App.comparator SortRule.field App.fieldComparison].
    unfold App.compareDates. rewrite Ha. done. }
  assert (App.comparator rules b a = NaN) as Hba.
  { subst rules. cbn [App.comparator SortRule.field App.fieldComparison].
    unfold App.compareDates. rewrite Ha.
    by destruct (Date_getTime (TrackRow.addedAt b)). }
  assert (App.SortCompare (App.comparator rules) a b = 0) as Sab
    by (unfold App.SortCompare; by rewrite Hab).
  assert (App.SortCompare (App.comparator rules) b a = 0) as Sba
    by (unfold App.SortCompare; by rewrite Hba).
  split; [done|]. split; [done|]. split; [done|]. split; [done|].
  unfold App.sortedTracks. cbn [length Nat.eqb orb].
  unfold App.Array_sort. cbn [foldr App.sort_insert].
  by rewrite Sab, Sba.
Qed.

Lemma invalid_timestamp_compares_as_tie_witness :
  let H := Reference.host [] in
  let rules := [SortRule.mk "r1" SortRule.addedAt SortRule.desc;
                SortRule.mk "r2" SortRule.popularity SortRule.desc] in
  App.sortedTracks [SortInputs.undated; Examples.rowC] rules
  = [SortInputs.undated; Examples.rowC]
  ∧ App.sortedTracks [Examples.rowC; SortInputs.undated] rules
    = [Examples.rowC; SortInputs.undated].
Proof.
  intros H rules.
  destruct (@invalid_timestamp_compares_as_tie H "r1" SortRule.desc
              [SortRule.mk "r2" SortRule.popularity SortRule.desc]
              SortInputs.undated Examples.rowC eq_refl)
    as (_ & _ & _ & _ & S1 & S2).
  split; [exact S1|exact S2].
Defined.

(** ** The lifetime of a refreshed token *)

Section TokenLifetime.
Context `{Host} (env : Env.t).

Lemma refreshAccessToken_granted previous b clientId data t evs b' :
  Env.CLIENT_ID env = Some clientId → clientId ≠ "" →
  Env.tokenEndpoint env (Browser.tokenCalls b) = Some (TokenOk (Some data)) →
  Auth.refreshAccessToken env previous b = (Ret t, evs, b') →
  TokenSet.expiresAt t
  = Env.clock env (Browser.ticks b) + TokenEndpointResponse.expires_in data * 1000
  ∧ TokenSet.accessToken t = TokenEndpointResponse.access_token data
  ∧ Browser.ticks b' = S (Browser.ticks b)
  ∧ tokenRequests evs
    = [[("grant_type", "refresh_token");
        ("refresh_token", TokenSet.refreshToken previous);
        ("client_id", clientId)]].
Proof.
  intros Hc Hne%truthy_nonempty Hep.
  unfold Auth.refreshAccessToken. run_M.
  rewrite Hc. run_M. rewrite Hne. run_M. rewrite Hep. run_M.
  pose proof (buildTokenSet_cases env data
                (Some (TokenSet.refreshToken previous))
                (Browser.countTokenCall b)) as Hb.
  cbv zeta in Hb. clear Hne.
  destruct (TokenEndpointResponse.refresh_token data) as [r|];
    [destruct (JS.truthy r)
    |destruct (JS.truthy (TokenSet.refreshToken previous))];
    rewrite Hb; run_M; intros [= <- <- <-]; done.
Qed.

Lemma refreshAccessToken_requests previous b clientId :
  Env.CLIENT_ID env = Some clientId → clientId ≠ "" →
  tokenRequests (Auth.refreshAccessToken env previous b).1.2
  = [[("grant_type", "refresh_token");
      ("refresh_token", TokenSet.refreshToken previous);
      ("client_id", clientId)]].
Proof.
  intros Hc Hne%truthy_nonempty.
  unfold Auth.refreshAccessToken. run_M.
  rewrite Hc. run_M. rewrite Hne. run_M. clear Hne.
  destruct (Env.tokenEndpoint env (Browser.tokenCalls b))
    as [[[d|]|status body]|]; run_M; try done.
  pose proof (buildTokenSet_cases env d
                (Some (TokenSet.refreshToken previous))
                (Browser.countTokenCall b)) as Hb.
  cbv zeta in Hb.
  destruct (TokenEndpointResponse.refresh_token d) as [r|];
    [destruct (JS.truthy r)
    |destruct (JS.truthy (TokenSet.refreshToken previous))];
    rewrite Hb; run_M; done.
Qed.
End TokenLifetime.

(** X24. How long a refreshed token counts as fresh. A token returned by
    [refreshAccessToken] expires [expires_in] seconds after the time read
    when it was built, and the client takes it as fresh only while more
    than a minute of that is left. A token granted for a minute or less is
    therefore never fresh: as long as the clock does not run backwards,
    every request made with it starts with another refresh. *)
Theorem short_lived_token_refreshed_every_time `{Host} (env : Env.t)
    (previous : TokenSet.t) (b : Browser.t) (clientId : string)
    (data : TokenEndpointResponse.t) (t : TokenSet.t) (evs : list Event)
    (b' : Browser.t) :
  Env.CLIENT_ID env = Some clientId → clientId ≠ "" →
  Env.tokenEndpoint env (Browser.tokenCalls b) = Some (TokenOk (Some data)) →
  Auth.refreshAccessToken env previous b = (Ret t, evs, b') →
  let built := Env.clock env (Browser.ticks b) in
  TokenSet.expiresAt t = built + TokenEndpointResponse.expires_in data * 1000
  ∧ (∀ c, Client.tokens c = t →
          (tokenFresh env c
           ↔ Env.clock env (Browser.ticks (Client.browser c)) + 60000
             < built + TokenEndpointResponse.expires_in data * 1000))
  ∧ (TokenEndpointResponse.expires_in data <= 60 →
     ∀ c, Client.tokens c = t →
          built <= Env.clock env (Browser.ticks (Client.browser c)) →
          ¬ tokenFresh env c
          ∧ ∀ fuel input init attempt,
              refreshesBeforeRequest
                (Client.authorizedFetch env (S fuel) input init attempt c).1.2
              = 1%nat).
Proof.
  intros Hc Hne Hep E built.
  destruct (refreshAccessToken_granted env previous b clientId data t evs b'
              Hc Hne Hep E) as (Hexp & _).
  fold built in Hexp.
  split; [exact Hexp|].
  assert (∀ c, Client.tokens c = t →
            (tokenFresh env c
             ↔ Env.clock env (Browser.ticks (Client.browser c)) + 60000
               < built + TokenEndpointResponse.expires_in data * 1000))
    as Hfresh.
  { intros c Ht. unfold tokenFresh. by rewrite Ht, Hexp. }
  split; [exact Hfresh|].
  intros Hshort c Ht Hclock.
  assert (¬ tokenFresh env c) as Hstale.
  { rewrite (Hfresh c Ht). lia. }
  split; [exact Hstale|].
  intros fuel input init attempt.
  pose proof (ensureFresh_stale env c Hstale) as He.
  pose proof (refreshAccessToken_requests env (Client.tokens c)
                (Browser.tick (Client.browser c)) clientId Hc Hne) as Hreq.
  destruct (Auth.refreshAccessToken env (Client.tokens c)
              (Browser.tick (Client.browser c)))
    as [[o evr] b2] eqn:E2.
  cbn [fst snd] in Hreq.
  destruct (refreshAccessToken_events env _ _ _ _ _ E2)
    as [(Hnil & _)|Hev]; [by rewrite Hnil in Hreq|].
  destruct o as [t2|e|].
  - destruct (authorizedFetch_request env fuel input init attempt c _ _ _ He)
      as (o & tail & c' & ->).
    cbn [fst snd]. rewrite Hev. unfold observed.
    by destruct (Client.onTokenRefresh c).
  - rewrite (authorizedFetch_no_request env fuel input init attempt c _ _ _ He).
    cbn [fst snd]. by rewrite Hev.
  - by destruct (refreshAccessToken_frame env _ _ _ _ _ E2) as (? & _).
Qed.

Lemma short_lived_token_refreshed_every_time_witness :
  let H := Reference.host [] in
  let granted := TokenSet.mk "access-1" "refresh-0" 31000
                   "playlist-read-private" in
  (Auth.refreshAccessToken PagingInputs.shortLived
     (PipelineExamples.tokens "access-0" 0) PipelineExamples.browser).1.1
  = Ret granted
  ∧ ¬ tokenFresh PagingInputs.shortLived
        (Client.mk granted true (Browser.mk ∅ ∅ 5 1 0)).
Proof.
  intros H granted. split; [reflexivity|].
  destruct (@short_lived_token_refreshed_every_time H PagingInputs.shortLived
              (PipelineExamples.tokens "access-0" 0) PipelineExamples.browser
              "client-id"
              (TokenEndpointResponse.mk "access-1" None 30
                 "playlist-read-private")
              granted
              (Auth.refreshAccessToken PagingInputs.shortLived
                 (PipelineExamples.tokens "access-0" 0)
                 PipelineExamples.browser).1.2
              (Auth.refreshAccessToken PagingInputs.shortLived
                 (PipelineExamples.tokens "access-0" 0)
                 PipelineExamples.browser).2
              eq_refl ltac:(discriminate) eq_refl eq_refl)
    as (_ & _ & Short).
  destruct (Short ltac:(cbn; lia)
              (Client.mk granted true (Browser.mk ∅ ∅ 5 1 0)) eq_refl
              ltac:(cbn; lia)) as [Stale _].
  exact Stale.
Defined.

(** ** The address of the next page *)

Section NextPage.
Context `{Host} (env : Env.t).

Lemma bind_events {St A B} (m : M St A) (k : A → M St B) s o ev s' :
  m s = (o, ev, s') → ∃ o' tail s'', (m ≫= k) s = (o', ev ++ tail, s'').
Proof.
  intros E. unfold mbind, M_bind. rewrite E.
  destruct o as [a|e|].
  - destruct (k a s') as [[o' tail] s'']. eauto.
  - exists (Throw e), [], s'. by rewrite app_nil_r.
  - exists Diverge, [], s'. by rewrite app_nil_r.
Qed.

Lemma getPage_answered fuel decode url c r v :
  tokenFresh env c →
  Env.api env (Browser.apiCalls (Client.browser c)) = Some r →
  Response.ok r = true → Response.json_body r = Some v →
  getPage env (S fuel) decode url c
  = (Ret (decode v),
     [requestOf (TokenSet.accessToken (Client.tokens c)) url
        (Client.with_method "GET" (RequestInit.mk None ∅ None))],
     afterCall c).
Proof.
  intros Hf Ha Hok Hv. destruct (ok_not_retried r Hok) as [H401 H429].
  unfold getPage. unfold mbind, M_bind.
  rewrite (get_answered env fuel url _ c r Hf Ha H401 H429), Hok.
  unfold bodyOf. by rewrite Hv.
Qed.

Lemma getPage_requests fuel decode url c :
  tokenFresh env c →
  ∃ o tail c',
    getPage env (S fuel) decode url c
    = (o,
       requestOf (TokenSet.accessToken (Client.tokens c)) url
         (Client.with_method "GET" (RequestInit.mk None ∅ None)) :: tail,
       c').
Proof.
  intros Hf. unfold getPage, Client.get.
  destruct (authorizedFetch_request env fuel url
              (Client.with_method "GET" (RequestInit.mk None ∅ None)) 0 c _ _ _
              (ensureFresh_fresh env c Hf)) as (o & tail & c' & E).
  destruct (bind_events _
              (λ response, if negb (Response.ok response)
                           then throw (Client.toError response)
                           else Client.bodyOrThrow response) _ _ _ _ E)
    as (o1 & tail1 & c1 & E1).
  destruct (bind_events _ (λ value, mret (decode value)) _ _ _ _ E1)
    as (o2 & tail2 & c2 & E2).
  rewrite E2. cbn [app]. rewrite <- !app_assoc. cbn [app].
  eexists _, _, _. reflexivity.
Qed.
End NextPage.

(** The first two addresses the loop over the pages requests. *)
Lemma collectLoop_second_request `{Host} (env : Env.t)
    (fuel fuel' : nat) (decode : json → TracksPage.t) (playlistId : string)
    (c : Client.t) (r : Response.t) (v : json) (link path : string) :
  (∀ k, Env.clock env k + 60000 < TokenSet.expiresAt (Client.tokens c)) →
  Env.api env (Browser.apiCalls (Client.browser c)) = Some r →
  Response.ok r = true → Response.json_body r = Some v →
  TracksPage.next (decode v) = Some link → link ≠ "" →
  URL_path_search link = Some path → path ≠ "" →
  String.prefix "http" path = false →
  let run := App.collectLoop (getPage env (S fuel') decode) (S (S fuel))
               playlistId (Some (App.tracksPath playlistId)) 0 [] c in
  take 2 (requestedUrls run.1.2)
  = [Client.API_BASE +:+ App.tracksPath playlistId; Client.API_BASE +:+ path]
  ∧ ∀ rest, path = "/v1" +:+ rest →
            requestedUrls run.1.2 !! 1%nat
            = Some ("https://api.spotify.com/v1/v1" +:+ rest).
Proof.
  intros Hclock Ha Hok Hv Hnext Hlink%truthy_nonempty Hpath Hne%truthy_nonempty
    Hhttp run.
  assert (take 2 (requestedUrls run.1.2)
          = [Client.API_BASE +:+ App.tracksPath playlistId;
             Client.API_BASE +:+ path]) as Htwo.
  { subst run.
    rewrite (collectLoop_page (getPage env (S fuel') decode) playlistId
               (S fuel) _ 0 [] c _ _ _ (tracksPath_truthy _)
               (getPage_answered env fuel' decode _ c r v (Hclock _) Ha Hok Hv)).
    unfold followNext. rewrite Hnext.
    cbn [JS.truthy_opt default from_option id negb].
    rewrite Hlink, Hpath. cbn [negb].
    cbn [App.collectLoop JS.truthy_opt default from_option id]. rewrite Hne.
    destruct (getPage_requests env fuel' decode path (afterCall c) (Hclock _))
      as (o & tail & c' & E).
    destruct (bind_events _
                (λ response,
                   let '(index', collected') :=
                     App.collectItems playlistId (TracksPage.items response)
                       (App.collectItems playlistId
                          (TracksPage.items (decode v)) 0 []).1
                       (App.collectItems playlistId
                          (TracksPage.items (decode v)) 0 []).2 in
                   if negb (JS.truthy_opt (TracksPage.next response)) then
                     App.collectLoop (getPage env (S fuel') decode) fuel
                       playlistId None index' collected'
                   else
                     match URL_path_search
                             (default "" (TracksPage.next response)) with
                     | Some path' =>
                         App.collectLoop (getPage env (S fuel') decode) fuel
                           playlistId (Some path') index' collected'
                     | None => throw InvalidURL
                     end) _ _ _ _ E) as (o2 & tail2 & c2 & E2).
    rewrite E2. cbn [fst snd]. unfold requestedUrls, requestOf.
    cbn [app requestsSent fmap list_fmap fst take].
    unfold resolveUrl. rewrite Hhttp. done. }
  split; [exact Htwo|].
  intros rest ->.
  assert (requestedUrls run.1.2 !! 1%nat
          = take 2 (requestedUrls run.1.2) !! 1%nat) as ->
    by (by rewrite lookup_take_lt by lia).
  rewrite Htwo. done.
Qed.

Lemma requestedUrls_framed (first : Event) evs closing :
  requestsSent [first] = [] → requestsSent closing = [] →
  requestedUrls (first :: evs ++ closing) = requestedUrls evs.
Proof.
  intros Hf Hc. unfold requestedUrls.
  change (first :: evs ++ closing) with ([first] ++ evs ++ closing).
  by rewrite !requestsSent_app, Hf, Hc, app_nil_r.
Qed.

(** X25. Where the next page is requested. The loop over the pages asks
    the client for the path and query of the page's next link, and the
    client puts its base address in front of every input that does not
    start with [http]. With a token that stays fresh, the first request of
    [fetchPlaylistTracks] goes to
    [https://api.spotify.com/v1/playlists/<id>/tracks?limit=100] and the
    second to [https://api.spotify.com/v1] followed by the path and query
    of the link: for a link that lies under the base address itself, whose
    path starts with [/v1], the address requested has the [/v1] segment
    twice. *)
Theorem next_page_requested_under_api_base `{Host} (env : Env.t)
    (fuel fuel' : nat) (decode : json → TracksPage.t)
    (playlist : PlaylistSummary.t)
    (c : Client.t) (r : Response.t) (v : json) (link path : string) :
  (∀ k, Env.clock env k + 60000 < TokenSet.expiresAt (Client.tokens c)) →
  Env.api env (Browser.apiCalls (Client.browser c)) = Some r →
  Response.ok r = true → Response.json_body r = Some v →
  TracksPage.next (decode v) = Some link → link ≠ "" →
  URL_path_search link = Some path → path ≠ "" →
  String.prefix "http" path = false →
  let run := App.fetchPlaylistTracks
               (λ url, value ← Client.get env (S fuel') url
                                  (RequestInit.mk None ∅ None);
                       mret (decode value))
               (S (S fuel)) playlist c in
  take 2 (requestedUrls run.1.2)
  = ["https://api.spotify.com/v1/playlists/" +:+ PlaylistSummary.id playlist
       +:+ "/tracks?limit=100";
     "https://api.spotify.com/v1" +:+ path]
  ∧ ∀ rest, path = "/v1" +:+ rest →
            requestedUrls run.1.2 !! 1%nat
            = Some ("https://api.spotify.com/v1/v1" +:+ rest).
Proof.
  intros Hclock Ha Hok Hv Hnext Hlink Hpath Hne Hhttp run.
  destruct (collectLoop_second_request env fuel fuel' decode
              (PlaylistSummary.id playlist) c r v link path Hclock Ha Hok Hv
              Hnext Hlink Hpath Hne Hhttp) as (Htwo & _).
  assert (take 2 (requestedUrls run.1.2)
          = ["https://api.spotify.com/v1/playlists/"
               +:+ PlaylistSummary.id playlist +:+ "/tracks?limit=100";
             "https://api.spotify.com/v1" +:+ path]) as Hrun.
  { subst run.
    change (λ url, value ← Client.get env (S fuel') url
                             (RequestInit.mk None ∅ None);
                   mret (decode value))
      with (getPage env (S fuel') decode).
    rewrite fetchPlaylistTracks_cases.
    destruct (App.collectLoop _ _ _ _ _ _ _) as [[[rows|e|] ev] c'];
      cbn [fst snd] in Htwo |- *.
    - rewrite requestedUrls_framed by done. exact Htwo.
    - rewrite requestedUrls_framed by done. exact Htwo.
    - rewrite <- (app_nil_r ev).
      rewrite requestedUrls_framed by done. exact Htwo. }
  split; [exact Hrun|].
  intros rest ->.
  assert (requestedUrls run.1.2 !! 1%nat
          = take 2 (requestedUrls run.1.2) !! 1%nat) as ->
    by (by rewrite lookup_take_lt by lia).
  rewrite Hrun. done.
Qed.

Lemma next_page_requested_under_api_base_witness :
  let H := Reference.host [] in
  take 2
    (requestedUrls
       (App.fetchPlaylistTracks
          (λ url, value ← Client.get PagingInputs.env 1 url
                             (RequestInit.mk None ∅ None);
                  mret (PagingInputs.decode value))
          2 FetchExamples.playlist ClientInputs.client).1.2)
  = ["https://api.spotify.com/v1/playlists/p1/tracks?limit=100";
     "https://api.spotify.com/v1/v1/playlists/p1/tracks?offset=100&limit=100"].
Proof.
  intros H.
  destruct (@next_page_requested_under_api_base H PagingInputs.env 0 0
              PagingInputs.decode FetchExamples.playlist ClientInputs.client
              (Response.mk 200 "OK" ∅ (Some PagingInputs.firstPage))
              PagingInputs.firstPage PagingInputs.link
              "/v1/playlists/p1/tracks?offset=100&limit=100")
    as (Two & _).
  - intros k. reflexivity.
  - reflexivity.
  - reflexivity.
  - reflexivity.
  - reflexivity.
  - discriminate.
  - vm_compute. reflexivity.
  - discriminate.
  - reflexivity.
  - exact Two.
Defined.

(** ** The callback page *)

Section CallbackFacts.
Context `{Host} (env : Env.t).

Lemma authCallback_run error code state b :
  Callback.authCallback env error code state b
  = if JS.truthy_opt error then (Ret Callback.AccessDenied, [], b)
    else if negb (JS.truthy_opt code) || negb (JS.truthy_opt state)
    then (Ret Callback.MissingCode, [], b)
    else match Auth.completeAuthorization env (default "" code)
                 (default "" state) b with
         | (Ret tokenSet, evs, b') => (Ret (Callback.SignedIn tokenSet), evs, b')
         | (Throw e, evs, b') => (Ret (Callback.LoginError e), evs, b')
         | (Diverge, evs, b') => (Diverge, evs, b')
         end.
Proof.
  unfold Callback.authCallback.
  destruct (JS.truthy_opt error); [done|].
  destruct (negb (JS.truthy_opt code) || negb (JS.truthy_opt state)); [done|].
  unfold try_catch, mbind, M_bind, Callback.handleTokenChange, mret, M_ret.
  destruct (Auth.completeAuthorization env _ _ b) as [[[t|e|] evs] b'];
    cbn [app]; by rewrite ?app_nil_r.
Qed.
End CallbackFacts.

(** X26. The callback page. Its effect never throws. When the provider
    reports an error, or the code or the state is missing, no token request
    is made and no storage is touched; in every outcome other than a sign-in
    both storages are as they were, so the pending state and verifier of
    the failed login stay. The retry button then removes them together
    with any stored token record, and stores a fresh state and verifier: a
    callback that brings back a code and any other state is refused. *)
Theorem callback_page_and_retry `{Host} `{Crypto} (env : Env.t)
    (clientId redirectUri : string) :
  Env.CLIENT_ID env = Some clientId → clientId ≠ "" →
  Env.REDIRECT_URI env = Some redirectUri → redirectUri ≠ "" →
  (∀ error code state b,
     let run := Callback.authCallback env error code state b in
     (∃ shown, run.1.1 = Ret shown)
     ∧ (JS.truthy_opt error = true → run = (Ret Callback.AccessDenied, [], b))
     ∧ (JS.truthy_opt error = false →
        JS.truthy_opt code = false ∨ JS.truthy_opt state = false →
        run = (Ret Callback.MissingCode, [], b))
     ∧ ((∀ tokenSet, run.1.1 ≠ Ret (Callback.SignedIn tokenSet)) →
        Browser.sessionStorage run.2 = Browser.sessionStorage b
        ∧ Browser.localStorage run.2 = Browser.localStorage b))
  ∧ (∀ scopes stateEntropy verifierEntropy b,
       let again := (Callback.retry env scopes stateEntropy verifierEntropy b).2 in
       let state := Login.generateRandomString stateEntropy 64 in
       Browser.localStorage again !! Auth.TOKEN_STORAGE_KEY = None
       ∧ Browser.sessionStorage again !! Auth.STATE_KEY = Some state
       ∧ Browser.sessionStorage again !! Auth.CODE_VERIFIER_KEY
         = Some (Login.generateRandomString verifierEntropy 128)
       ∧ ∀ code returnedState,
           code ≠ "" → returnedState ≠ "" → returnedState ≠ state →
           Callback.authCallback env None (Some code) (Some returnedState) again
           = (Ret (Callback.LoginError InvalidAuthState), [], again)).
Proof.
  intros Hc Hcne Hr Hrne. split.
  { intros error code state b run. subst run.
    rewrite authCallback_run.
    destruct (JS.truthy_opt error) eqn:Ee.
    { split; [by eexists|]. split; [done|]. split; [done|]. done. }
    destruct (negb (JS.truthy_opt code) || negb (JS.truthy_opt state)) eqn:Eg.
    { split; [by eexists|]. split; [done|]. split; [done|]. done. }
    apply orb_false_iff in Eg as [Ecode%negb_false_iff Estate%negb_false_iff].
    destruct (Auth.completeAuthorization env (default "" code)
                (default "" state) b) as [[[t|e|] evs] b'] eqn:E;
      cbn [fst snd].
    - split; [by eexists|]. split; [done|].
      split; [intros _ [Hx|Hx]; congruence|].
      intros Hnot. by destruct (Hnot t).
    - destruct (completeAuthorization_cases env _ _ _ _ _ _ E)
        as [(t & ? & _)|(e' & _ & Hs & Hl)]; [done|].
      split; [by eexists|]. split; [done|].
      split; [intros _ [Hx|Hx]; congruence|]. done.
    - destruct (completeAuthorization_cases env _ _ _ _ _ _ E)
        as [(t & ? & _)|(e' & ? & _)]; done. }
  intros scopes stateEntropy verifierEntropy b again state.
  assert (again
          = Browser.with_sessionStorage
              (λ m, <[Auth.STATE_KEY := state]>
                      (<[Auth.CODE_VERIFIER_KEY :=
                           Login.generateRandomString verifierEntropy 128]> m))
              (Auth.clearStoredAuth b).2) as ->.
  { subst again. unfold Callback.retry, Callback.handleTokenChange.
    unfold mbind at 1. unfold M_bind at 1.
    destruct (Auth.clearStoredAuth b) as [[[[]|e|] evs] b1] eqn:E;
      try (revert E; run_M; done).
    by rewrite (startSpotifyLogin_run env scopes stateEntropy verifierEntropy
                  b1 clientId redirectUri Hc Hcne Hr Hrne). }
  destruct (clearStoredAuth_keys b) as (K1 & _).
  cbv zeta in K1.
  cbn [Browser.localStorage Browser.sessionStorage Browser.with_sessionStorage].
  split; [exact K1|].
  split; [apply lookup_insert_eq|].
  split; [rewrite lookup_insert_ne by done; apply lookup_insert_eq|].
  intros code returnedState Ecode%truthy_nonempty Estate%truthy_nonempty Hother.
  rewrite authCallback_run.
  cbn [JS.truthy_opt default from_option id].
  rewrite Ecode, Estate. cbn [negb orb].
  rewrite (completeAuthorization_mismatch env code returnedState _
             clientId redirectUri Hc Hcne Hr Hrne); [done|].
  cbn [Browser.sessionStorage Browser.with_sessionStorage].
  rewrite lookup_insert_eq. congruence.
Qed.

Lemma callback_page_and_retry_witness :
  let H := Reference.host [] in
  let C := LoginInputs.crypto in
  Callback.authCallback LoginExamples.granting (Some "access_denied") None None
    CallbackInputs.stale
  = (Ret Callback.AccessDenied, [], CallbackInputs.stale)
  ∧ Browser.localStorage
      (Callback.retry LoginExamples.granting None LoginInputs.stateEntropy
         LoginInputs.verifierEntropy CallbackInputs.stale).2
    !! Auth.TOKEN_STORAGE_KEY = None.
Proof.
  intros H C.
  destruct (@callback_page_and_retry H C LoginExamples.granting "client-id"
              "https://app.test/callback" eq_refl ltac:(discriminate) eq_refl
              ltac:(discriminate)) as (Page & Retry).
  split.
  - destruct (Page (Some "access_denied") None None CallbackInputs.stale)
      as (_ & Denied & _).
    by apply Denied.
  - destruct (Retry None LoginInputs.stateEntropy LoginInputs.verifierEntropy
                CallbackInputs.stale) as (Cleared & _).
    exact Cleared.
Defined.
